(** * trackpy.feature: the single-image feature finder

    A shallow embedding of [trackpy/feature.py] (peak detection, centroid
    refinement with its two engines, duplicate suppression, and the [locate]
    orchestrator) together with the properties its specification states.

    Conventions of the embedding
    - A NumPy array is a shape (one extent per axis) and a total function from
      multi-indices to values; reductions run over [indices shape], the
      row-major scan of the array.
    - Pixel values and finite floating-point values are exact rationals ([Q]).
      Division by zero, which NumPy answers with [inf] or [nan], is kept by the
      type [float] below; rounding error is not modelled.  Where a library
      routine's rounded value decides the outcome ([np.percentile]), the
      value is a parameter of the embedding.
    - An array holds no NaN entry, except for the array handed to the peak
      detector: there the NaN entries of a floating array are given by a
      separate map, and the detector returns before it reads a pixel of such
      an array.
    - Exceptions are a constructor of [result]; warnings are accumulated in the
      [Ok] constructor in the order they are emitted. *)

From Stdlib Require Import String DecimalString.
From Stdlib Require Import ZArith QArith Qround Qabs List Bool Lia Lqa.
From Stdlib Require Import Permutation Sorted.
Import ListNotations.

Open Scope Z_scope.

(* ------------------------------------------------------------------ *)
(** ** Floating-point values with NumPy's special cases *)

Module Fl.

Inductive float : Type :=
| Fin (q : Q)
| Inf (negative : bool)
| NaN.

Definition of_Z (z : Z) : float := Fin (inject_Z z).

Definition Qsign_neg (q : Q) : bool := (Qnum q <? 0)%Z.
Definition Qis_zero (q : Q) : bool := (Qnum q =? 0)%Z.

Definition opp (x : float) : float :=
  match x with
  | Fin q => Fin (- q)%Q
  | Inf s => Inf (negb s)
  | NaN => NaN
  end.

Definition add (x y : float) : float :=
  match x, y with
  | Fin a, Fin b => Fin (a + b)%Q
  | Fin _, Inf s | Inf s, Fin _ => Inf s
  | Inf s, Inf t => if Bool.eqb s t then Inf s else NaN
  | _, _ => NaN
  end.

Definition sub (x y : float) : float := add x (opp y).

Definition mul (x y : float) : float :=
  match x, y with
  | Fin a, Fin b => Fin (a * b)%Q
  | Fin a, Inf s | Inf s, Fin a =>
      if Qis_zero a then NaN else Inf (xorb s (Qsign_neg a))
  | Inf s, Inf t => Inf (xorb s t)
  | _, _ => NaN
  end.

(** [x / y] as NumPy computes it: [0/0] is [nan], [a/0] is signed [inf]. *)
Definition div (x y : float) : float :=
  match x, y with
  | Fin a, Fin b =>
      if Qis_zero b
      then (if Qis_zero a then NaN else Inf (Qsign_neg a))
      else Fin (a / b)%Q
  | Fin _, Inf _ => Fin 0%Q
  | Inf s, Fin b => Inf (xorb s (Qsign_neg b))
  | _, _ => NaN
  end.

Definition abs (x : float) : float :=
  match x with
  | Fin q => Fin (Qabs q)
  | Inf _ => Inf false
  | NaN => NaN
  end.

(** Comparisons are false as soon as an operand is [nan]. *)
Definition ltb (x y : float) : bool :=
  match x, y with
  | Fin a, Fin b => negb (Qle_bool b a)
  | Fin _, Inf s => negb s
  | Inf s, Fin _ => s
  | Inf s, Inf t => s && negb t
  | _, _ => false
  end.

Definition gtb (x y : float) : bool := ltb y x.

Definition leb (x y : float) : bool :=
  match x, y with
  | Fin a, Fin b => Qle_bool a b
  | Fin _, Inf s => negb s
  | Inf s, Fin _ => s
  | Inf s, Inf t => s || negb t
  | _, _ => false
  end.

Definition eqb (x y : float) : bool :=
  match x, y with
  | Fin a, Fin b => Qeq_bool a b
  | Inf s, Inf t => Bool.eqb s t
  | _, _ => false
  end.

Definition sum (l : list float) : float := fold_left add l (Fin 0%Q).

(** Equality of values up to the representation of the rational. *)
Definition same (x y : float) : Prop :=
  match x, y with
  | Fin a, Fin b => (a == b)%Q
  | Inf s, Inf t => s = t
  | NaN, NaN => True
  | _, _ => False
  end.

End Fl.

(** [np.isnan] *)
Definition isnan (x : Fl.float) : bool :=
  match x with Fl.NaN => true | _ => false end.

(* ------------------------------------------------------------------ *)
(** ** Arrays *)

Definition index := list Z.

(** The element type of an array: an integer type with its largest value
    ([np.iinfo(dtype).max]), or a floating type. *)
Inductive dtype_kind : Type := IntegerT (max_value : Z) | FloatingT.

(** An image: its element type, its shape, its pixels, and the frame number
    a [pims.Frame] carries ([frame_no]); a plain array has none. *)
Record image : Type := mkImage {
  dtype : dtype_kind;
  shape : list Z;
  pix : index -> Q;
  frame_no : option Z
}.

Definition ndim (img : image) : nat := length (shape img).

Definition range (n : Z) : list Z := map Z.of_nat (seq 0 (Z.to_nat n)).

(** All multi-indices of an array of the given shape, in scan order. *)
Fixpoint indices (shp : list Z) : list index :=
  match shp with
  | [] => [[]]
  | n :: rest => flat_map (fun i => map (cons i) (indices rest)) (range n)
  end.

Definition sumQ (l : list Q) : Q := fold_left Qplus l 0%Q.

Definition Qmaxb (a b : Q) : Q := if Qle_bool a b then b else a.

Definition maxQ (l : list Q) : Q :=
  match l with
  | [] => 0%Q
  | h :: t => fold_left Qmaxb t h
  end.

Definition in_bounds (shp : list Z) (x : index) : bool :=
  (length x =? length shp)%nat &&
  forallb (fun '(xk, nk) => (0 <=? xk) && (xk <? nk)) (combine x shp).

Definition vadd (a b : list Z) : list Z := map (fun '(x, y) => x + y) (combine a b).
Definition vsub (a b : list Z) : list Z := map (fun '(x, y) => x - y) (combine a b).

(* ------------------------------------------------------------------ *)
(** ** Masks *)

Definition mask_shape (radius : list Z) : list Z := map (fun r => 2 * r + 1) radius.

(** Modelled from the spec: [masks.binary_mask] is not among the sources.
    [M(i) = 1] iff the sum over the axes of [((i_k - r_k)/r_k)^2] is at most 1. *)
Definition binary_mask (radius : list Z) (i : index) : Q :=
  let terms := map (fun '(ik, rk) =>
                      let t := (inject_Z (ik - rk) / inject_Z rk)%Q in (t * t)%Q)
                   (combine i radius) in
  if Qle_bool (sumQ terms) 1 then 1%Q else 0%Q.

(** Modelled from the spec: [masks.r_squared_mask] is not among the sources.
    [R2(i)] is the sum over the axes of [(i_k - r_k)^2], restricted to [M]. *)
Definition r_squared_mask (radius : list Z) (i : index) : Q :=
  let r2 := fold_left Z.add (map (fun '(ik, rk) => (ik - rk) * (ik - rk))
                                 (combine i radius)) 0 in
  (binary_mask radius i * inject_Z r2)%Q.

(* ------------------------------------------------------------------ *)
(** ** Exceptions and warnings *)

Inductive exn : Type :=
| TypeError
| ValueError
| NotImplementedError
| IndexError
| OutOfFuel.  (* not a Python exception: a loop of the model ran out of fuel *)

Inductive warning : Type :=
| BlackImage              (* Image is completely black. *)
| NoLocalMaxima           (* Image contains no local maxima. *)
| AllInMargins            (* All local maxima were in the margins. *)
| NoPrefilterSurvivors    (* No maxima survived ... prefiltering. *)
| NoFilterSurvivors       (* No maxima survived ... filtering. *)
| ColorImage              (* the image looks like a color image *)
| NumbaMissing.           (* numba could not be imported *)

Inductive result (A : Type) : Type :=
| Ok (warnings : list warning) (value : A)
| Raise (e : exn).
Arguments Ok {A} warnings value.
Arguments Raise {A} e.

Definition bind {A B} (m : result A) (k : A -> result B) : result B :=
  match m with
  | Ok w a => match k a with
              | Ok w' b => Ok (w ++ w') b
              | Raise e => Raise e
              end
  | Raise e => Raise e
  end.

Definition ret {A} (a : A) : result A := Ok [] a.
Definition warn (w : warning) : result unit := Ok [w] tt.

Notation "x <- m ;; k" := (bind m (fun x => k))
  (at level 61, m at next level, right associativity).
Notation "m ;;; k" := (bind m (fun _ => k))
  (at level 61, right associativity).
Notation "' pat <- m ;; k" := (bind m (fun x => match x with pat => k end))
  (at level 61, pat pattern, m at next level, right associativity).

(* ------------------------------------------------------------------ *)
(** ** Peak detection *)

Fixpoint insert_sorted (x : Q) (l : list Q) : list Q :=
  match l with
  | [] => [x]
  | y :: t => if Qle_bool x y then x :: l else y :: insert_sorted x t
  end.

Definition sortQ (l : list Q) : list Q := fold_right insert_sorted [] l.

(** The value [np.percentile] aims at, with its default linear
    interpolation between the two nearest ranks, in exact arithmetic. *)
Definition linear_percentile (values : list Q) (percentile : Q) : Q :=
  let sorted := sortQ values in
  let n := Z.of_nat (length sorted) in
  let pos := (percentile / 100 * inject_Z (n - 1))%Q in
  let lo := Z.max 0 (Z.min (n - 1) (Qfloor pos)) in
  let hi := Z.min (n - 1) (lo + 1) in
  let frac := (pos - inject_Z lo)%Q in
  let a := nth (Z.to_nat lo) sorted 0%Q in
  let b := nth (Z.to_nat hi) sorted 0%Q in
  (a + frac * (b - a))%Q.

(** [ndimage.grey_dilation(image, footprint=..., mode='constant')]: the
    maximum of the image over the footprint centred at [x], reading 0
    outside the image. *)
Definition grey_dilation (img : image) (radius : list Z) (x : index) : Q :=
  let offsets := filter (fun i => negb (Qeq_bool (binary_mask radius i) 0))
                        (indices (mask_shape radius)) in
  maxQ (map (fun i => let y := vadd x (vsub i radius) in
                      if in_bounds (shape img) y then pix img y else 0%Q)
            offsets).

(** A candidate is near an edge when some axis has [x_k < m_k] or
    [x_k > shape_k - m_k - 1]. *)
Definition near_edge (shp margin : list Z) (x : index) : bool :=
  existsb (fun '(xk, (mk, nk)) => (xk <? mk) || (xk >? nk - mk - 1))
          (combine x (combine margin shp)).

(** The NaN entries of the array handed to the detector ([np.isnan(image)]);
    only a floating array has any. *)
Definition nan_map := index -> bool.

Definition no_nan : nan_map := fun _ => false.

Definition pixel_value (img : image) (nan_at : nan_map) (x : index) : Fl.float :=
  match dtype img with
  | FloatingT => if nan_at x then Fl.NaN else Fl.Fin (pix img x)
  | IntegerT _ => Fl.Fin (pix img x)
  end.

Definition finite_values (values : list Fl.float) : list Q :=
  flat_map (fun v => match v with Fl.Fin q => [q] | _ => [] end) values.

Section PeakDetection.

(** The value [np.percentile] returns for data without NaN and a
    percentile within [0, 100].  NumPy interpolates it in floating point, so
    it may differ from [linear_percentile] in the last place. *)
Variable percentile_value : list Q -> Q -> Q.

(** [np.percentile(values, percentile)]: a percentile outside [0, 100] is
    rejected before the data are looked at; a NaN among the data makes the
    result NaN. *)
Definition np_percentile (values : list Fl.float) (percentile : Q)
    : result Fl.float :=
  if negb (Qle_bool 0 percentile && Qle_bool percentile 100) then Raise ValueError
  else if existsb isnan values then ret Fl.NaN
  else ret (Fl.Fin (percentile_value (finite_values values) percentile)).

(** [np.nonzero] keeps a NaN entry: NaN is not equal to zero. *)
Definition percentile_threshold (img : image) (nan_at : nan_map) (percentile : Q)
    : result Fl.float :=
  let not_black := filter (fun v => negb (Fl.eqb v (Fl.Fin 0)))
                          (map (pixel_value img nan_at) (indices (shape img))) in
  match not_black with
  | [] => ret Fl.NaN
  | _ => np_percentile not_black percentile
  end.

Definition local_maxima (img : image) (nan_at : nan_map) (radius : list Z)
    (percentile : Q) (margin : option (list Z)) : result (list index) :=
  let margin := match margin with None => radius | Some m => m end in
  (* Compute a threshold based on percentile. *)
  threshold <- percentile_threshold img nan_at percentile ;;
  if isnan threshold then warn BlackImage ;;; ret [] else
  (* The intersection of the image with its dilation gives local maxima. *)
  match dtype img with
  | FloatingT => Raise TypeError
  | IntegerT _ =>
    let maxima := filter (fun x => Qeq_bool (pix img x) (grey_dilation img radius x)
                                   && Fl.gtb (Fl.Fin (pix img x)) threshold)
                         (indices (shape img)) in
    match maxima with
    | [] => warn NoLocalMaxima ;;; ret []
    | _ =>
      (* Do not accept peaks near the edges.  The comparison broadcasts
         the margin over the rows; a margin of another length does not
         broadcast. *)
      if negb (length margin =? ndim img)%nat then Raise ValueError else
      let maxima := filter (fun x => negb (near_edge (shape img) margin x)) maxima in
      match maxima with
      | [] => warn AllInMargins ;;; ret []
      | _ => ret maxima
      end
    end
  end.

End PeakDetection.

(* ------------------------------------------------------------------ *)
(** ** Neighbourhoods and the centre of mass *)

(** A neighbourhood is an array of the shape of the mask. *)
Definition nbhd := index -> Q.

Definition arr_sum (shp : list Z) (a : index -> Q) : Q :=
  sumQ (map a (indices shp)).

Definition arr_max (shp : list Z) (a : index -> Q) : Q :=
  maxQ (map a (indices shp)).

Definition Qltb (a b : Q) : bool := negb (Qle_bool b a).
Definition Qminb (a b : Q) : Q := if Qle_bool a b then a else b.

(** [astype(int)]: truncation toward zero. *)
Definition Qtrunc (q : Q) : Z := if (Qnum q <? 0) then Qceiling q else Qfloor q.

Definition qadd (a b : list Q) : list Q := map (fun '(x, y) => (x + y)%Q) (combine a b).
Definition qsub (a b : list Q) : list Q := map (fun '(x, y) => (x - y)%Q) (combine a b).
Definition qopp (a : list Q) : list Q := map Qopp a.
Definition injZ (a : list Z) : list Q := map inject_Z a.

(** The slices [c - rad : c + rad + 1] select a full window only when the
    window lies inside the array; the product with the mask is defined
    for a full window, and is a shape error otherwise. *)
Definition window_ok (shp radius c : list Z) : bool :=
  (length c =? length shp)%nat && (length radius =? length shp)%nat &&
  forallb (fun '(ck, (rk, nk)) => (rk <=? ck) && (ck + rk <? nk))
          (combine c (combine radius shp)).

(** [mask * image[rect]] for the window anchored at [c]. *)
Definition masked_window (img : image) (radius c : list Z) : result nbhd :=
  if window_ok (shape img) radius c
  then ret (fun i => (binary_mask radius i * pix img (vadd (vsub c radius) i))%Q)
  else Raise ValueError.

Definition _safe_center_of_mass (x : nbhd) (radius : list Z) : list Q :=
  let shp := mask_shape radius in
  let normalizer := arr_sum shp x in
  if Qeq_bool normalizer 0 (* avoid divide-by-zero errors *)
  then injZ radius
  else map (fun dim => (arr_sum shp (fun i => x i * inject_Z (nth dim i 0%Z)) / normalizer)%Q)
           (seq 0 (length radius)).

Definition SHIFT_THRESH : Q := 6 # 10.
Definition GOOD_ENOUGH_THRESH : Q := 5 # 1000.
Definition NUMBA_GOOD_ENOUGH_THRESH : Q := 1 # 100.
Definition ECC_EPS : Q := 1 # 1000000.

(* ------------------------------------------------------------------ *)
(** ** The refiner *)

Section Refine.

(** Numerical routines of the libraries the module calls:
    [ndimage.shift(a, s, order=2, mode='constant', cval=0)] on an array of
    the given shape, [np.sqrt] on a non-negative number, and the angular
    masks [masks.cosmask] and [masks.sinmask] of a radius. *)
Variable ndimage_shift : list Z -> nbhd -> list Q -> nbhd.
Variable sqrtQ : Q -> Q.
Variable cosmask sinmask : Z -> index -> Q.

(** Whether numba could be imported. *)
Variable NUMBA_AVAILABLE : bool.

Definition fsqrt (x : Fl.float) : Fl.float :=
  match x with
  | Fl.Fin q => if Fl.Qsign_neg q then Fl.NaN else Fl.Fin (sqrtQ q)
  | Fl.Inf false => Fl.Inf false
  | _ => Fl.NaN
  end.

(** *** The pure Python engine *)

(** The loop state of one candidate.  [rect] is the integer anchor of the
    window last sliced from the image; [coord] is the running position,
    which leaves the grid after an interpolation. *)
Record rstate : Type := mkState {
  coord : list Q;
  rect : list Z;
  neighborhood : nbhd;
  cm_n : list Q;
  cm_i : list Q;
  allow_moves : bool
}.

Inductive action : Type := Converged | Walk | Interpolate.

Definition off_center (radius : list Z) (st : rstate) : list Q :=
  qsub (cm_n st) (injZ radius).

Definition decide_action (off : list Q) (allow : bool) : action :=
  if forallb (fun d => Qltb (Qabs d) GOOD_ENOUGH_THRESH) off then Converged
  else if existsb (fun d => Qltb SHIFT_THRESH (Qabs d)) off && allow then Walk
  else Interpolate.

Definition np_clip (a lo hi : Q) : Q := Qminb (Qmaxb a lo) hi.

(** The whole-pixel move. *)
Definition walk (image_ : image) (radius : list Z) (st : rstate) : result rstate :=
  let off := off_center radius st in
  let moved := map (fun '(c, d) =>
                      let c1 := if Qltb SHIFT_THRESH d then (c + 1)%Q else c in
                      if Qltb d (- SHIFT_THRESH) then (c1 - 1)%Q else c1)
                   (combine (coord st) off) in
  (* Don't move outside the image! *)
  let upper_bound := map (fun '(n, r) => n - 1 - r) (combine (shape image_) radius) in
  let new_coord := map (fun '(c, (lo, hi)) => Qtrunc (np_clip c (inject_Z lo) (inject_Z hi)))
                       (combine moved (combine radius upper_bound)) in
  (* Update slice to shifted position. *)
  nb <- masked_window image_ radius new_coord ;;
  let cm := _safe_center_of_mass nb radius in
  ret {| coord := injZ new_coord; rect := new_coord; neighborhood := nb;
         cm_n := cm; cm_i := qadd (qsub cm (injZ radius)) (injZ new_coord);
         allow_moves := allow_moves st |}.

(** The sub-pixel step. *)
Definition interpolate (radius : list Z) (st : rstate) : rstate :=
  let off := off_center radius st in
  let nb := ndimage_shift (mask_shape radius) (neighborhood st) (qopp off) in
  let new_coord := qadd (coord st) off in
  let cm := _safe_center_of_mass nb radius in
  {| coord := new_coord; rect := rect st; neighborhood := nb;
     cm_n := cm; cm_i := qadd (qsub cm (injZ radius)) new_coord;
     (* Disallow any whole-pixels moves on future iterations. *)
     allow_moves := false |}.

Definition step (image_ : image) (radius : list Z) (st : rstate)
  : action * result rstate :=
  match decide_action (off_center radius st) (allow_moves st) with
  | Converged => (Converged, ret st)
  | Walk => (Walk, walk image_ radius st)
  | Interpolate => (Interpolate, ret (interpolate radius st))
  end.

(** [for iteration in range(max_iterations)] *)
Fixpoint iterate (image_ : image) (radius : list Z) (n : nat) (st : rstate)
  : result rstate :=
  match n with
  | O => ret st
  | S k =>
    match step image_ radius st with
    | (Converged, _) => ret st
    | (_, Ok _ st') => iterate image_ radius k st'
    | (_, Raise e) => Raise e
    end
  end.

(** The actions the loop takes, each with the state it leads to. *)
Fixpoint trace (image_ : image) (radius : list Z) (n : nat) (st : rstate)
  : list (action * rstate) :=
  match n with
  | O => []
  | S k =>
    match step image_ radius st with
    | (Converged, _) => []
    | (a, Ok _ st') => (a, st') :: trace image_ radius k st'
    | (_, Raise _) => []
    end
  end.

Definition init_state (image_ : image) (radius : list Z) (c : list Z)
  : result rstate :=
  nb <- masked_window image_ radius c ;;
  let cm := _safe_center_of_mass nb radius in
  ret {| coord := injZ c; rect := c; neighborhood := nb;
         cm_n := cm; cm_i := qadd (qsub cm (injZ radius)) (injZ c);
         allow_moves := true |}.

Definition is_isotropic_2d (radius : list Z) : bool :=
  match radius with
  | [r0; r1] => r0 =? r1
  | _ => false
  end.

(** Characterize the neighborhood of the final centroid: one row of the
    result, [pos (reversed), mass] and, when characterizing,
    [size, ecc, signal]. *)
Definition characterize_row (raw_image : image) (radius : list Z)
    (characterize : bool) (st : rstate) : result (list Fl.float) :=
  let shp := mask_shape radius in
  let final_coords := map Fl.Fin (rev (cm_i st)) in
  let mass := arr_sum shp (neighborhood st) in
  if negb characterize then ret (final_coords ++ [Fl.Fin mass]) else
  let Rg := fsqrt (Fl.div (Fl.Fin (arr_sum shp (fun i =>
               (r_squared_mask radius i * neighborhood st i)%Q))) (Fl.Fin mass)) in
  let ecc :=
    if is_isotropic_2d radius then
      let rad := nth 0 radius 0 in
      let c := arr_sum shp (fun i => (neighborhood st i * cosmask rad i)%Q) in
      let s := arr_sum shp (fun i => (neighborhood st i * sinmask rad i)%Q) in
      Fl.div (Fl.Fin (sqrtQ (c * c + s * s)))
             (Fl.Fin (mass - neighborhood st [rad; rad] + ECC_EPS)%Q)
    else Fl.NaN in
  raw_neighborhood <- masked_window raw_image radius (rect st) ;;
  let signal := arr_max shp raw_neighborhood in
  ret (final_coords ++ [Fl.Fin mass; Rg; ecc; Fl.Fin signal]).

Definition refine_one (raw_image image_ : image) (radius : list Z)
    (max_iterations : nat) (characterize : bool) (c : list Z)
  : result (list Fl.float) :=
  st0 <- init_state image_ radius c ;;
  st <- iterate image_ radius max_iterations st0 ;;
  characterize_row raw_image radius characterize st.

Fixpoint mapM {A B} (f : A -> result B) (l : list A) : result (list B) :=
  match l with
  | [] => ret []
  | a :: t => b <- f a ;; bs <- mapM f t ;; ret (b :: bs)
  end.

Definition _refine (raw_image image_ : image) (radius : list Z)
    (coords : list (list Z)) (max_iterations : nat) (characterize : bool)
  : result (list (list Fl.float)) :=
  mapM (refine_one raw_image image_ radius max_iterations characterize) coords.

(** *** The numba engine

    The loop is written for two axes and one radius.  Candidates are the
    integer grid points the detector produces, on which [int(round(.))] is
    the identity.  Arithmetic is that of the compiled loop (64-bit integers
    and doubles, without wrap-around); [0/0] evaluates to [nan] as under
    NumPy's scalar arithmetic, which is what the loop does when it runs
    uncompiled.  A compiled loop raises [ZeroDivisionError] on a zero
    divisor instead; the two agree wherever the divisors are nonzero. *)

(** [np.array(image.shape, dtype=np.int16)] *)
Definition int16 (z : Z) : Z := (z + 32768) mod 65536 - 32768.

(** [a[x]] with NumPy's indexing: a negative index counts from the end. *)
Definition getitem (img : image) (x : index) : result Q :=
  let y := map (fun '(xk, nk) => if xk <? 0 then xk + nk else xk)
               (combine x (shape img)) in
  if in_bounds (shape img) y then ret (pix img y) else Raise IndexError.

Definition masked_offsets (radius : Z) : list index :=
  filter (fun ij => negb (Qeq_bool (binary_mask [radius; radius] ij) 0))
         (indices [2 * radius + 1; 2 * radius + 1]).

(** The accumulation loop over the masked pixels of the square at
    [(square0, square1)]: the two first moments and the mass. *)
Definition moments (image_ : image) (radius square0 square1 : Z)
  : result (Q * Q * Q) :=
  fold_left (fun acc ij =>
               '(c0, c1, m) <- acc ;;
               let i := nth 0 ij 0 in
               let j := nth 1 ij 0 in
               px <- getitem image_ [square0 + i; square1 + j] ;;
               ret ((c0 + px * inject_Z i)%Q, (c1 + px * inject_Z j)%Q, (m + px)%Q))
            (masked_offsets radius) (ret (0%Q, 0%Q, 0%Q)).

Record nstate : Type := mkNState {
  ncoord : Z * Z;
  square : Z * Z;
  ncm_n : Fl.float * Fl.float;
  ncm_i : Fl.float * Fl.float
}.

(** Recompute the centre of mass of the square anchored at [c]. *)
Definition numba_center (image_ : image) (radius : Z) (c : Z * Z) : result nstate :=
  let square0 := fst c - radius in
  let square1 := snd c - radius in
  '(s0, s1, mass_) <- moments image_ radius square0 square1 ;;
  let cm0 := Fl.div (Fl.Fin s0) (Fl.Fin mass_) in
  let cm1 := Fl.div (Fl.Fin s1) (Fl.Fin mass_) in
  ret {| ncoord := c; square := (square0, square1);
         ncm_n := (cm0, cm1);
         ncm_i := (Fl.add (Fl.sub cm0 (Fl.of_Z radius)) (Fl.of_Z (fst c)),
                   Fl.add (Fl.sub cm1 (Fl.of_Z radius)) (Fl.of_Z (snd c))) |}.

Definition numba_move_axis (radius extent c : Z) (oc : Fl.float) : Z :=
  let n := if Fl.gtb oc (Fl.Fin SHIFT_THRESH) then c + 1
           else if Fl.ltb oc (Fl.Fin (- SHIFT_THRESH)) then c - 1 else c in
  (* Don't move outside the image! *)
  let n := if n <? radius then radius else n in
  let upper_bound := int16 extent - radius - 1 in
  if n >? upper_bound then upper_bound else n.

(** The loop has no interpolation branch: an iteration that does not move
    leaves the loop. *)
Fixpoint numba_iterate (image_ : image) (radius : Z) (n : nat) (st : nstate)
  : result nstate :=
  match n with
  | O => ret st
  | S k =>
    let off0 := Fl.sub (fst (ncm_n st)) (Fl.of_Z radius) in
    let off1 := Fl.sub (snd (ncm_n st)) (Fl.of_Z radius) in
    if negb (Fl.gtb (Fl.abs off0) (Fl.Fin NUMBA_GOOD_ENOUGH_THRESH)
             || Fl.gtb (Fl.abs off1) (Fl.Fin NUMBA_GOOD_ENOUGH_THRESH))
    then ret st
    else
      (* allow_moves is never cleared in this engine *)
      let do_move := Fl.gtb (Fl.abs off0) (Fl.Fin SHIFT_THRESH)
                     || Fl.gtb (Fl.abs off1) (Fl.Fin SHIFT_THRESH) in
      if do_move then
        let new_coord :=
          (numba_move_axis radius (nth 0 (shape image_) 0) (fst (ncoord st)) off0,
           numba_move_axis radius (nth 1 (shape image_) 0) (snd (ncoord st)) off1) in
        st' <- numba_center image_ radius new_coord ;;
        numba_iterate image_ radius k st'
      else ret st
  end.

(** The characterization loop.  [signal_] is updated as the source does:
    compared with the raw pixel, assigned the processed pixel. *)
Definition numba_characterize (raw_image image_ : image) (radius : Z)
    (characterize : bool) (sq : Z * Z) : result (list Fl.float) :=
  '(mass_, Rg_, ecc1, ecc2, signal_) <-
    fold_left (fun acc ij =>
                 '(mass_, Rg_, ecc1, ecc2, signal_) <- acc ;;
                 let i := nth 0 ij 0 in
                 let j := nth 1 ij 0 in
                 px <- getitem image_ [fst sq + i; snd sq + j] ;;
                 let mass_ := (mass_ + px)%Q in
                 if negb characterize then ret (mass_, Rg_, ecc1, ecc2, signal_) else
                 let Rg_ := (Rg_ + r_squared_mask [radius; radius] ij * px)%Q in
                 let ecc1 := (ecc1 + cosmask radius ij * px)%Q in
                 let ecc2 := (ecc2 + sinmask radius ij * px)%Q in
                 raw_px <- getitem raw_image [fst sq + i; snd sq + j] ;;
                 ret (mass_, Rg_, ecc1, ecc2,
                      if Qltb signal_ raw_px then px else signal_))
              (masked_offsets radius) (ret (0%Q, 0%Q, 0%Q, 0%Q, 0%Q)) ;;
  if negb characterize then ret [Fl.Fin mass_] else
  center_px <- getitem image_ [fst sq + radius; snd sq + radius] ;;
  ret [Fl.Fin mass_;
       fsqrt (Fl.div (Fl.Fin Rg_) (Fl.Fin mass_));
       Fl.div (Fl.Fin (sqrtQ (ecc1 * ecc1 + ecc2 * ecc2)))
              (Fl.Fin (mass_ - center_px + ECC_EPS)%Q);
       Fl.Fin signal_].

Definition numba_refine_one (raw_image image_ : image) (radius : Z)
    (max_iterations : nat) (characterize : bool) (c : Z * Z)
  : result (list Fl.float) :=
  st0 <- numba_center image_ radius c ;;
  st <- numba_iterate image_ radius max_iterations st0 ;;
  (* matplotlib and ndimage have opposite conventions for xy <-> yx. *)
  chars <- numba_characterize raw_image image_ radius characterize (square st) ;;
  ret ([snd (ncm_i st); fst (ncm_i st)] ++ chars).

Definition _numba_refine (raw_image image_ : image) (radius : Z)
    (coords : list (Z * Z)) (max_iterations : nat) (characterize : bool)
  : result (list (list Fl.float)) :=
  mapM (numba_refine_one raw_image image_ radius max_iterations characterize) coords.

End Refine.

(* ------------------------------------------------------------------ *)
(** ** Duplicate suppression *)

Definition row := list Fl.float.

(** The order NumPy sorts by: [nan] comes last. *)
Definition sort_before (a b : Fl.float) : bool :=
  Fl.ltb a b || (negb (isnan a) && isnan b).

(** [np.argsort([a, b])[0]] *)
Definition argsort2_first (a b : Fl.float) : nat :=
  if sort_before b a then 1%nat else 0%nat.

(** [np.argmin([a, b])]: the first smallest, a [nan] counting as smallest. *)
Definition argmin2 (a b : Fl.float) : nat :=
  if isnan a then 0%nat
  else if isnan b then 1%nat
  else if Fl.ltb b a then 1%nat else 0%nat.

(** [results[:, :mass_index] / list(reversed(separation))] *)
Definition scaled_positions (mass_index : nat) (rsep : list Z) (results : list row)
  : list (list Fl.float) :=
  map (fun r => map (fun '(x, s) => Fl.div x (Fl.of_Z s))
                    (combine (firstn mass_index r) rsep))
      results.

Definition mass_column (mass_index : nat) (results : list row) : list Fl.float :=
  map (fun r => nth mass_index r Fl.NaN) results.

Definition dist2 (p q : list Fl.float) : Fl.float :=
  Fl.sum (map (fun '(a, b) => let d := Fl.sub a b in Fl.mul d d) (combine p q)).

Definition all_pairs (n : nat) : list (nat * nat) :=
  flat_map (fun i => map (pair i) (seq (S i) (n - S i))) (seq 0 n).

(** [cKDTree(positions).query_pairs(1)]: the pairs [(i, j)], [i < j], of
    points at distance at most 1.  The library returns them as a set; the
    list below is one enumeration of it. *)
Definition query_pairs (positions : list (list Fl.float)) : list (nat * nat) :=
  filter (fun '(i, j) => Fl.leb (dist2 (nth i positions []) (nth j positions []))
                                (Fl.Fin 1))
         (all_pairs (length positions)).

Definition pair_take (pr : nat * nat) (k : nat) : nat :=
  match k with O => fst pr | _ => snd pr end.

(** The member of a pair that is dropped. *)
Definition dimmer_of (positions : list (list Fl.float)) (mass : list Fl.float)
    (pr : nat * nat) : nat :=
  let mi := nth (fst pr) mass Fl.NaN in
  let mj := nth (snd pr) mass Fl.NaN in
  let dimmer :=
    if Fl.eqb mi mj then
      (* Rare corner case: a tie!  Break ties by sorting by sum of coordinates. *)
      argsort2_first (Fl.sum (nth (fst pr) positions []))
                     (Fl.sum (nth (snd pr) positions []))
    else argmin2 mi mj in
  pair_take pr dimmer.

Definition to_drop (positions : list (list Fl.float)) (mass : list Fl.float)
    (duplicates : list (nat * nat)) : list nat :=
  map (dimmer_of positions mass) duplicates.

(** [np.delete(results, to_drop, 0)] *)
Definition np_delete {A} (rows : list A) (idx : list nat) : list A :=
  map snd (filter (fun '(i, _) => negb (existsb (Nat.eqb i) idx))
                  (combine (seq 0 (length rows)) rows)).

(** One pass of the [while True] loop over the pairs in the given order. *)
Definition dedup_pass (mass_index : nat) (rsep : list Z) (results : list row)
    (duplicates : list (nat * nat)) : list row :=
  np_delete results
    (to_drop (scaled_positions mass_index rsep results)
             (mass_column mass_index results) duplicates).

Fixpoint dedup_loop (fuel : nat) (mass_index : nat) (rsep : list Z)
    (results : list row) : option (list row) :=
  match fuel with
  | O => None
  | S k =>
    let duplicates := query_pairs (scaled_positions mass_index rsep results) in
    match duplicates with
    | [] => Some results
    | _ => dedup_loop k mass_index rsep (dedup_pass mass_index rsep results duplicates)
    end
  end.

(* ------------------------------------------------------------------ *)
(** ** [refine] *)

Inductive engine_name : Type := Auto | Python | Numba | OtherEngine.

(** An argument that is a number or a tuple of numbers. *)
Inductive tuple_arg : Type := Scalar (z : Z) | Tuple (l : list Z).

(** Modelled from the spec: [utils.validate_tuple] is not among the sources.
    Sizes are per-axis vectors; a single number stands for that number on
    every axis, and a tuple has one entry per axis. *)
Definition validate_tuple (v : tuple_arg) (n : nat) : result (list Z) :=
  match v with
  | Scalar z => ret (repeat z n)
  | Tuple l => if (length l =? n)%nat then ret l else Raise ValueError
  end.

(** [np.all(np.greater(separation, 0))] *)
Definition all_greater_0 (separation : tuple_arg) : bool :=
  match separation with
  | Scalar z => 0 <? z
  | Tuple l => forallb (fun s => 0 <? s) l
  end.

(** [list(reversed(separation))], broadcast against the position columns. *)
Definition reversed_separation (separation : tuple_arg) (n : nat) : result (list Z) :=
  match separation with
  | Scalar _ => Raise TypeError
  | Tuple [s] => ret (repeat s n)
  | Tuple l => if (length l =? n)%nat then ret (rev l) else Raise ValueError
  end.

Section Pipeline.

Variable ndimage_shift : list Z -> nbhd -> list Q -> nbhd.
Variable sqrtQ : Q -> Q.
Variable cosmask sinmask : Z -> index -> Q.
Variable NUMBA_AVAILABLE : bool.

Definition run_engine (raw_image image_ : image) (radius : list Z)
    (coords : list (list Z)) (max_iterations : nat) (engine : engine_name)
    (characterize walkthrough : bool) : result (list row) :=
  let engine := match engine with
                | Auto => if NUMBA_AVAILABLE then Numba else Python
                | e => e
                end in
  match engine with
  | Python =>
      _refine ndimage_shift sqrtQ cosmask sinmask
              raw_image image_ radius coords max_iterations characterize
  | Numba =>
      (if NUMBA_AVAILABLE then ret tt else warn NumbaMissing) ;;;
      if negb (ndim image_ =? 2)%nat then Raise NotImplementedError else
      if negb (nth 0 radius 0 =? nth 1 radius 0) then Raise NotImplementedError else
      if walkthrough then Raise ValueError else
      coords <- mapM (fun c => match c with
                               | c0 :: c1 :: _ => ret (c0, c1)
                               | _ => Raise IndexError
                               end) coords ;;
      _numba_refine sqrtQ cosmask sinmask
                    raw_image image_ (nth 0 radius 0) coords max_iterations characterize
  | _ => Raise ValueError
  end.

Definition refine (raw_image image_ : image) (radius : tuple_arg)
    (coords : list (list Z)) (separation : tuple_arg) (max_iterations : nat)
    (engine : engine_name) (characterize walkthrough : bool)
  : result (list row) :=
  radius <- validate_tuple radius (ndim image_) ;;
  results <- run_engine raw_image image_ radius coords max_iterations engine
                        characterize walkthrough ;;
  (* Flat peaks return multiple nearby maxima. Eliminate duplicates. *)
  if all_greater_0 separation then
    let mass_index := ndim image_ in
    rsep <- reversed_separation separation mass_index ;;
    match dedup_loop (S (length results)) mass_index rsep results with
    | Some results => ret results
    | None => Raise OutOfFuel
    end
  else ret results.

End Pipeline.

(* ------------------------------------------------------------------ *)
(** ** Top-N selection *)

(** [np.argmax]: the first largest entry, a [nan] counting as largest. *)
Fixpoint argmax_from (best_i : nat) (best : Fl.float) (i : nat) (l : list Fl.float)
  : nat :=
  match l with
  | [] => best_i
  | x :: t =>
    if isnan best then best_i
    else if isnan x || Fl.ltb best x then argmax_from i x (S i) t
    else argmax_from best_i best (S i) t
  end.

Definition np_argmax (l : list Fl.float) : nat :=
  match l with
  | [] => 0%nat
  | x :: t => argmax_from 0 x 1 t
  end.

Fixpoint insert_idx (key : nat -> Fl.float) (i : nat) (l : list nat) : list nat :=
  match l with
  | [] => [i]
  | j :: t => if sort_before (key j) (key i) then j :: insert_idx key i t
              else i :: l
  end.

(** [np.argsort] as the insertion sort NumPy applies to short arrays: the
    indices in ascending order of their entry, equal entries in input order. *)
Definition np_argsort (l : list Fl.float) : list nat :=
  fold_right (insert_idx (fun i => nth i l Fl.NaN)) [] (seq 0 (length l)).

(** The Python slice [l[-topn:]]. *)
Definition slice_last {A} (topn : Z) (l : list A) : list A :=
  let n := Z.of_nat (length l) in
  let start := if topn =? 0 then 0
               else if 0 <? topn then Z.max (n - topn) 0
               else Z.min (- topn) n in
  skipn (Z.to_nat start) l.

Definition take_rows (rows : list row) (idx : list nat) : list row :=
  map (fun i => nth i rows []) idx.

(** The [topn] block of [locate], over the sorting routine it calls. *)
Definition select_topn (argsort : list Fl.float -> list nat) (topn : option Z)
    (refined_coords : list row) (exact_mass : list Fl.float) : list row :=
  match topn with
  | None => refined_coords
  | Some topn =>
    if Z.of_nat (length refined_coords) >? topn then
      if topn =? 1 then
        (* special case for high performance and correct shape *)
        take_rows refined_coords [np_argmax exact_mass]
      else slice_last topn (take_rows refined_coords (argsort exact_mass))
    else refined_coords
  end.

(* ------------------------------------------------------------------ *)
(** ** [locate] *)

(** A [DataFrame]: its column labels and its rows. *)
Record table : Type := mkTable {
  columns : list string;
  rows : list row
}.

Module Args.
(** The keyword arguments of [locate]. *)
Record t : Type := mk {
  diameter : tuple_arg;
  minmass : Q;
  maxsize : option Q;
  separation : option tuple_arg;
  noise_size : tuple_arg;
  smoothing_size : option tuple_arg;
  threshold : option Q;
  invert : bool;
  percentile : Q;
  topn : option Z;
  preprocess : bool;
  max_iterations : nat;
  filter_before : bool;
  filter_after : bool;
  characterize : bool;
  engine : engine_name
}.

Definition defaults (diameter : tuple_arg) : t :=
  {| diameter := diameter; minmass := 100; maxsize := None; separation := None;
     noise_size := Scalar 1; smoothing_size := None; threshold := None;
     invert := false; percentile := 64; topn := None; preprocess := true;
     max_iterations := 10; filter_before := true; filter_after := true;
     characterize := true; engine := Auto |}.
End Args.

(** [np.squeeze]: axes of extent 1 are removed. *)
Fixpoint unsqueeze (shp : list Z) (x : index) : index :=
  match shp with
  | [] => []
  | n :: rest =>
    if n =? 1 then 0 :: unsqueeze rest x
    else match x with
         | [] => []
         | i :: t => i :: unsqueeze rest t
         end
  end.

Definition np_squeeze (img : image) : image :=
  {| dtype := dtype img;
     shape := filter (fun n => negb (n =? 1)) (shape img);
     pix := fun x => pix img (unsqueeze (shape img) x);
     frame_no := frame_no img |}.

Definition invert_image (img : image) : image :=
  match dtype img with
  | IntegerT max_value =>
      {| dtype := dtype img; shape := shape img;
         pix := fun x => inject_Z (Z.lxor (Qfloor (pix img x)) max_value);
         frame_no := frame_no img |}
  | FloatingT =>
      {| dtype := dtype img; shape := shape img;
         pix := fun x => (1 - pix img x)%Q;
         frame_no := frame_no img |}
  end.

Definition coord_columns (n : nat) : list string :=
  if (n <? 4)%nat then firstn n ["x"%string; "y"%string; "z"%string]
  else map (fun i => String.append "x"%string (NilEmpty.string_of_uint (Nat.to_uint i)))
           (seq 0 n).

Definition char_columns (characterize : bool) : list string :=
  ["mass"%string]
  ++ (if characterize then ["size"%string; "ecc"%string; "signal"%string] else []).

(** The 'ep' column is joined on at the end. *)
Definition all_columns (n : nat) (characterize : bool) : list string :=
  (coord_columns n ++ char_columns characterize)
  ++ (if characterize then ["ep"%string] else []).

Definition estimate_mass (image_ : image) (radius : list Z) (c : list Z) : result Q :=
  neighborhood <- masked_window image_ radius c ;;
  ret (arr_sum (mask_shape radius) neighborhood).

Definition boolean_mask {A} (l : list A) (condition : list bool) : list A :=
  map fst (filter snd (combine l condition)).

Definition column (k : nat) (a : list row) : list Fl.float :=
  map (fun r => nth k r Fl.NaN) a.

Fixpoint update_nth {A} (k : nat) (f : A -> A) (l : list A) : list A :=
  match l, k with
  | [], _ => []
  | x :: t, O => f x :: t
  | x :: t, S k' => x :: update_nth k' f t
  end.

Section Locate.

Variable ndimage_shift : list Z -> nbhd -> list Q -> nbhd.
Variable sqrtQ : Q -> Q.
Variable cosmask sinmask : Z -> index -> Q.
Variable NUMBA_AVAILABLE : bool.

(** Collaborators from the other modules of the package:
    [preprocessing.bandpass], [preprocessing.scale_to_gamut],
    [uncertainty.measure_noise] (black level and noise) and
    [uncertainty.static_error] (the [ep] column of a table). *)
Variable bandpass : image -> list Z -> list Z -> option Q -> result image.
Variable scale_to_gamut : image -> dtype_kind -> image.
Variable measure_noise : image -> list Z -> option Q -> Q * Q.
Variable static_error : table -> Q -> Z -> Z -> list Fl.float.

(** [np.percentile]'s interpolated value, as in the peak detector. *)
Variable percentile_value : list Q -> Q -> Q.

Definition estimate_size (image_ : image) (radius : list Z) (c : list Z)
    (estimated_mass : Q) : result Fl.float :=
  neighborhood <- masked_window image_ radius c ;;
  ret (fsqrt sqrtQ
         (Fl.div (Fl.Fin (arr_sum (mask_shape radius)
                            (fun i => (r_squared_mask radius i * neighborhood i)%Q)))
                 (Fl.Fin estimated_mass))).

(** Proactively filter based on estimated mass/size. *)
Definition prefilter (image_ : image) (radius : list Z) (minmass : Q)
    (maxsize : option Q) (coords : list (list Z)) : result (list (list Z)) :=
  approx_mass <- mapM (estimate_mass image_ radius) coords ;;
  let condition := map (fun m => Qltb minmass m) approx_mass in
  condition <-
    match maxsize with
    | None => ret condition
    | Some maxsize =>
      approx_size <- mapM (fun '(c, m) => estimate_size image_ radius c m)
                          (combine coords approx_mass) ;;
      ret (map (fun '(b, s) => b && Fl.ltb s (Fl.Fin maxsize))
               (combine condition approx_size))
    end ;;
  ret (boolean_mask coords condition).

(** Filter again, using final ("exact") mass -- and size, if set. *)
Definition postfilter (n : nat) (minmass : Q) (maxsize : option Q)
    (refined_coords : list row) : result (list row * list Fl.float) :=
  let exact_mass := column n refined_coords in
  let condition := map (fun m => Fl.gtb m (Fl.Fin minmass)) exact_mass in
  condition <-
    match maxsize with
    | None => ret condition
    | Some maxsize =>
      (* the array has a size column only when characterizing *)
      if (length (hd [] refined_coords) <=? n + 1)%nat then Raise IndexError else
      ret (map (fun '(b, s) => b && Fl.ltb s (Fl.Fin maxsize))
               (combine condition (column (n + 1) refined_coords)))
    end ;;
  ret (boolean_mask refined_coords condition, boolean_mask exact_mass condition).

(** The table of the features that were found. *)
Definition assemble (raw_image : image) (diameter noise_size : list Z)
    (threshold : option Q) (characterize : bool) (n : nat)
    (refined_coords : list row) : table :=
  let f := mkTable (coord_columns n ++ char_columns characterize) refined_coords in
  let f :=
    if characterize then
      let '(black_level, noise) := measure_noise raw_image diameter threshold in
      let f := mkTable (columns f)
                       (map (update_nth (n + 3)
                               (fun s => Fl.sub s (Fl.Fin black_level)))
                            (rows f)) in
      let ep := static_error f noise (nth 0 diameter 0) (nth 0 noise_size 0) in
      mkTable (columns f ++ ["ep"%string])
              (map (fun '(r, k) => r ++ [nth k ep Fl.NaN])
                   (combine (rows f) (seq 0 (length (rows f)))))
    else f in
  (* If this is a pims Frame object, it has a frame number. *)
  match frame_no raw_image with
  | Some k => mkTable (columns f ++ ["frame"%string])
                      (map (fun r => r ++ [Fl.of_Z k]) (rows f))
  | None => f
  end.

Definition locate (raw_image : image) (a : Args.t) : result table :=
  (* Validate parameters and set defaults. *)
  let raw_image := np_squeeze raw_image in
  let shp := shape raw_image in
  let n := length shp in
  diameter <- validate_tuple (Args.diameter a) n ;;
  if negb (forallb (fun x => negb (Z.land x 1 =? 0)) diameter)
  then Raise ValueError else
  let radius := map (fun x => x / 2) diameter in
  separation <- match Args.separation a with
                | None => ret (map (fun x => x + 1) diameter)
                | Some s => validate_tuple s n
                end ;;
  smoothing_size <- match Args.smoothing_size a with
                    | None => ret diameter
                    | Some s => validate_tuple s n
                    end ;;
  noise_size <- validate_tuple (Args.noise_size a) n ;;
  (* Don't do characterization for rectangular pixels/voxels *)
  let characterize :=
    if list_eq_dec Z.eq_dec (tl diameter) (removelast diameter)
    then Args.characterize a else false in
  (* Check whether the image looks suspiciously like a color image. *)
  (if existsb (Z.eqb 3) shp || existsb (Z.eqb 4) shp
   then warn ColorImage else ret tt) ;;;
  '(raw_image, image_) <-
    (if Args.preprocess a then
       let raw_image := if Args.invert a then invert_image raw_image else raw_image in
       image_ <- bandpass raw_image noise_size smoothing_size (Args.threshold a) ;;
       ret (raw_image, image_)
     else ret (raw_image, raw_image)) ;;
  (* Coerce the image into integer type. Rescale to fill dynamic range. *)
  let dt := match dtype raw_image with
            | IntegerT m => IntegerT m
            | FloatingT => IntegerT 255
            end in
  let image_ := scale_to_gamut image_ dt in
  (* Set up a DataFrame for the final results. *)
  let all_columns := all_columns (ndim image_) characterize in
  (* Find local maxima. *)
  let margin := map (fun '(rad, (sep, sm)) => Z.max rad (Z.max (sep / 2 - 1) (sm / 2)))
                    (combine radius (combine separation smoothing_size)) in
  (* the rescaled image is of an integer type: it has no NaN entry *)
  coords <- local_maxima percentile_value image_ no_nan radius (Args.percentile a)
                         (Some margin) ;;
  match coords with
  | [] => ret (mkTable all_columns [])
  | _ =>
    coords <- (if Args.filter_before a
               then prefilter image_ radius (Args.minmass a) (Args.maxsize a) coords
               else ret coords) ;;
    match coords with
    | [] => warn NoPrefilterSurvivors ;;; ret (mkTable all_columns [])
    | _ =>
      (* Refine their locations and characterize mass, size, etc. *)
      refined_coords <-
        refine ndimage_shift sqrtQ cosmask sinmask NUMBA_AVAILABLE
               raw_image image_ (Tuple radius) coords (Tuple separation)
               (Args.max_iterations a) (Args.engine a) characterize false ;;
      '(refined_coords, exact_mass) <-
        (if Args.filter_after a
         then postfilter (ndim image_) (Args.minmass a) (Args.maxsize a) refined_coords
         else ret (refined_coords, column (ndim image_) refined_coords)) ;;
      match refined_coords with
      | [] => warn NoFilterSurvivors ;;; ret (mkTable all_columns [])
      | _ =>
        let refined_coords :=
          select_topn np_argsort (Args.topn a) refined_coords exact_mass in
        ret (assemble raw_image diameter noise_size (Args.threshold a)
                      characterize (ndim image_) refined_coords)
      end
    end
  end.

End Locate.

(* ------------------------------------------------------------------ *)
(** ** Predicates of the specification and sample inputs *)

(** A coordinate respects the margin: [m_k <= x_k <= shape_k - m_k - 1] on
    every axis [k]. *)
Definition within_margin (shp margin : list Z) (x : index) : Prop :=
  length x = length shp /\
  forall k, (k < length shp)%nat ->
            nth k margin 0 <= nth k x 0 <= nth k shp 0 - nth k margin 0 - 1.

Definition has_nonzero_pixel (img : image) : Prop :=
  exists x, In x (indices (shape img)) /\ Qeq_bool (pix img x) 0 = false.

(** Some entry of the array is NaN. *)
Definition has_nan_pixel (img : image) (nan_at : nan_map) : Prop :=
  exists x, In x (indices (shape img)) /\ isnan (pixel_value img nan_at x) = true.

(** The stand-in for [np.percentile]'s value on sample inputs. *)
Definition sample_percentile : list Q -> Q -> Q := linear_percentile.

(** A 7 x 7 image of ones with two bright pixels side by side. *)
Definition two_pixels : image :=
  mkImage (IntegerT 255) [7; 7]
          (fun i => match i with
                    | [3; 3] => 100%Q
                    | [3; 4] => 100%Q
                    | _ => 1%Q
                    end) None.

(** The same image as a frame of a sequence, with its frame number. *)
Definition two_pixels_frame (k : Z) : image :=
  mkImage (IntegerT 255) [7; 7] (pix two_pixels) (Some k).

(** Black 7 x 7 images, of an integer and of a floating type. *)
Definition black_uint8 : image := mkImage (IntegerT 255) [7; 7] (fun _ => 0%Q) None.

(** A floating image with one bright pixel. *)
Definition float_spot : image :=
  mkImage FloatingT [7; 7]
          (fun i => match i with [3; 3] => 1 # 2 | _ => 0%Q end) None.

(** The NaN map of an array whose entry at (0, 0) is NaN. *)
Definition nan_corner : nan_map :=
  fun i => match i with [0; 0] => true | _ => false end.

(** Stand-ins for the library routines, to run the model on sample inputs:
    a shift that leaves the array as it is, the identity for the square
    root, and angular masks that vanish. *)
Definition sample_shift (shp : list Z) (a : nbhd) (s : list Q) : nbhd := a.
Definition sample_sqrt (q : Q) : Q := q.
Definition sample_angular (r : Z) (i : index) : Q := 0%Q.

Definition empty_state : rstate :=
  mkState [] [] (fun _ => 0%Q) [] [] true.

Definition state_or (r : result rstate) (d : rstate) : rstate :=
  match r with
  | Ok _ s => s
  | Raise _ => d
  end.

(** A candidate one pixel to the left of the pair of bright pixels; the state
    after its whole-pixel move; the state after the interpolation that
    follows. *)
Definition sample_st0 : rstate :=
  state_or (init_state two_pixels [2; 2] [3; 2]) empty_state.
Definition sample_st1 : rstate :=
  state_or (walk two_pixels [2; 2] sample_st0) empty_state.
Definition sample_st2 : rstate :=
  interpolate sample_shift [2; 2] sample_st1.

(** Two features of equal mass, at (x, y) = (5, 0) and (0, 3), refined with
    the separation (4, 10) given in image axis order (y, x). *)
Definition tie_rows : list row :=
  [[Fl.Fin 5; Fl.Fin 0; Fl.Fin 7]; [Fl.Fin 0; Fl.Fin 3; Fl.Fin 7]].
Definition tie_rsep : list Z := [10; 4].


(** A processed image that differs from the raw image [two_pixels]: the two
    bright pixels at half their raw value on a black background. *)
Definition dim_pixels : image :=
  mkImage (IntegerT 255) [7; 7]
          (fun i => match i with
                    | [3; 3] => 50%Q
                    | [3; 4] => 50%Q
                    | _ => 0%Q
                    end) None.

Definition rows_of (r : result (list row)) : list row :=
  match r with
  | Ok _ v => v
  | Raise _ => []
  end.

(** A 7 x 7 image of ones with one bright pixel in the middle. *)
Definition one_pixel : image :=
  mkImage (IntegerT 255) [7; 7]
          (fun i => match i with [3; 3] => 100%Q | _ => 1%Q end) None.

(** The rows the Python engine computes when the same candidate is given
    twice. *)
Definition twin_rows : list row :=
  rows_of (run_engine sample_shift sample_sqrt sample_angular sample_angular true
                      one_pixel one_pixel [2; 2] [[3; 3]; [3; 3]] 10 Python
                      false false).

(** A black 21 x 23 frame of an 8-bit type that carries the frame number [k]. *)
Definition black_frame (k : Z) : image :=
  mkImage (IntegerT 255) [21; 23] (fun _ => 0%Q) (Some k).

(** [locate(frame, 5, preprocess=False)] *)
Definition args_no_preprocess : Args.t :=
  Args.mk (Scalar 5) 100 None None (Scalar 1) None None false 64 None
          false 10 true true true Auto.

(** Stand-ins for the collaborators of [locate]. *)
Definition sample_bandpass (img : image) (noise smoothing : list Z)
    (threshold : option Q) : result image := ret img.
Definition sample_scale (img : image) (dt : dtype_kind) : image :=
  mkImage dt (shape img) (pix img) (frame_no img).
Definition sample_noise (img : image) (diameter : list Z) (threshold : option Q)
  : Q * Q := (0%Q, 1%Q).
Definition sample_static_error (f : table) (noise : Q) (diameter noise_size : Z)
  : list Fl.float := map (fun _ => Fl.Fin 0) (rows f).

Definition is_finite (x : Fl.float) : bool :=
  match x with Fl.Fin _ => true | _ => false end.

(** Feature [i] is no brighter than feature [j]. *)
Definition mass_le (mass : list Fl.float) (i j : nat) : Prop :=
  Fl.leb (nth i mass Fl.NaN) (nth j mass Fl.NaN) = true.

(** From the words of the spec, "ties broken by input order": of two
    features of equal mass, the one that input order prefers (the earlier
    one, or else the later one) is kept whenever the other is. *)
Definition ties_by_input_order (earlier_first : bool) (rows : list row)
    (mass : list Fl.float) (kept : list row) : Prop :=
  forall i j, (i < j < length rows)%nat ->
    Fl.eqb (nth i mass Fl.NaN) (nth j mass Fl.NaN) = true ->
    if earlier_first
    then In (nth j rows []) kept -> In (nth i rows []) kept
    else In (nth i rows []) kept -> In (nth j rows []) kept.

(** Features [x, y, mass] of equal mass, and three of different masses. *)
Definition two_tied : list row :=
  [[Fl.Fin 0; Fl.Fin 0; Fl.Fin 5]; [Fl.Fin 1; Fl.Fin 0; Fl.Fin 5]].
Definition three_tied : list row :=
  [[Fl.Fin 0; Fl.Fin 0; Fl.Fin 5]; [Fl.Fin 1; Fl.Fin 0; Fl.Fin 5];
   [Fl.Fin 2; Fl.Fin 0; Fl.Fin 5]].
Definition three_rows : list row :=
  [[Fl.Fin 0; Fl.Fin 0; Fl.Fin 3]; [Fl.Fin 1; Fl.Fin 0; Fl.Fin 9];
   [Fl.Fin 2; Fl.Fin 0; Fl.Fin 5]].

(** The invariant of the refiner's loop: the window lies inside the image
    and the vectors of the state have one entry per axis. *)
Definition loop_invariant (image_ : image) (radius : list Z) (st : rstate) : Prop :=
  window_ok (shape image_) radius (rect st) = true /\
  length (coord st) = length radius /\
  length (cm_n st) = length radius /\
  length (cm_i st) = length radius.

(** The number of entries of a row of the Python engine. *)
Definition row_width (radius : list Z) (characterize : bool) : nat :=
  (length radius + if characterize then 4 else 1)%nat.

(** [l1] is [l2] with some entries removed. *)
Inductive subseq {A : Type} : list A -> list A -> Prop :=
| subseq_nil : subseq [] []
| subseq_skip : forall x l1 l2, subseq l1 l2 -> subseq l1 (x :: l2)
| subseq_keep : forall x l1 l2, subseq l1 l2 -> subseq (x :: l1) (x :: l2).

(** The margin [locate] passes to the detector. *)
Definition locate_margin (radius separation smoothing_size : list Z) : list Z :=
  map (fun '(rad, (sep, sm)) => Z.max rad (Z.max (sep / 2 - 1) (sm / 2)))
      (combine radius (combine separation smoothing_size)).

Definition table_of (r : result table) : table :=
  match r with
  | Ok _ t => t
  | Raise _ => mkTable [] []
  end.

(** The table of [locate(two_pixels, 5, preprocess=False)] with the stand-in
    collaborators. *)
Definition sample_table : table :=
  table_of (locate sample_shift sample_sqrt sample_angular sample_angular false
                   sample_bandpass sample_scale sample_noise sample_static_error
                   sample_percentile two_pixels args_no_preprocess).

(** Row [r] is strictly brighter than every other row of the table: the
    table is [l1 ++ r :: l2] and each row of [l1] and [l2] has a smaller
    mass. *)
Definition strictly_brightest (mass_index : nat) (r : row) (results : list row)
  : Prop :=
  exists l1 l2,
    results = l1 ++ r :: l2 /\
    Forall (fun r' => Fl.ltb (nth mass_index r' Fl.NaN) (nth mass_index r Fl.NaN) = true)
           (l1 ++ l2).

(** An anchor of the numba engine whose square lies inside a two-dimensional
    image of the given extents. *)
Definition anchor_inside (radius n0 n1 : Z) (c : Z * Z) : Prop :=
  radius <= fst c <= n0 - radius - 1 /\ radius <= snd c <= n1 - radius - 1.

(** A state of the numba loop at such an anchor, with a finite centre. *)
Definition regular_state (radius n0 n1 : Z) (st : nstate) : Prop :=
  anchor_inside radius n0 n1 (ncoord st) /\
  square st = (fst (ncoord st) - radius, snd (ncoord st) - radius) /\
  is_finite (fst (ncm_i st)) = true /\
  is_finite (snd (ncm_i st)) = true.

(* ------------------------------------------------------------------ *)
(** ** Properties of the peak detector *)

Lemma indices_length : forall shp x, In x (indices shp) -> length x = length shp.
Proof.
  induction shp as [|n rest IH]; simpl; intros x Hx.
  - destruct Hx as [<-|[]]. reflexivity.
  - apply in_flat_map in Hx. destruct Hx as [i [_ Hi]].
    apply in_map_iff in Hi. destruct Hi as [y [<- Hy]].
    simpl. f_equal. auto.
Qed.

Lemma near_edge_false : forall shp margin x,
  length x = length shp -> length margin = length shp ->
  near_edge shp margin x = false ->
  forall k, (k < length shp)%nat ->
            nth k margin 0 <= nth k x 0 <= nth k shp 0 - nth k margin 0 - 1.
Proof.
  unfold near_edge.
  induction shp as [|n rest IH]; intros margin x Hx Hm Hne k Hk; simpl in Hk; [lia|].
  destruct x as [|xk x]; [discriminate|].
  destruct margin as [|mk margin]; [discriminate|].
  simpl in Hne. apply orb_false_elim in Hne. destruct Hne as [Hhd Htl].
  destruct k as [|k]; simpl.
  - apply orb_false_elim in Hhd. destruct Hhd as [H1 H2].
    apply Z.ltb_ge in H1. rewrite Z.gtb_ltb in H2. apply Z.ltb_ge in H2. lia.
  - apply IH; simpl in *; auto; lia.
Qed.

Lemma filter_within_margin : forall shp margin l,
  length margin = length shp ->
  (forall x, In x l -> length x = length shp) ->
  Forall (within_margin shp margin)
         (filter (fun x => negb (near_edge shp margin x)) l).
Proof.
  intros shp margin l Hm Hl. apply Forall_forall. intros x Hx.
  apply filter_In in Hx. destruct Hx as [Hin Hne].
  apply negb_true_iff in Hne. split; [auto|].
  apply near_edge_false; auto.
Qed.

(** [percentile_threshold] warns of nothing: it returns a threshold or
    passes on [np.percentile]'s rejection of the percentile. *)
Lemma percentile_threshold_cases :
  forall percentile_value img nan_at percentile,
    percentile_threshold percentile_value img nan_at percentile = Raise ValueError \/
    exists threshold,
      percentile_threshold percentile_value img nan_at percentile = Ok [] threshold.
Proof.
  intros pv img nan_at percentile. unfold percentile_threshold, np_percentile, ret.
  destruct (filter _ _); [right; eauto|].
  destruct (negb _); [left; reflexivity|].
  destruct (existsb _ _); right; eauto.
Qed.

Lemma bind_ret_l {A B} (a : A) (k : A -> result B) :
  bind (Ok [] a) k = k a.
Proof. unfold bind. destruct (k a); reflexivity. Qed.

(** C4. Every coordinate returned by [local_maxima] satisfies
    [m_k <= x_k <= shape_k - m_k - 1] on every axis [k], where [m] is the
    margin (the radius when no margin is given): no returned candidate lies
    within the margin of an edge. *)
Theorem local_maxima_respects_margin :
  forall percentile_value img nan_at radius percentile margin w coords,
    local_maxima percentile_value img nan_at radius percentile margin = Ok w coords ->
    Forall (within_margin (shape img)
                          (match margin with None => radius | Some m => m end))
           coords.
Proof.
  intros percentile_value img nan_at radius percentile margin w coords.
  unfold local_maxima.
  set (m := match margin with None => radius | Some m => m end).
  destruct (percentile_threshold_cases percentile_value img nan_at percentile)
    as [->|[threshold ->]]; [discriminate|].
  rewrite bind_ret_l.
  destruct (isnan threshold).
  { cbn. intros H. inversion H. constructor. }
  destruct (dtype img); [|discriminate].
  set (maxima := filter _ (indices (shape img))).
  assert (Hlen : forall x, In x maxima -> length x = length (shape img)).
  { intros x Hx. apply filter_In in Hx. apply indices_length. tauto. }
  destruct maxima as [|x0 maxima'] eqn:Emax.
  { cbn. intros H. inversion H. constructor. }
  destruct (length m =? ndim img)%nat eqn:Elen; cbn [negb]; [|discriminate].
  apply Nat.eqb_eq in Elen. unfold ndim in Elen.
  pose proof (filter_within_margin (shape img) m (x0 :: maxima') Elen Hlen) as HF.
  destruct (filter _ (x0 :: maxima')) as [|y0 ys] eqn:Ef.
  { cbn. intros H. inversion H. constructor. }
  cbn. intros H. inversion H. subst. exact HF.
Qed.

Lemma local_maxima_respects_margin_witness :
  local_maxima sample_percentile two_pixels no_nan [2; 2] 64 (Some [3; 2])
    = Ok [] [[3; 3]; [3; 4]] /\
  Forall (within_margin [7; 7] [3; 2]) [[3; 3]; [3; 4]].
Proof.
  assert (H : local_maxima sample_percentile two_pixels no_nan [2; 2] 64 (Some [3; 2])
              = Ok [] [[3; 3]; [3; 4]])
    by (vm_compute; reflexivity).
  split; [exact H|].
  exact (local_maxima_respects_margin sample_percentile two_pixels no_nan [2; 2] 64
           (Some [3; 2]) _ _ H).
Defined.


Lemma filter_nonempty {A} (f : A -> bool) (l : list A) (x : A) :
  In x l -> f x = true -> filter f l <> [].
Proof.
  intros Hin Hf Hnil.
  assert (Hx : In x (filter f l)) by (apply filter_In; auto).
  rewrite Hnil in Hx. exact Hx.
Qed.

Lemma percentile_in_range (percentile : Q) :
  (0 <= percentile)%Q -> (percentile <= 100)%Q ->
  negb (Qle_bool 0 percentile && Qle_bool percentile 100) = false.
Proof.
  intros H0 H1. apply Qle_bool_iff in H0, H1. rewrite H0, H1. reflexivity.
Qed.

(** A NaN entry of a floating image makes the threshold NaN: the image is
    reported black although it has nonzero pixels, and the type is not
    checked. *)
Lemma local_maxima_nan_pixel :
  forall percentile_value img nan_at radius percentile margin,
    has_nan_pixel img nan_at ->
    (0 <= percentile)%Q -> (percentile <= 100)%Q ->
    local_maxima percentile_value img nan_at radius percentile margin
      = Ok [BlackImage] [].
Proof.
  intros pv img nan_at radius percentile margin [x [Hin Hnan]] H0 H1.
  unfold local_maxima, percentile_threshold.
  destruct (filter _ (map (pixel_value img nan_at) (indices (shape img))))
    as [|v vs] eqn:Ef; [reflexivity|].
  unfold np_percentile. rewrite (percentile_in_range _ H0 H1).
  assert (Hex : existsb isnan (v :: vs) = true).
  { apply existsb_exists. exists (pixel_value img nan_at x). split; [|exact Hnan].
    rewrite <- Ef. apply filter_In. split; [apply in_map; exact Hin|].
    destruct (pixel_value img nan_at x); try discriminate. reflexivity. }
  rewrite Hex. reflexivity.
Qed.

Example local_maxima_nan_pixel_example :
  has_nonzero_pixel float_spot /\
  local_maxima sample_percentile float_spot nan_corner [2; 2] 64 None
    = Ok [BlackImage] [].
Proof.
  split; [exists [3; 3]; split; [vm_compute; tauto | reflexivity]|].
  vm_compute. reflexivity.
Qed.

(** [np.percentile] rejects a percentile outside [0, 100]; for an image
    that is not black the failure comes before the type check. *)
Lemma local_maxima_percentile_out_of_range :
  forall percentile_value img nan_at radius percentile margin,
    has_nonzero_pixel img \/ has_nan_pixel img nan_at ->
    (percentile < 0)%Q \/ (100 < percentile)%Q ->
    local_maxima percentile_value img nan_at radius percentile margin
      = Raise ValueError.
Proof.
  intros pv img nan_at radius percentile margin Hpix Hp.
  unfold local_maxima, percentile_threshold.
  destruct (filter _ (map (pixel_value img nan_at) (indices (shape img))))
    as [|v vs] eqn:Ef.
  - exfalso. revert Ef. destruct Hpix as [[x [Hin Hnz]]|[x [Hin Hnan]]];
      apply (filter_nonempty _ _ (pixel_value img nan_at x));
      try (apply in_map; exact Hin).
    + unfold pixel_value. destruct (dtype img); [|destruct (nan_at x)];
        cbn; try rewrite Hnz; reflexivity.
    + destruct (pixel_value img nan_at x); try discriminate. reflexivity.
  - unfold np_percentile.
    assert (Hr : negb (Qle_bool 0 percentile && Qle_bool percentile 100) = true).
    { apply negb_true_iff, andb_false_iff.
      destruct Hp as [Hp|Hp]; [left|right];
        (destruct (Qle_bool _ _) eqn:E; [|reflexivity]);
        apply Qle_bool_iff in E; exfalso; lra. }
    rewrite Hr. reflexivity.
Qed.



(* ------------------------------------------------------------------ *)
(** ** Properties of the refiner's loop *)

Section LoopProperties.

Variable ndimage_shift : list Z -> nbhd -> list Q -> nbhd.
Variable image_ : image.
Variable radius : list Z.

Lemma decide_action_frozen : forall off, decide_action off false <> Walk.
Proof.
  intros off. unfold decide_action.
  destruct (forallb _ off); [discriminate|].
  rewrite andb_false_r. discriminate.
Qed.

Lemma trace_unfold : forall k st,
  trace ndimage_shift image_ radius (S k) st =
  match decide_action (off_center radius st) (allow_moves st) with
  | Converged => []
  | Walk => match walk image_ radius st with
            | Ok _ st' => (Walk, st') :: trace ndimage_shift image_ radius k st'
            | Raise _ => []
            end
  | Interpolate =>
      (Interpolate, interpolate ndimage_shift radius st)
        :: trace ndimage_shift image_ radius k (interpolate ndimage_shift radius st)
  end.
Proof.
  intros k st. cbn [trace]. unfold step.
  destruct (decide_action _ _); reflexivity.
Qed.

(** Once moves are disallowed, every later action is an interpolation and
    the anchor stays where it is. *)
Lemma trace_frozen : forall n st,
  allow_moves st = false ->
  Forall (fun p => fst p <> Walk /\ rect (snd p) = rect st)
         (trace ndimage_shift image_ radius n st).
Proof.
  induction n as [|k IH]; intros st Hst; [constructor|].
  rewrite trace_unfold, Hst.
  destruct (decide_action (off_center radius st) false) eqn:Ed.
  - constructor.
  - exfalso. exact (decide_action_frozen _ Ed).
  - constructor.
    + cbn. split; [discriminate | reflexivity].
    + specialize (IH (interpolate ndimage_shift radius st) eq_refl).
      cbn [interpolate rect] in IH. exact IH.
Qed.

(** What follows an entry of the trace is the trace from that entry's
    state; an interpolation leaves moves disallowed. *)
Lemma trace_split : forall l1 n st a st1 l2,
  trace ndimage_shift image_ radius n st = l1 ++ (a, st1) :: l2 ->
  (a = Interpolate -> allow_moves st1 = false) /\
  exists m, l2 = trace ndimage_shift image_ radius m st1.
Proof.
  intros l1 n. revert l1.
  induction n as [|k IH]; intros l1 st a st1 l2 H.
  { destruct l1; discriminate H. }
  rewrite trace_unfold in H.
  destruct (decide_action (off_center radius st) (allow_moves st)) eqn:Ed.
  - destruct l1; discriminate H.
  - destruct (walk image_ radius st) as [w st'|e]; [|destruct l1; discriminate H].
    destruct l1 as [|p l1]; cbn in H; inversion H; subst.
    + split; [discriminate|]. eauto.
    + eapply IH; eauto.
  - destruct l1 as [|p l1]; cbn in H; inversion H; subst.
    + split; [reflexivity|]. eauto.
    + eapply IH; eauto.
Qed.

Lemma last_nonempty_indep {A} (l : list A) : forall b d d' : A,
  last (b :: l) d = last (b :: l) d'.
Proof.
  induction l as [|c l IH]; intros b d d'; [reflexivity|].
  change (last (c :: l) d = last (c :: l) d'). apply IH.
Qed.

Lemma last_cons_default {A} (a d : A) (l : list A) :
  last (a :: l) d = last l a.
Proof.
  destruct l as [|b l]; [reflexivity|].
  change (last (b :: l) d = last (b :: l) a). apply last_nonempty_indep.
Qed.

(** The trace follows the loop: the state [iterate] ends in is the last
    state of the trace. *)
Lemma iterate_follows_trace : forall n st w st',
  iterate ndimage_shift image_ radius n st = Ok w st' ->
  st' = last (map snd (trace ndimage_shift image_ radius n st)) st.
Proof.
  induction n as [|k IH]; intros st w st' H.
  - cbn in H. inversion H. reflexivity.
  - rewrite trace_unfold. cbn [iterate] in H. unfold step in H.
    destruct (decide_action (off_center radius st) (allow_moves st)).
    + cbn in H. inversion H. reflexivity.
    + destruct (walk image_ radius st) as [w1 st1|e]; [|discriminate H].
      apply IH in H. cbn [map snd]. rewrite last_cons_default. exact H.
    + cbn [ret] in H. apply IH in H. cbn [map snd].
      rewrite last_cons_default. exact H.
Qed.

(** C3. In every run of the per-candidate loop, once an interpolation step
    has executed, no whole-pixel move occurs on any later iteration, and
    the integer anchor of the window never changes again. *)
Theorem no_walk_after_interpolation :
  forall n st l1 st1 l2,
    trace ndimage_shift image_ radius n st = l1 ++ (Interpolate, st1) :: l2 ->
    Forall (fun p => fst p <> Walk /\ rect (snd p) = rect st1) l2.
Proof.
  intros n st l1 st1 l2 H.
  apply trace_split in H. destruct H as [Hallow [m ->]].
  apply trace_frozen. auto.
Qed.

End LoopProperties.

Lemma no_walk_after_interpolation_witness :
  Forall (fun p => fst p <> Walk /\ rect (snd p) = [3; 3])
         (trace sample_shift two_pixels [2; 2] 2 sample_st2).
Proof.
  apply (no_walk_after_interpolation sample_shift two_pixels [2; 2] 4%nat
           sample_st0 [(Walk, sample_st1)] sample_st2).
  vm_compute. reflexivity.
Defined.

(* ------------------------------------------------------------------ *)
(** ** Properties of the deduplicator *)

Lemma all_pairs_bounds : forall n i j,
  In (i, j) (all_pairs n) -> (i < j < n)%nat.
Proof.
  intros n i j H. unfold all_pairs in H.
  apply in_flat_map in H. destruct H as [a [Ha Hp]].
  apply in_map_iff in Hp. destruct Hp as [b [Heq Hb]].
  inversion Heq; subst. apply in_seq in Ha. apply in_seq in Hb. lia.
Qed.

Lemma query_pairs_bounds : forall positions i j,
  In (i, j) (query_pairs positions) -> (i < j < length positions)%nat.
Proof.
  intros positions i j H. unfold query_pairs in H.
  apply filter_In in H. apply all_pairs_bounds. tauto.
Qed.

Lemma dimmer_of_member : forall positions mass pr,
  dimmer_of positions mass pr = fst pr \/ dimmer_of positions mass pr = snd pr.
Proof.
  intros positions mass pr. unfold dimmer_of, pair_take.
  match goal with |- context [match ?k with O => _ | S _ => _ end] => destruct k end;
    auto.
Qed.

Lemma filter_length_lt {A} (f : A -> bool) (l : list A) (x : A) :
  In x l -> f x = false -> (length (filter f l) < length l)%nat.
Proof.
  induction l as [|y l IH]; intros Hin Hf; [contradiction|].
  simpl. destruct Hin as [->|Hin].
  - rewrite Hf. pose proof (filter_length_le f l). lia.
  - specialize (IH Hin Hf). destruct (f y); simpl; lia.
Qed.

Lemma np_delete_length_le {A} (rows : list A) (idx : list nat) :
  (length (np_delete rows idx) <= length rows)%nat.
Proof.
  unfold np_delete. rewrite length_map.
  etransitivity; [apply filter_length_le|].
  rewrite length_combine, length_seq. lia.
Qed.

Lemma np_delete_shrinks {A} (rows : list A) (idx : list nat) (d : nat) :
  In d idx -> (d < length rows)%nat ->
  (length (np_delete rows idx) < length rows)%nat.
Proof.
  intros Hin Hd. unfold np_delete. rewrite length_map.
  destruct rows as [|r0 rows']; [simpl in Hd; lia|].
  set (rows := r0 :: rows') in *.
  assert (Hlen : length (combine (seq 0 (length rows)) rows) = length rows).
  { rewrite length_combine, length_seq. lia. }
  rewrite <- Hlen at 2.
  apply (filter_length_lt _ _ (d, nth d rows r0)).
  - replace (d, nth d rows r0)
      with (nth d (combine (seq 0 (length rows)) rows) (0%nat, r0)).
    + apply nth_In. lia.
    + rewrite combine_nth by (rewrite length_seq; reflexivity).
      rewrite seq_nth by lia. reflexivity.
  - apply negb_false_iff. apply existsb_exists. exists d.
    split; [exact Hin | apply Nat.eqb_refl].
Qed.

Lemma dedup_pass_shrinks : forall mass_index rsep results,
  query_pairs (scaled_positions mass_index rsep results) <> [] ->
  (length (dedup_pass mass_index rsep results
             (query_pairs (scaled_positions mass_index rsep results)))
   < length results)%nat.
Proof.
  intros mass_index rsep results Hne.
  set (positions := scaled_positions mass_index rsep results) in *.
  destruct (query_pairs positions) as [|[i j] rest] eqn:Eq; [congruence|].
  assert (Hb : (i < j < length results)%nat).
  { assert (Hin : In (i, j) (query_pairs positions)) by (rewrite Eq; left; reflexivity).
    apply query_pairs_bounds in Hin.
    unfold positions, scaled_positions in Hin. rewrite length_map in Hin. exact Hin. }
  unfold dedup_pass.
  apply (np_delete_shrinks _ _
           (dimmer_of positions (mass_column mass_index results) (i, j))).
  - unfold to_drop. simpl. left. reflexivity.
  - destruct (dimmer_of_member positions (mass_column mass_index results) (i, j))
      as [-> | ->]; simpl; lia.
Qed.

Lemma dedup_loop_enough_fuel : forall fuel mass_index rsep results,
  (length results < fuel)%nat ->
  exists final,
    dedup_loop fuel mass_index rsep results = Some final /\
    query_pairs (scaled_positions mass_index rsep final) = [] /\
    (length final <= length results)%nat.
Proof.
  induction fuel as [|k IH]; intros mass_index rsep results Hlt; [lia|].
  cbn [dedup_loop].
  destruct (query_pairs (scaled_positions mass_index rsep results)) as [|p rest] eqn:Eq.
  - exists results. auto.
  - pose proof (dedup_pass_shrinks mass_index rsep results) as Hs.
    rewrite Eq in Hs. specialize (Hs ltac:(discriminate)).
    destruct (IH mass_index rsep
                (dedup_pass mass_index rsep results (p :: rest)) ltac:(lia))
      as [final [H1 [H2 H3]]].
    exists final. repeat split; auto. lia.
Qed.

(** C6. The deduplication loop terminates: a pass that finds at least one
    pair removes at least one feature, so the loop, run on [results], ends
    within [length results + 1] passes with a table in which no pair is
    left. *)
Theorem dedup_terminates : forall mass_index rsep results,
  (query_pairs (scaled_positions mass_index rsep results) <> [] ->
   (length (dedup_pass mass_index rsep results
              (query_pairs (scaled_positions mass_index rsep results)))
    < length results)%nat) /\
  exists final,
    dedup_loop (S (length results)) mass_index rsep results = Some final /\
    query_pairs (scaled_positions mass_index rsep final) = [].
Proof.
  intros mass_index rsep results. split.
  - apply dedup_pass_shrinks.
  - destruct (dedup_loop_enough_fuel (S (length results)) mass_index rsep results)
      as [final [H1 [H2 _]]]; [lia|].
    exists final. auto.
Qed.

Lemma dedup_terminates_witness :
  (length (dedup_pass 2 tie_rsep tie_rows
             (query_pairs (scaled_positions 2 tie_rsep tie_rows))) < 2)%nat.
Proof.
  apply (proj1 (dedup_terminates 2%nat tie_rsep tie_rows)).
  vm_compute. discriminate.
Defined.


Lemma Qle_bool_total : forall a b, Qle_bool a b = false -> Qle_bool b a = true.
Proof.
  intros a b H. apply Qle_bool_iff.
  destruct (Qlt_le_dec b a) as [Hlt|Hle].
  - apply Qlt_le_weak. exact Hlt.
  - apply Qle_bool_iff in Hle. congruence.
Qed.

Lemma ltb_asym : forall a b, Fl.ltb a b = true -> Fl.ltb b a = false.
Proof.
  intros a b. destruct a as [a|s|], b as [b|t|]; cbn; intros H;
    try discriminate H; try reflexivity;
    try (apply negb_true_iff in H; apply Qle_bool_total in H; rewrite H; reflexivity);
    repeat match goal with x : bool |- _ => destruct x end;
    try discriminate H; reflexivity.
Qed.

Lemma ltb_not_nan_l : forall a b, Fl.ltb a b = true -> isnan a = false.
Proof. intros [a|s|] b H; try reflexivity. discriminate H. Qed.





(* ------------------------------------------------------------------ *)
(** ** Zero-mass neighbourhoods *)

Lemma Qltb_abs_self_sub : forall r : Z,
  Qltb (Qabs (inject_Z r - inject_Z r)) GOOD_ENOUGH_THRESH = true.
Proof.
  intros r. unfold Qltb, Qle_bool, GOOD_ENOUGH_THRESH. cbn.
  apply negb_true_iff. apply Z.leb_gt.
  replace (r * 1 + - r * 1)%Z with 0%Z by lia. reflexivity.
Qed.

Lemma off_center_zero : forall radius : list Z,
  forallb (fun d => Qltb (Qabs d) GOOD_ENOUGH_THRESH)
          (qsub (injZ radius) (injZ radius)) = true.
Proof.
  induction radius as [|r radius IH]; [reflexivity|].
  cbn [injZ qsub map combine forallb].
  rewrite Qltb_abs_self_sub. exact IH.
Qed.

Lemma centered_cm_i : forall radius c : list Z,
  length c = length radius ->
  Forall2 Qeq (qadd (qsub (injZ radius) (injZ radius)) (injZ c)) (injZ c).
Proof.
  induction radius as [|r radius IH]; intros [|x c] Hlen; try discriminate Hlen.
  - constructor.
  - cbn. constructor.
    + unfold Qeq. cbn. lia.
    + apply IH. simpl in Hlen. lia.
Qed.

Lemma window_ok_lengths : forall shp radius c,
  window_ok shp radius c = true -> length c = length radius.
Proof.
  intros shp radius c H. unfold window_ok in H.
  apply andb_true_iff in H. destruct H as [H _].
  apply andb_true_iff in H. destruct H as [H1 H2].
  apply Nat.eqb_eq in H1. apply Nat.eqb_eq in H2. congruence.
Qed.

Lemma Forall2_rev_intro {A B} (R : A -> B -> Prop) (l : list A) (l' : list B) :
  Forall2 R l l' -> Forall2 R (rev l) (rev l').
Proof.
  induction 1 as [|x y l l' Hxy HF IH]; [constructor|].
  cbn. apply Forall2_app; [exact IH|]. constructor; [exact Hxy | constructor].
Qed.

Lemma same_of_Qeq : forall (q : list Q) (c : list Z),
  Forall2 Qeq q (rev (injZ c)) ->
  Forall2 Fl.same (map Fl.Fin q) (map Fl.of_Z (rev c)).
Proof.
  intros q c. unfold injZ. rewrite <- map_rev. generalize (rev c). clear c.
  induction q as [|x q IH]; intros [|z c] H; inversion H; subst; cbn.
  - constructor.
  - constructor; [assumption | apply IH; assumption].
Qed.

Section ZeroMass.

Variable ndimage_shift : list Z -> nbhd -> list Q -> nbhd.
Variable sqrtQ : Q -> Q.
Variable cosmask sinmask : Z -> index -> Q.

(** The Python engine on a zero-mass neighbourhood: the centre of mass
    defaults to the mask centre, the loop stops at once, and the row holds
    the integer anchor (in reversed axis order) and a zero mass. *)
Lemma python_zero_mass :
  forall raw_image image_ radius max_iterations characterize c w nb,
    masked_window image_ radius c = Ok w nb ->
    Qeq_bool (arr_sum (mask_shape radius) nb) 0 = true ->
    window_ok (shape raw_image) radius c = true ->
    exists r,
      refine_one ndimage_shift sqrtQ cosmask sinmask
                 raw_image image_ radius max_iterations characterize c = Ok [] r /\
      Forall2 Fl.same (firstn (length c) r) (map Fl.of_Z (rev c)) /\
      Fl.same (nth (length c) r Fl.NaN) (Fl.Fin 0).
Proof.
  intros raw_image image_ radius max_iterations characterize c w nb Hwin Hzero Hraw.
  assert (Hw : w = []).
  { unfold masked_window in Hwin. destruct (window_ok _ _ _); inversion Hwin; auto. }
  subst w.
  assert (Hlen : length c = length radius).
  { unfold masked_window in Hwin.
    destruct (window_ok (shape image_) radius c) eqn:E; [|discriminate].
    eapply window_ok_lengths; eauto. }
  unfold refine_one, init_state. rewrite Hwin. cbn [bind ret app].
  unfold _safe_center_of_mass at 1 2. rewrite Hzero.
  set (st0 := {| coord := injZ c; rect := c; neighborhood := nb;
                 cm_n := injZ radius;
                 cm_i := qadd (qsub (injZ radius) (injZ radius)) (injZ c);
                 allow_moves := true |}).
  assert (Hit : iterate ndimage_shift image_ radius max_iterations st0 = Ok [] st0).
  { destruct max_iterations as [|k]; [reflexivity|].
    cbn [iterate]. unfold step, decide_action, off_center. cbn [cm_n st0].
    rewrite off_center_zero. reflexivity. }
  rewrite Hit. cbn [bind ret app].
  assert (Hpos : Forall2 Fl.same
                   (map Fl.Fin (rev (cm_i st0))) (map Fl.of_Z (rev c))).
  { cbn [cm_i st0]. apply same_of_Qeq. apply Forall2_rev_intro.
    apply centered_cm_i. exact Hlen. }
  assert (Hn : length (map Fl.Fin (rev (cm_i st0))) = length c).
  { apply Forall2_length in Hpos. rewrite Hpos, length_map, length_rev. reflexivity. }
  assert (Hmass : Fl.same (Fl.Fin (arr_sum (mask_shape radius) nb)) (Fl.Fin 0)).
  { cbn. apply Qeq_bool_iff. exact Hzero. }
  unfold characterize_row. cbn [neighborhood st0 rect].
  destruct characterize; cbn [negb].
  - unfold masked_window. rewrite Hraw. cbn [bind ret app].
    eexists. split; [reflexivity|]. split.
    + rewrite firstn_app, <- Hn, firstn_all, Nat.sub_diag. cbn [firstn].
      rewrite app_nil_r. exact Hpos.
    + rewrite app_nth2 by lia. rewrite Hn, Nat.sub_diag. exact Hmass.
  - eexists. split; [reflexivity|]. split.
    + rewrite firstn_app, <- Hn, firstn_all, Nat.sub_diag. cbn [firstn].
      rewrite app_nil_r. exact Hpos.
    + rewrite app_nth2 by lia. rewrite Hn, Nat.sub_diag. exact Hmass.
Qed.

End ZeroMass.

Section NumbaZeroMass.

Variable sqrtQ : Q -> Q.
Variable cosmask sinmask : Z -> index -> Q.

Lemma numba_iterate_nan : forall image_ radius n st,
  ncm_n st = (Fl.NaN, Fl.NaN) ->
  numba_iterate image_ radius n st = Ok [] st.
Proof.
  intros image_ radius n st H. destruct n as [|k]; [reflexivity|].
  cbn [numba_iterate]. rewrite H. reflexivity.
Qed.

(** C1 on the numba engine.  When the masked pixels of a candidate are all
    zero (zero mass and zero first moments), the engine divides by the
    mass without a guard: both coordinates of the reported position are
    [nan], not the integer anchor. *)
Theorem numba_zero_mass_nan :
  forall raw_image image_ radius max_iterations characterize c s0 s1 m,
    moments image_ radius (fst c - radius) (snd c - radius) = Ok [] (s0, s1, m) ->
    Fl.Qis_zero m = true -> Fl.Qis_zero s0 = true -> Fl.Qis_zero s1 = true ->
    numba_refine_one sqrtQ cosmask sinmask
                     raw_image image_ radius max_iterations characterize c =
    (chars <- numba_characterize sqrtQ cosmask sinmask raw_image image_ radius
                                 characterize (fst c - radius, snd c - radius) ;;
     ret (Fl.NaN :: Fl.NaN :: chars)).
Proof.
  intros raw_image image_ radius max_iterations characterize c s0 s1 m
         Hmom Hm Hs0 Hs1.
  unfold numba_refine_one, numba_center. rewrite Hmom.
  cbn [bind ret app]. unfold Fl.div. rewrite Hm, Hs0, Hs1.
  rewrite numba_iterate_nan by reflexivity.
  cbn [bind ret app square ncm_i fst snd Fl.sub Fl.add Fl.opp Fl.of_Z].
  destruct (numba_characterize _ _ _ _ _ _ _ _) as [w chars|e]; reflexivity.
Qed.

End NumbaZeroMass.

Lemma numba_zero_mass_nan_witness :
  numba_refine_one sample_sqrt sample_angular sample_angular
                   black_uint8 black_uint8 2 10 true (3, 3) =
  Ok [] [Fl.NaN; Fl.NaN; Fl.Fin 0; Fl.NaN; Fl.Fin 0; Fl.Fin 0].
Proof.
  rewrite (numba_zero_mass_nan sample_sqrt sample_angular sample_angular
             black_uint8 black_uint8 2 10%nat true (3, 3) 0%Q 0%Q 0%Q);
    vm_compute; reflexivity.
Defined.

(** The same candidate through [refine], on each engine: the Python engine
    reports the anchor, the numba engine does not. *)
Example refine_black_python :
  refine sample_shift sample_sqrt sample_angular sample_angular true
         black_uint8 black_uint8 (Scalar 2) [[3; 3]] (Scalar 0) 10 Python false false =
  Ok [] [[Fl.Fin 3; Fl.Fin 3; Fl.Fin 0]].
Proof. vm_compute. reflexivity. Qed.

Example refine_black_numba :
  refine sample_shift sample_sqrt sample_angular sample_angular true
         black_uint8 black_uint8 (Scalar 2) [[3; 3]] (Scalar 0) 10 Numba false false =
  Ok [] [[Fl.NaN; Fl.NaN; Fl.Fin 0]].
Proof. vm_compute. reflexivity. Qed.

(* ------------------------------------------------------------------ *)
(** ** The signal column *)

Section Signal.

Variable ndimage_shift : list Z -> nbhd -> list Q -> nbhd.
Variable sqrtQ : Q -> Q.
Variable cosmask sinmask : Z -> index -> Q.

(** The Python engine reports the largest entry of the masked window of the
    raw image at the final anchor. *)
Lemma python_signal_is_masked_raw_max :
  forall raw_image radius st w r,
    characterize_row sqrtQ cosmask sinmask raw_image radius true st = Ok w r ->
    exists raw_neighborhood,
      masked_window raw_image radius (rect st) = Ok [] raw_neighborhood /\
      nth (length (cm_i st) + 3) r Fl.NaN =
      Fl.Fin (arr_max (mask_shape radius) raw_neighborhood).
Proof.
  intros raw_image radius st w r H. unfold characterize_row in H.
  cbn [negb] in H.
  destruct (masked_window raw_image radius (rect st)) as [w' rn|e] eqn:E;
    [|discriminate H].
  assert (w' = []).
  { unfold masked_window in E. destruct (window_ok _ _ _); inversion E; auto. }
  subst w'. cbn [bind ret app] in H. inversion H; subst.
  exists rn. split; [reflexivity|].
  rewrite app_nth2 by (rewrite length_map, length_rev; lia).
  rewrite length_map, length_rev.
  replace (length (cm_i st) + 3 - length (cm_i st))%nat with 3%nat by lia.
  reflexivity.
Qed.

(** C2 on the numba engine.  With the raw image [two_pixels] and the
    processed image [dim_pixels], the candidate at (3, 3) does not move; the
    largest raw pixel under the mask is 100, and the engine reports 50: the
    running maximum is compared with the raw pixel and assigned the
    processed one. *)
Theorem numba_signal_not_raw_max :
  column 5 (rows_of (_numba_refine sqrtQ cosmask sinmask
                                   two_pixels dim_pixels 2 [(3, 3)] 10 true))
  = [Fl.Fin 50] /\
  exists raw_neighborhood,
    masked_window two_pixels [2; 2] [3; 3] = Ok [] raw_neighborhood /\
    Qeq_bool (arr_max (mask_shape [2; 2]) raw_neighborhood) 100 = true.
Proof.
  split; [vm_compute; reflexivity|].
  eexists. split; [reflexivity|]. vm_compute. reflexivity.
Qed.

End Signal.

(** On the same input the Python engine reports the raw maximum. *)
Example python_signal_sample :
  column 5 (rows_of (_refine sample_shift sample_sqrt sample_angular sample_angular
                             two_pixels dim_pixels [2; 2] [[3; 3]] 10 true))
  = [Fl.Fin 100].
Proof. vm_compute. reflexivity. Qed.

(* ------------------------------------------------------------------ *)
(** ** The guard of the deduplication step *)

Section Guard.

Variable ndimage_shift : list Z -> nbhd -> list Q -> nbhd.
Variable sqrtQ : Q -> Q.
Variable cosmask sinmask : Z -> index -> Q.
Variable NUMBA_AVAILABLE : bool.

(** C10. [refine] suppresses duplicates only when every component of
    [separation] is strictly positive: otherwise (as with the default
    [separation = 0]) it returns the rows of the engine as they are; when
    it is, the rows returned are those the deduplication loop ends with,
    and no pair is left among them. *)
Theorem refine_dedup_guard :
  forall raw_image image_ radius coords separation max_iterations engine
         characterize walkthrough rad w results,
    validate_tuple radius (ndim image_) = Ok [] rad ->
    run_engine ndimage_shift sqrtQ cosmask sinmask NUMBA_AVAILABLE
               raw_image image_ rad coords max_iterations engine
               characterize walkthrough = Ok w results ->
    (all_greater_0 separation = false ->
     refine ndimage_shift sqrtQ cosmask sinmask NUMBA_AVAILABLE
            raw_image image_ radius coords separation max_iterations engine
            characterize walkthrough = Ok w results) /\
    (all_greater_0 separation = true ->
     forall rsep,
       reversed_separation separation (ndim image_) = Ok [] rsep ->
       exists final,
         refine ndimage_shift sqrtQ cosmask sinmask NUMBA_AVAILABLE
                raw_image image_ radius coords separation max_iterations engine
                characterize walkthrough = Ok w final /\
         dedup_loop (S (length results)) (ndim image_) rsep results = Some final /\
         query_pairs (scaled_positions (ndim image_) rsep final) = []).
Proof.
  intros raw_image image_ radius coords separation max_iterations engine
         characterize walkthrough rad w results Hrad Hrun.
  split.
  - intros Hsep. unfold refine. rewrite Hrad. cbn [bind app].
    rewrite Hrun. cbn [bind]. rewrite Hsep. cbn [ret].
    rewrite app_nil_r. reflexivity.
  - intros Hsep rsep Hrsep.
    destruct (dedup_loop_enough_fuel (S (length results)) (ndim image_) rsep results)
      as [final [H1 [H2 _]]]; [lia|].
    exists final. split; [|split; assumption].
    unfold refine. rewrite Hrad. cbn [bind app].
    rewrite Hrun. cbn [bind]. rewrite Hsep, Hrsep. cbn [bind app].
    rewrite H1. cbn [ret]. rewrite app_nil_r. reflexivity.
Qed.

End Guard.

Lemma refine_dedup_guard_witness :
  refine sample_shift sample_sqrt sample_angular sample_angular true
         one_pixel one_pixel (Scalar 2) [[3; 3]; [3; 3]] (Scalar 0) 10 Python
         false false = Ok [] twin_rows.
Proof.
  apply (proj1 (refine_dedup_guard sample_shift sample_sqrt sample_angular
                  sample_angular true one_pixel one_pixel (Scalar 2)
                  [[3; 3]; [3; 3]] (Scalar 0) 10%nat Python false false
                  [2; 2] [] twin_rows eq_refl ltac:(vm_compute; reflexivity))).
  reflexivity.
Defined.

(** With the default separation the two rows of [twin_rows] are both
    returned, although they are at the same position. *)
Example twin_rows_same_position :
  length twin_rows = 2%nat /\
  Forall2 Fl.same (nth 0 twin_rows []) (nth 1 twin_rows []) /\
  Forall2 Fl.same (firstn 2 (nth 0 twin_rows [])) [Fl.Fin 3; Fl.Fin 3].
Proof.
  vm_compute. repeat split; repeat constructor.
Qed.

(* ------------------------------------------------------------------ *)
(** ** The empty tables of [locate] *)

Lemma frame_not_in_all_columns : forall n characterize,
  ~ In "frame"%string (all_columns n characterize).
Proof.
  intros n characterize H. unfold all_columns, char_columns in H.
  apply in_app_or in H. destruct H as [H|H].
  - apply in_app_or in H. destruct H as [H|H].
    + unfold coord_columns in H. destruct (n <? 4)%nat.
      * destruct n as [|[|[|n]]]; cbn in H;
          repeat (destruct H as [H|H]; [discriminate H|]);
          try rewrite firstn_nil in H; exact H.
      * apply in_map_iff in H. destruct H as [i [Hi _]]. discriminate Hi.
    + destruct characterize; cbn in H;
        repeat (destruct H as [H|H]; [discriminate H|]); exact H.
  - destruct characterize; cbn in H;
      repeat (destruct H as [H|H]; [discriminate H|]); exact H.
Qed.

Section EmptyTables.

Variable ndimage_shift : list Z -> nbhd -> list Q -> nbhd.
Variable sqrtQ : Q -> Q.
Variable cosmask sinmask : Z -> index -> Q.
Variable NUMBA_AVAILABLE : bool.
Variable bandpass : image -> list Z -> list Z -> option Q -> result image.
Variable scale_to_gamut : image -> dtype_kind -> image.
Variable measure_noise : image -> list Z -> option Q -> Q * Q.
Variable static_error : table -> Q -> Z -> Z -> list Fl.float.
Variable percentile_value : list Q -> Q -> Q.

(** C9 on a frame that carries a frame number.  For a black frame (one
    that is still black after rescaling), [locate] warns and returns an
    empty table with the coordinate, characterization and [ep] columns,
    and without a [frame] column: the early returns build the table from
    [all_columns] and do not reach the code that appends [frame]. *)
Theorem locate_black_frame_no_frame_column :
  forall k,
    percentile_threshold percentile_value
      (scale_to_gamut (np_squeeze (black_frame k)) (IntegerT 255)) no_nan 64
      = Ok [] Fl.NaN ->
    exists t,
      locate ndimage_shift sqrtQ cosmask sinmask NUMBA_AVAILABLE
             bandpass scale_to_gamut measure_noise static_error
             percentile_value
             (black_frame k) args_no_preprocess = Ok [BlackImage] t /\
      rows t = [] /\
      In "ep"%string (columns t) /\
      ~ In "frame"%string (columns t).
Proof.
  intros k Hblack.
  eexists. split; [|split; [|split]].
  - unfold locate.
    cbn [args_no_preprocess Args.diameter Args.separation Args.smoothing_size
         Args.noise_size Args.characterize Args.preprocess Args.invert
         Args.percentile Args.threshold].
    change (shape (np_squeeze (black_frame k))) with [21; 23].
    cbn [length validate_tuple repeat bind ret app forallb map negb Z.land
         Z.eqb Pos.land Pos.eqb andb tl removelast existsb orb warn].
    cbn -[local_maxima all_columns np_squeeze Z.div Z.max].
    change (dtype (np_squeeze (black_frame k))) with (IntegerT 255).
    cbv beta iota.
    unfold local_maxima. rewrite Hblack. cbn [warn ret bind app isnan].
    reflexivity.
  - reflexivity.
  - cbn [columns]. unfold all_columns, char_columns.
    apply in_or_app. right. left. reflexivity.
  - cbn [columns]. apply frame_not_in_all_columns.
Qed.

End EmptyTables.

Lemma locate_black_frame_no_frame_column_witness :
  exists t,
    locate sample_shift sample_sqrt sample_angular sample_angular false
           sample_bandpass sample_scale sample_noise sample_static_error
           sample_percentile (black_frame 7) args_no_preprocess = Ok [BlackImage] t /\
    rows t = [] /\
    In "ep"%string (columns t) /\
    ~ In "frame"%string (columns t).
Proof.
  apply (locate_black_frame_no_frame_column sample_shift sample_sqrt
           sample_angular sample_angular false sample_bandpass sample_scale
           sample_noise sample_static_error sample_percentile 7).
  vm_compute. reflexivity.
Defined.

(** The table [locate] returns for that frame, column by column. *)
Example locate_black_frame_columns :
  locate sample_shift sample_sqrt sample_angular sample_angular false
         sample_bandpass sample_scale sample_noise sample_static_error
         sample_percentile (black_frame 7) args_no_preprocess =
  Ok [BlackImage]
     (mkTable ["x"; "y"; "mass"; "size"; "ecc"; "signal"; "ep"]%string []).
Proof. vm_compute. reflexivity. Qed.

(* ------------------------------------------------------------------ *)
(** ** Top-N selection *)

(** C7, as stated, fails.  With three features of equal mass and
    [topn = 2] the first in input order is the one left out, so ties do not
    go to the earlier feature; with two features of equal mass and
    [topn = 1] the first is the one kept, so they do not go to the later
    feature either.  With [topn = 0] every feature is kept. *)
Lemma topn_ties_not_by_input_order :
  ~ ties_by_input_order true three_tied (column 2 three_tied)
      (select_topn np_argsort (Some 2) three_tied (column 2 three_tied)) /\
  ~ ties_by_input_order false two_tied (column 2 two_tied)
      (select_topn np_argsort (Some 1) two_tied (column 2 two_tied)) /\
  length (select_topn np_argsort (Some 0) two_tied (column 2 two_tied)) = 2%nat.
Proof.
  split; [|split].
  - intros H. specialize (H 0%nat 1%nat ltac:(cbn; lia) eq_refl).
    cbv beta iota in H.
    assert (E : select_topn np_argsort (Some 2) three_tied (column 2 three_tied)
                = [nth 1 three_tied []; nth 2 three_tied []])
      by (vm_compute; reflexivity).
    rewrite E in H. specialize (H (or_introl eq_refl)).
    cbn in H. destruct H as [H|[H|[]]]; discriminate H.
  - intros H. specialize (H 0%nat 1%nat ltac:(cbn; lia) eq_refl).
    cbv beta iota in H.
    assert (E : select_topn np_argsort (Some 1) two_tied (column 2 two_tied)
                = [nth 0 two_tied []])
      by (vm_compute; reflexivity).
    rewrite E in H. specialize (H (or_introl eq_refl)).
    cbn in H. destruct H as [H|[]]; discriminate H.
  - vm_compute. reflexivity.
Qed.

Lemma ltb_fin : forall a b, Fl.ltb (Fl.Fin a) (Fl.Fin b) = true <-> (a < b)%Q.
Proof.
  intros a b. cbn. rewrite negb_true_iff. split; intros H.
  - apply Qnot_le_lt. intros Hle. apply Qle_bool_iff in Hle. congruence.
  - destruct (Qle_bool b a) eqn:E; [|reflexivity].
    apply Qle_bool_iff in E. exfalso. exact (Qlt_not_le _ _ H E).
Qed.

Lemma leb_fin : forall a b, Fl.leb (Fl.Fin a) (Fl.Fin b) = true <-> (a <= b)%Q.
Proof. intros a b. cbn. apply Qle_bool_iff. Qed.

Lemma finite_list : forall mass,
  forallb is_finite mass = true -> exists qs, mass = map Fl.Fin qs.
Proof.
  induction mass as [|m mass IH]; intros H.
  - exists []. reflexivity.
  - cbn in H. apply andb_true_iff in H. destruct H as [Hm Hrest].
    destruct (IH Hrest) as [qs ->]. destruct m as [q| |]; try discriminate Hm.
    exists (q :: qs). reflexivity.
Qed.

Lemma nth_map_Fin : forall qs k, (k < length qs)%nat ->
  nth k (map Fl.Fin qs) Fl.NaN = Fl.Fin (nth k qs 0%Q).
Proof.
  intros qs k Hk. rewrite (nth_indep _ Fl.NaN (Fl.Fin 0%Q)) by (rewrite length_map; lia).
  apply (map_nth Fl.Fin).
Qed.

(** The scan of [np.argmax]: the index it returns holds a largest entry, and
    every entry before it is strictly smaller. *)
Lemma argmax_from_correct : forall l prefix best_i,
  (best_i < length prefix)%nat ->
  (forall k, (k < length prefix)%nat -> (nth k prefix 0 <= nth best_i prefix 0)%Q) ->
  (forall k, (k < best_i)%nat -> (nth k prefix 0 < nth best_i prefix 0)%Q) ->
  let full := prefix ++ l in
  let r := argmax_from best_i (Fl.Fin (nth best_i prefix 0%Q)) (length prefix)
                       (map Fl.Fin l) in
  (r < length full)%nat /\
  (forall k, (k < length full)%nat -> (nth k full 0 <= nth r full 0)%Q) /\
  (forall k, (k < r)%nat -> (nth k full 0 < nth r full 0)%Q).
Proof.
  induction l as [|x t IH]; intros prefix best_i Hb Hle Hlt; cbn zeta.
  - cbn [map argmax_from]. rewrite app_nil_r. auto.
  - cbn [map argmax_from isnan orb].
    assert (Hfull : prefix ++ x :: t = (prefix ++ [x]) ++ t)
      by (rewrite <- app_assoc; reflexivity).
    assert (Hlen : length (prefix ++ [x]) = S (length prefix))
      by (rewrite length_app; cbn; lia).
    destruct (Fl.ltb (Fl.Fin (nth best_i prefix 0%Q)) (Fl.Fin x)) eqn:E.
    + apply ltb_fin in E.
      specialize (IH (prefix ++ [x]) (length prefix)).
      rewrite Hlen, nth_middle in IH. rewrite Hfull. apply IH.
      * lia.
      * intros k Hk. destruct (Nat.eq_dec k (length prefix)) as [->|Hne].
        -- rewrite nth_middle. apply Qle_refl.
        -- rewrite app_nth1 by lia. apply Qlt_le_weak.
           eapply Qle_lt_trans; [apply Hle; lia | exact E].
      * intros k Hk. rewrite app_nth1 by lia.
        eapply Qle_lt_trans; [apply Hle; lia | exact E].
    + assert (Hx : (x <= nth best_i prefix 0)%Q).
      { destruct (Qlt_le_dec (nth best_i prefix 0%Q) x) as [Hc|Hc]; [|exact Hc].
        apply ltb_fin in Hc. congruence. }
      specialize (IH (prefix ++ [x]) best_i).
      rewrite Hlen in IH. rewrite (app_nth1 prefix [x] 0%Q Hb) in IH.
      rewrite Hfull. apply IH.
      * lia.
      * intros k Hk. destruct (Nat.eq_dec k (length prefix)) as [->|Hne].
        -- rewrite nth_middle. exact Hx.
        -- rewrite app_nth1 by lia. apply Hle. lia.
      * intros k Hk. rewrite app_nth1 by lia. apply Hlt. exact Hk.
Qed.

Lemma np_argmax_correct : forall qs, qs <> [] ->
  let r := np_argmax (map Fl.Fin qs) in
  (r < length qs)%nat /\
  (forall k, (k < length qs)%nat -> (nth k qs 0 <= nth r qs 0)%Q) /\
  (forall k, (k < r)%nat -> (nth k qs 0 < nth r qs 0)%Q).
Proof.
  intros [|q qs] Hne; [congruence|]. cbn zeta. cbn [map np_argmax].
  apply (argmax_from_correct qs [q] 0%nat).
  - cbn. lia.
  - intros k Hk. cbn in Hk. replace k with 0%nat by lia. apply Qle_refl.
  - intros k Hk. lia.
Qed.

Lemma StronglySorted_app_order {A} (R : A -> A -> Prop) (l1 l2 : list A) :
  StronglySorted R (l1 ++ l2) ->
  forall x y, In x l1 -> In y l2 -> R x y.
Proof.
  induction l1 as [|a l1 IH]; intros HS x y Hx Hy; [contradiction|].
  cbn in HS. apply StronglySorted_inv in HS. destruct HS as [HS Hall].
  destruct Hx as [->|Hx].
  - rewrite Forall_forall in Hall. apply Hall. apply in_or_app. right. exact Hy.
  - apply IH; assumption.
Qed.

Lemma NoDup_skipn {A} (m : nat) (l : list A) : NoDup l -> NoDup (skipn m l).
Proof.
  intros H. rewrite <- (firstn_skipn m l) in H.
  apply NoDup_app_remove_l in H. exact H.
Qed.

(** The [topn] block over any sorting routine that returns the indices in
    ascending order of mass: which of several features tied at the cut-off
    is kept is left to the routine. *)
Lemma select_topn_any_sort :
  forall argsort topn refined_coords exact_mass,
    Permutation (argsort exact_mass) (seq 0 (length exact_mass)) ->
    StronglySorted (mass_le exact_mass) (argsort exact_mass) ->
    length exact_mass = length refined_coords ->
    forallb is_finite exact_mass = true ->
    1 <= topn ->
    let kept := select_topn argsort (Some topn) refined_coords exact_mass in
    (Z.of_nat (length refined_coords) <= topn -> kept = refined_coords) /\
    (topn < Z.of_nat (length refined_coords) ->
     exists idx,
       kept = take_rows refined_coords idx /\
       NoDup idx /\
       Z.of_nat (length idx) = topn /\
       (forall i, In i idx -> (i < length refined_coords)%nat) /\
       (forall i j, In i idx -> (j < length refined_coords)%nat -> ~ In j idx ->
                    mass_le exact_mass j i) /\
       (topn = 1 ->
        forall i j, In i idx -> (j < i)%nat ->
                    Fl.ltb (nth j exact_mass Fl.NaN) (nth i exact_mass Fl.NaN) = true)).
Proof.
  intros argsort topn rows mass Hperm Hsorted Hlen Hfin Htopn kept.
  unfold kept, select_topn. split.
  - intros Hle.
    replace (Z.of_nat (length rows) >? topn) with false; [reflexivity|].
    symmetry. rewrite Z.gtb_ltb. apply Z.ltb_ge. exact Hle.
  - intros Hlt.
    replace (Z.of_nat (length rows) >? topn) with true
      by (symmetry; rewrite Z.gtb_ltb; apply Z.ltb_lt; exact Hlt).
    destruct (topn =? 1) eqn:E1.
    + apply Z.eqb_eq in E1. subst topn.
      destruct (finite_list mass Hfin) as [qs ->].
      rewrite length_map in Hlen.
      assert (Hne : qs <> []) by (intros ->; cbn in Hlen; lia).
      destruct (np_argmax_correct qs Hne) as [Hr [Hmax Hfirst]].
      set (r := np_argmax (map Fl.Fin qs)) in *.
      exists [r]. repeat split.
      * repeat constructor. intros [].
      * intros i [<-|[]]. lia.
      * intros i j [<-|[]] Hj _. unfold mass_le.
        rewrite !nth_map_Fin by lia. apply leb_fin. apply Hmax. lia.
      * intros _ i j [<-|[]] Hj.
        rewrite !nth_map_Fin by lia. apply ltb_fin. apply Hfirst. exact Hj.
    + apply Z.eqb_neq in E1.
      set (perm := argsort mass) in *.
      assert (Hpl : length perm = length rows).
      { rewrite (Permutation_length Hperm), length_seq. exact Hlen. }
      set (m := Z.to_nat (Z.of_nat (length rows) - topn)).
      exists (skipn m perm).
      assert (Hslice : slice_last topn (take_rows rows perm)
                       = take_rows rows (skipn m perm)).
      { unfold slice_last, take_rows. rewrite length_map, Hpl.
        replace (topn =? 0) with false by (symmetry; apply Z.eqb_neq; lia).
        replace (0 <? topn) with true by (symmetry; apply Z.ltb_lt; lia).
        rewrite Z.max_l by lia. fold m. apply skipn_map. }
      assert (Hin : forall i, In i perm -> (i < length rows)%nat).
      { intros i Hi. apply (Permutation_in _ Hperm) in Hi.
        apply in_seq in Hi. lia. }
      assert (Hsub : forall i, In i (skipn m perm) -> In i perm).
      { intros i Hi. rewrite <- (firstn_skipn m perm).
        apply in_or_app. right. exact Hi. }
      repeat split.
      * exact Hslice.
      * apply NoDup_skipn. apply (Permutation_NoDup (Permutation_sym Hperm)).
        apply seq_NoDup.
      * rewrite length_skipn, Hpl. unfold m. lia.
      * intros i Hi. apply Hin. apply Hsub. exact Hi.
      * intros i j Hi Hj Hnot.
        assert (Hjp : In j perm).
        { apply (Permutation_in _ (Permutation_sym Hperm)).
          apply in_seq. lia. }
        rewrite <- (firstn_skipn m perm) in Hjp.
        apply in_app_or in Hjp. destruct Hjp as [Hjf|Hjs]; [|contradiction].
        rewrite <- (firstn_skipn m perm) in Hsorted.
        exact (StronglySorted_app_order _ _ _ Hsorted j i Hjf Hi).
      * intros H1. lia.
Qed.

(** The insertion sort of [np_argsort] returns the indices in ascending
    order of mass. *)
Lemma insert_idx_Permutation : forall key i l,
  Permutation (insert_idx key i l) (i :: l).
Proof.
  intros key i l. induction l as [|j t IH]; cbn [insert_idx]; [reflexivity|].
  destruct (sort_before (key j) (key i)); [|reflexivity].
  eapply perm_trans; [apply perm_skip; exact IH | apply perm_swap].
Qed.

Lemma np_argsort_Permutation : forall mass,
  Permutation (np_argsort mass) (seq 0 (length mass)).
Proof.
  intros mass. unfold np_argsort. generalize (seq 0 (length mass)) as l.
  induction l as [|i l IH]; cbn [fold_right]; [reflexivity|].
  eapply perm_trans; [apply insert_idx_Permutation | apply perm_skip; exact IH].
Qed.

Section SortFinite.

Variable qs : list Q.
Let mass := map Fl.Fin qs.
Let key := fun i => nth i mass Fl.NaN.
Let n := length qs.

Lemma sort_before_false : forall i j, (i < n)%nat -> (j < n)%nat ->
  sort_before (key j) (key i) = false -> mass_le mass i j.
Proof.
  intros i j Hi Hj H. unfold mass_le, key, mass in *.
  rewrite !nth_map_Fin in * by assumption.
  unfold sort_before in H. cbn [isnan negb andb] in H. rewrite orb_false_r in H.
  apply leb_fin. destruct (Qlt_le_dec (nth j qs 0%Q) (nth i qs 0%Q)) as [Hc|Hc];
    [|exact Hc].
  apply ltb_fin in Hc. congruence.
Qed.

Lemma sort_before_true : forall i j, (i < n)%nat -> (j < n)%nat ->
  sort_before (key j) (key i) = true -> mass_le mass j i.
Proof.
  intros i j Hi Hj H. unfold mass_le, key, mass in *.
  rewrite !nth_map_Fin in * by assumption.
  unfold sort_before in H. cbn [isnan negb andb] in H. rewrite orb_false_r in H.
  apply leb_fin. apply Qlt_le_weak. apply ltb_fin. exact H.
Qed.

Lemma mass_le_trans : forall i j k, (i < n)%nat -> (j < n)%nat -> (k < n)%nat ->
  mass_le mass i j -> mass_le mass j k -> mass_le mass i k.
Proof.
  intros i j k Hi Hj Hk. unfold mass_le, mass.
  rewrite !nth_map_Fin by assumption. rewrite !leb_fin. apply Qle_trans.
Qed.

Lemma insert_idx_sorted : forall l i,
  (i < n)%nat -> Forall (fun j => (j < n)%nat) l ->
  StronglySorted (mass_le mass) l ->
  StronglySorted (mass_le mass) (insert_idx key i l).
Proof.
  induction l as [|j t IH]; intros i Hi Hall HS; cbn [insert_idx].
  - repeat constructor.
  - apply StronglySorted_inv in HS. destruct HS as [HSt Hjt].
    inversion Hall as [|j' t' Hj Ht]; subst.
    destruct (sort_before (key j) (key i)) eqn:E.
    + constructor; [apply IH; assumption|].
      apply Forall_forall. intros x Hx.
      apply (Permutation_in _ (insert_idx_Permutation key i t)) in Hx.
      destruct Hx as [<-|Hx].
      * apply sort_before_true; assumption.
      * rewrite Forall_forall in Hjt. apply Hjt. exact Hx.
    + assert (Hij : mass_le mass i j) by (apply sort_before_false; assumption).
      constructor; [constructor; assumption|].
      constructor; [exact Hij|].
      apply Forall_forall. intros x Hx.
      rewrite Forall_forall in Hjt, Ht.
      apply (mass_le_trans i j x); auto.
Qed.

Lemma np_argsort_sorted : StronglySorted (mass_le mass) (np_argsort mass).
Proof.
  unfold np_argsort. fold key.
  assert (Hall : Forall (fun j => (j < n)%nat) (seq 0 (length mass))).
  { apply Forall_forall. intros j Hj. apply in_seq in Hj.
    unfold mass in Hj. rewrite length_map in Hj. unfold n. lia. }
  revert Hall. generalize (seq 0 (length mass)) as l.
  induction l as [|i l IH]; intros Hall; cbn [fold_right]; [constructor|].
  inversion Hall as [|i' l' Hi Hl]; subst.
  apply insert_idx_sorted; [exact Hi| |apply IH; exact Hl].
  apply Forall_forall. intros x Hx.
  assert (Hp : Permutation (fold_right (insert_idx key) [] l) l).
  { clear. induction l as [|a l IHl]; cbn [fold_right]; [reflexivity|].
    eapply perm_trans; [apply insert_idx_Permutation | apply perm_skip; exact IHl]. }
  apply (Permutation_in _ Hp) in Hx.
  rewrite Forall_forall in Hl. apply Hl. exact Hx.
Qed.

End SortFinite.

(** C7, amended. When [topn] is a positive number: if no more features
    survive filtering than [topn], all are kept; otherwise exactly [topn]
    features are kept and none of them is dimmer than a feature that is
    dropped; when [topn = 1] the feature kept is the first, in input order,
    of the brightest. *)
Theorem topn_keeps_brightest :
  forall topn refined_coords exact_mass,
    length exact_mass = length refined_coords ->
    forallb is_finite exact_mass = true ->
    1 <= topn ->
    let kept := select_topn np_argsort (Some topn) refined_coords exact_mass in
    (Z.of_nat (length refined_coords) <= topn -> kept = refined_coords) /\
    (topn < Z.of_nat (length refined_coords) ->
     exists idx,
       kept = take_rows refined_coords idx /\
       NoDup idx /\
       Z.of_nat (length idx) = topn /\
       (forall i, In i idx -> (i < length refined_coords)%nat) /\
       (forall i j, In i idx -> (j < length refined_coords)%nat -> ~ In j idx ->
                    mass_le exact_mass j i) /\
       (topn = 1 ->
        forall i j, In i idx -> (j < i)%nat ->
                    Fl.ltb (nth j exact_mass Fl.NaN) (nth i exact_mass Fl.NaN) = true)).
Proof.
  intros topn rows mass Hlen Hfin Htopn.
  apply select_topn_any_sort; try assumption.
  - apply np_argsort_Permutation.
  - destruct (finite_list mass Hfin) as [qs ->]. apply np_argsort_sorted.
Qed.

Lemma topn_keeps_brightest_witness :
  exists idx,
    select_topn np_argsort (Some 2) three_rows (column 2 three_rows)
    = take_rows three_rows idx /\
    NoDup idx /\
    Z.of_nat (length idx) = 2 /\
    (forall i, In i idx -> (i < length three_rows)%nat) /\
    (forall i j, In i idx -> (j < length three_rows)%nat -> ~ In j idx ->
                 mass_le (column 2 three_rows) j i) /\
    (2 = 1 ->
     forall i j, In i idx -> (j < i)%nat ->
                 Fl.ltb (nth j (column 2 three_rows) Fl.NaN)
                        (nth i (column 2 three_rows) Fl.NaN) = true).
Proof.
  apply (proj2 (topn_keeps_brightest 2 three_rows (column 2 three_rows)
                  eq_refl eq_refl ltac:(lia))).
  reflexivity.
Defined.

(** The selection on [three_rows]: the rows of mass 5 and 9, in ascending
    order of mass. *)
Example topn_sample :
  select_topn np_argsort (Some 2) three_rows (column 2 three_rows)
  = [nth 2 three_rows []; nth 1 three_rows []].
Proof. vm_compute. reflexivity. Qed.

(* ------------------------------------------------------------------ *)
(** ** More on the peak detector *)

Lemma range_bounds : forall n i, In i (range n) -> 0 <= i < n.
Proof.
  intros n i H. unfold range in H. apply in_map_iff in H.
  destruct H as [k [<- Hk]]. apply in_seq in Hk. lia.
Qed.

Lemma range_NoDup : forall n, NoDup (range n).
Proof.
  intros n. unfold range. apply NoDup_map_NoDup_ForallPairs; [|apply seq_NoDup].
  intros a b _ _ H. apply Nat2Z.inj. exact H.
Qed.

Lemma indices_in_bounds : forall shp x,
  In x (indices shp) -> in_bounds shp x = true.
Proof.
  unfold in_bounds. induction shp as [|n rest IH]; cbn [indices]; intros x Hx.
  - destruct Hx as [<-|[]]. reflexivity.
  - apply in_flat_map in Hx. destruct Hx as [i [Hi Hx]].
    apply in_map_iff in Hx. destruct Hx as [y [<- Hy]].
    apply range_bounds in Hi. specialize (IH y Hy).
    apply andb_true_iff in IH. destruct IH as [IH1 IH2].
    cbn [length combine forallb]. apply andb_true_iff. split.
    + cbn. exact IH1.
    + rewrite IH2, andb_true_r. apply andb_true_iff. split.
      * apply Z.leb_le. lia.
      * apply Z.ltb_lt. lia.
Qed.

Lemma indices_NoDup : forall shp, NoDup (indices shp).
Proof.
  induction shp as [|n rest IH]; cbn [indices].
  - repeat constructor. intros [].
  - generalize (range_NoDup n). generalize (range n) as l.
    induction l as [|i l IHl]; intros Hl; cbn [flat_map]; [constructor|].
    inversion Hl as [|i' l' Hni Hl']; subst.
    apply NoDup_app. repeat split.
    + apply NoDup_map_NoDup_ForallPairs; [|exact IH].
      intros a b _ _ H. inversion H. reflexivity.
    + apply IHl. exact Hl'.
    + intros x Hx Hx'. apply in_map_iff in Hx. destruct Hx as [y [<- _]].
      apply in_flat_map in Hx'. destruct Hx' as [j [Hj Hx']].
      apply in_map_iff in Hx'. destruct Hx' as [z [Hz _]].
      inversion Hz; subst. contradiction.
Qed.

(** X3. [local_maxima] warns exactly when it returns no coordinate. *)
Theorem local_maxima_warns_iff_empty :
  forall percentile_value img nan_at radius percentile margin w coords,
    local_maxima percentile_value img nan_at radius percentile margin = Ok w coords ->
    (coords = [] <-> w <> []).
Proof.
  intros percentile_value img nan_at radius percentile margin w coords.
  unfold local_maxima.
  destruct (percentile_threshold_cases percentile_value img nan_at percentile)
    as [->|[threshold ->]]; [discriminate|].
  rewrite bind_ret_l.
  destruct (isnan threshold).
  { cbn. intros H. inversion H. split; [discriminate | reflexivity]. }
  destruct (dtype img); [|discriminate].
  destruct (filter _ (indices (shape img))) as [|x0 maxima].
  { cbn. intros H. inversion H. split; [discriminate | reflexivity]. }
  destruct (negb _); [discriminate|].
  destruct (filter _ (x0 :: maxima)) as [|y0 ys].
  { cbn. intros H. inversion H. split; [discriminate | reflexivity]. }
  cbn. intros H. inversion H. split; [discriminate | congruence].
Qed.

Lemma local_maxima_warns_iff_empty_witness :
  ([[3; 3]; [3; 4]] = [] <-> @nil warning <> []).
Proof.
  apply (local_maxima_warns_iff_empty sample_percentile two_pixels no_nan [2; 2] 64 None).
  vm_compute. reflexivity.
Defined.

(** X4. No coordinate is returned twice. *)
Theorem local_maxima_NoDup :
  forall percentile_value img nan_at radius percentile margin w coords,
    local_maxima percentile_value img nan_at radius percentile margin = Ok w coords ->
    NoDup coords.
Proof.
  intros percentile_value img nan_at radius percentile margin w coords.
  unfold local_maxima.
  destruct (percentile_threshold_cases percentile_value img nan_at percentile)
    as [->|[threshold ->]]; [discriminate|].
  rewrite bind_ret_l.
  destruct (isnan threshold).
  { cbn. intros H. inversion H. constructor. }
  destruct (dtype img); [|discriminate].
  set (maxima := filter _ (indices (shape img))).
  assert (Hnd : NoDup maxima) by (apply NoDup_filter; apply indices_NoDup).
  destruct maxima as [|x0 maxima'] eqn:Emax.
  { cbn. intros H. inversion H. constructor. }
  destruct (negb _); [discriminate|].
  pose proof (NoDup_filter (fun x => negb (near_edge (shape img)
                 (match margin with None => radius | Some m => m end) x)) Hnd) as Hf.
  destruct (filter _ (x0 :: maxima')) as [|y0 ys] eqn:Ef.
  { cbn. intros H. inversion H. constructor. }
  cbn. intros H. inversion H. subst coords. exact Hf.
Qed.

Lemma local_maxima_NoDup_witness : NoDup [[3; 3]; [3; 4]].
Proof.
  apply (local_maxima_NoDup sample_percentile two_pixels no_nan [2; 2] 64 None []).
  vm_compute. reflexivity.
Defined.

(* ------------------------------------------------------------------ *)
(** ** The centre of mass lies in the window *)

Lemma in_bounds_nth : forall shp x,
  in_bounds shp x = true ->
  forall k, (k < length shp)%nat -> 0 <= nth k x 0 < nth k shp 0.
Proof.
  unfold in_bounds. induction shp as [|n rest IH]; intros x H k Hk;
    [simpl in Hk; lia|].
  apply andb_true_iff in H. destruct H as [Hlen Hall].
  destruct x as [|xk x]; [discriminate Hlen|].
  cbn [combine forallb] in Hall. apply andb_true_iff in Hall.
  destruct Hall as [Hhd Htl]. destruct k as [|k]; cbn [nth].
  - apply andb_true_iff in Hhd. destruct Hhd as [H1 H2].
    apply Z.leb_le in H1. apply Z.ltb_lt in H2. lia.
  - apply IH; [|simpl in Hk; lia].
    apply andb_true_iff. split; [exact Hlen | exact Htl].
Qed.

Lemma mask_shape_nth : forall radius k, (k < length radius)%nat ->
  nth k (mask_shape radius) 0 = 2 * nth k radius 0 + 1.
Proof.
  intros radius k Hk. unfold mask_shape.
  rewrite (nth_indep _ 0 (2 * 0 + 1)) by (rewrite length_map; exact Hk).
  apply (map_nth (fun r => 2 * r + 1)).
Qed.

Lemma fold_Qplus_nonneg : forall (l : list Q) (acc : Q),
  (0 <= acc)%Q -> (forall a, In a l -> (0 <= a)%Q) ->
  (0 <= fold_left Qplus l acc)%Q.
Proof.
  induction l as [|a l IH]; intros acc Hacc Hl; cbn [fold_left]; [exact Hacc|].
  apply IH.
  - assert (0 <= a)%Q by (apply Hl; left; reflexivity). lra.
  - intros b Hb. apply Hl. right. exact Hb.
Qed.

(** A weighted sum of values in [0, R] with non-negative weights lies
    between 0 and [R] times the sum of the weights. *)
Lemma weighted_sum_bounds {A} (x k : A -> Q) (R : Q) : forall (l : list A) (s n : Q),
  (0 <= s)%Q -> (s <= R * n)%Q ->
  (forall a, In a l -> (0 <= x a)%Q /\ (0 <= k a)%Q /\ (k a <= R)%Q) ->
  (0 <= fold_left Qplus (map (fun a => x a * k a) l) s)%Q /\
  (fold_left Qplus (map (fun a => x a * k a) l) s
   <= R * fold_left Qplus (map x l) n)%Q.
Proof.
  induction l as [|a l IH]; intros s n Hs Hsn Hl; cbn [map fold_left].
  - split; assumption.
  - destruct (Hl a (or_introl eq_refl)) as [Hx [Hk HkR]].
    apply IH.
    + nra.
    + nra.
    + intros b Hb. apply Hl. right. exact Hb.
Qed.

(** X7. For a neighbourhood without negative entries, every coordinate of
    the centre of mass lies between 0 and [2 r_k], the extent of the window
    on its axis; this covers the zero-mass default. *)
Theorem center_of_mass_in_window :
  forall (x : nbhd) (radius : list Z),
    (forall i, In i (indices (mask_shape radius)) -> (0 <= x i)%Q) ->
    (forall r, In r radius -> 0 <= r) ->
    forall k, (k < length radius)%nat ->
      (0 <= nth k (_safe_center_of_mass x radius) 0)%Q /\
      (nth k (_safe_center_of_mass x radius) 0 <= inject_Z (2 * nth k radius 0%Z)%Z)%Q.
Proof.
  intros x radius Hx Hr k Hk. unfold _safe_center_of_mass.
  assert (Hrk : 0 <= nth k radius 0) by (apply Hr; apply nth_In; exact Hk).
  destruct (Qeq_bool (arr_sum (mask_shape radius) x) 0) eqn:E.
  - unfold injZ. rewrite (nth_indep _ 0%Q (inject_Z 0)) by (rewrite length_map; exact Hk).
    rewrite (map_nth inject_Z). change 0%Q with (inject_Z 0).
    rewrite <- !Zle_Qle. lia.
  - rewrite (nth_indep _ 0%Q
               ((fun dim => (arr_sum (mask_shape radius)
                              (fun i => x i * inject_Z (nth dim i 0%Z))
                             / arr_sum (mask_shape radius) x)%Q) 0%nat))
      by (rewrite length_map, length_seq; exact Hk).
    rewrite (map_nth (fun dim => (arr_sum (mask_shape radius)
                                    (fun i => x i * inject_Z (nth dim i 0%Z))
                                  / arr_sum (mask_shape radius) x)%Q)).
    rewrite seq_nth by exact Hk. cbn [Nat.add].
    unfold arr_sum, sumQ in *.
    set (l := indices (mask_shape radius)) in *.
    assert (Hn0 : (0 <= fold_left Qplus (map x l) 0)%Q).
    { apply fold_Qplus_nonneg; [lra|]. intros a Ha.
      apply in_map_iff in Ha. destruct Ha as [i [<- Hi]]. apply Hx. exact Hi. }
    assert (Hpos : (0 < fold_left Qplus (map x l) 0)%Q).
    { apply Qle_lteq in Hn0. destruct Hn0 as [Hlt|Heq]; [exact Hlt|].
      symmetry in Heq. apply Qeq_bool_iff in Heq. congruence. }
    destruct (weighted_sum_bounds x (fun i => inject_Z (nth k i 0))
                (inject_Z (2 * nth k radius 0)) l 0%Q 0%Q) as [Hlo Hhi].
    + lra.
    + lra.
    + intros i Hi. split; [apply Hx; exact Hi|].
      apply indices_in_bounds in Hi.
      pose proof (in_bounds_nth _ _ Hi k) as Hb.
      unfold mask_shape in Hb at 1. rewrite length_map in Hb.
      specialize (Hb Hk). rewrite mask_shape_nth in Hb by exact Hk.
      change 0%Q with (inject_Z 0). rewrite <- !Zle_Qle. lia.
    + split.
      * apply Qle_shift_div_l; [exact Hpos|]. lra.
      * apply Qle_shift_div_r; [exact Hpos|]. exact Hhi.
Qed.

Lemma center_of_mass_in_window_witness :
  let radius := [2; 2] in
  (0 <= nth 1 (_safe_center_of_mass (neighborhood sample_st0) radius) 0)%Q /\
  (nth 1 (_safe_center_of_mass (neighborhood sample_st0) radius) 0
   <= inject_Z (2 * nth 1 radius 0%Z)%Z)%Q.
Proof.
  intros radius.
  apply (center_of_mass_in_window (neighborhood sample_st0) [2; 2]).
  - intros i Hi. vm_compute in Hi.
    repeat (destruct Hi as [<-|Hi]; [vm_compute; discriminate|]). destruct Hi.
  - intros r [<-|[<-|[]]]; lia.
  - cbn. lia.
Defined.

(* ------------------------------------------------------------------ *)
(** ** Whole-pixel moves stay inside the image *)

Lemma nth_map_combine {A B C} (f : A * B -> C) :
  forall (a : list A) (b : list B) k da db dc,
    (k < length a)%nat -> (k < length b)%nat ->
    nth k (map f (combine a b)) dc = f (nth k a da, nth k b db).
Proof.
  induction a as [|x a IH]; intros b k da db dc Ha Hb; [simpl in Ha; lia|].
  destruct b as [|y b]; [simpl in Hb; lia|].
  destruct k as [|k]; [reflexivity|].
  cbn [combine map nth]. apply IH; simpl in *; lia.
Qed.

Lemma forallb_combine3 (P : Z -> Z -> Z -> bool) :
  forall la lb lc,
    length la = length lc -> length lb = length lc ->
    (forallb (fun '(a, (b, c)) => P a b c) (combine la (combine lb lc)) = true <->
     forall k, (k < length lc)%nat -> P (nth k la 0) (nth k lb 0) (nth k lc 0) = true).
Proof.
  induction la as [|a la IH]; intros lb lc Ha Hb.
  - destruct lc; [|discriminate Ha]. split; [intros _ k Hk; simpl in Hk; lia|reflexivity].
  - destruct lc as [|c lc]; [discriminate Ha|].
    destruct lb as [|b lb]; [discriminate Hb|].
    cbn [combine forallb]. rewrite andb_true_iff.
    rewrite (IH lb lc) by (simpl in *; lia). split.
    + intros [H0 Hrest] [|k] Hk; [exact H0|]. apply Hrest. simpl in Hk. lia.
    + intros H. split; [exact (H 0%nat ltac:(simpl; lia))|].
      intros k Hk. apply (H (S k)). simpl. lia.
Qed.

Lemma window_ok_iff : forall shp radius c,
  window_ok shp radius c = true <->
  length c = length shp /\ length radius = length shp /\
  forall k, (k < length shp)%nat ->
            nth k radius 0 <= nth k c 0 /\ nth k c 0 + nth k radius 0 < nth k shp 0.
Proof.
  intros shp radius c. unfold window_ok. rewrite !andb_true_iff, !Nat.eqb_eq.
  split.
  - intros [[Hc Hr] Hall]. split; [exact Hc|]. split; [exact Hr|].
    rewrite (forallb_combine3 (fun ck rk nk => (rk <=? ck) && (ck + rk <? nk)))
      in Hall by assumption.
    intros k Hk. specialize (Hall k Hk). apply andb_true_iff in Hall.
    destruct Hall as [H1 H2]. apply Z.leb_le in H1. apply Z.ltb_lt in H2. auto.
  - intros [Hc [Hr Hall]]. split; [split; assumption|].
    apply (forallb_combine3 (fun ck rk nk => (rk <=? ck) && (ck + rk <? nk)));
      [assumption | assumption |].
    intros k Hk. destruct (Hall k Hk) as [H1 H2].
    apply andb_true_iff. split; [apply Z.leb_le | apply Z.ltb_lt]; assumption.
Qed.

Lemma np_clip_between : forall q lo hi a b : Q,
  (lo <= hi)%Q -> (a <= q)%Q -> (q <= b)%Q -> (a <= hi)%Q -> (lo <= b)%Q ->
  (a <= np_clip q lo hi)%Q /\ (np_clip q lo hi <= b)%Q /\
  (lo <= np_clip q lo hi)%Q /\ (np_clip q lo hi <= hi)%Q.
Proof.
  intros q lo hi a b Hlh Haq Hqb Hah Hlb. unfold np_clip, Qminb, Qmaxb.
  destruct (Qle_bool q lo) eqn:E1.
  - apply Qle_bool_iff in E1.
    destruct (Qle_bool lo hi) eqn:E2.
    + repeat split; lra.
    + apply Qle_bool_iff in Hlh. congruence.
  - apply Qle_bool_total in E1. apply Qle_bool_iff in E1.
    destruct (Qle_bool q hi) eqn:E2.
    + apply Qle_bool_iff in E2. repeat split; lra.
    + apply Qle_bool_total in E2. apply Qle_bool_iff in E2. repeat split; lra.
Qed.

Lemma Qtrunc_between : forall (q : Q) (lo hi : Z),
  (inject_Z lo <= q)%Q -> (q <= inject_Z hi)%Q -> lo <= Qtrunc q <= hi.
Proof.
  intros q lo hi Hlo Hhi.
  pose proof (Qfloor_resp_le _ _ Hlo) as H1. rewrite Qfloor_Z in H1.
  pose proof (Qceiling_resp_le _ _ Hhi) as H2. rewrite Qceiling_Z in H2.
  pose proof (Qle_floor_ceiling q) as H3. rewrite <- Zle_Qle in H3.
  unfold Qtrunc. destruct (Qnum q <? 0); lia.
Qed.

Lemma safe_center_of_mass_length : forall x radius,
  length (_safe_center_of_mass x radius) = length radius.
Proof.
  intros x radius. unfold _safe_center_of_mass.
  destruct (Qeq_bool _ 0).
  - unfold injZ. apply length_map.
  - rewrite length_map, length_seq. reflexivity.
Qed.

Lemma qsub_length : forall a b, length (qsub a b) = Nat.min (length a) (length b).
Proof. intros a b. unfold qsub. rewrite length_map, length_combine. reflexivity. Qed.

Lemma qadd_length : forall a b, length (qadd a b) = Nat.min (length a) (length b).
Proof. intros a b. unfold qadd. rewrite length_map, length_combine. reflexivity. Qed.

Section WalkProperties.

Variable image_ : image.
Variable radius : list Z.
Variable st : rstate.

Hypothesis coord_length : length (coord st) = length radius.
Hypothesis cm_n_length : length (cm_n st) = length radius.
Hypothesis image_fits : Forall2 (fun r n => 2 * r + 1 <= n) radius (shape image_).

Let L := length radius.
Let off := off_center radius st.
Let moved := map (fun '(c, d) =>
                    let c1 := if Qltb SHIFT_THRESH d then (c + 1)%Q else c in
                    if Qltb d (- SHIFT_THRESH) then (c1 - 1)%Q else c1)
                 (combine (coord st) off).
Let upper_bound := map (fun '(n, r) => n - 1 - r) (combine (shape image_) radius).
Let new_coord := map (fun '(c, (lo, hi)) =>
                        Qtrunc (np_clip c (inject_Z lo) (inject_Z hi)))
                     (combine moved (combine radius upper_bound)).

Lemma shape_length : length (shape image_) = L.
Proof. symmetry. exact (Forall2_length image_fits). Qed.

Lemma image_fits_nth : forall k, (k < L)%nat ->
  2 * nth k radius 0 + 1 <= nth k (shape image_) 0.
Proof.
  pose proof image_fits as HF. unfold L. clear -HF.
  induction HF as [|r n lr ln Hrn HF IH]; intros k Hk; [simpl in Hk; lia|].
  destruct k as [|k]; [exact Hrn|]. cbn [nth]. apply IH. simpl in Hk. lia.
Qed.

Lemma off_length : length off = L.
Proof.
  unfold off, off_center. rewrite qsub_length. unfold injZ.
  rewrite length_map, cm_n_length. apply Nat.min_id.
Qed.

Lemma moved_length : length moved = L.
Proof.
  unfold moved. rewrite length_map, length_combine, coord_length, off_length.
  apply Nat.min_id.
Qed.

Lemma upper_bound_length : length upper_bound = L.
Proof.
  unfold upper_bound. rewrite length_map, length_combine, shape_length.
  apply Nat.min_id.
Qed.

Lemma new_coord_length : length new_coord = L.
Proof.
  unfold new_coord.
  rewrite length_map, !length_combine, moved_length, upper_bound_length.
  fold L. rewrite !Nat.min_id. reflexivity.
Qed.

Lemma upper_bound_nth : forall k, (k < L)%nat ->
  nth k upper_bound 0 = nth k (shape image_) 0 - 1 - nth k radius 0.
Proof.
  intros k Hk. unfold upper_bound.
  rewrite (nth_map_combine _ _ _ k 0 0 0); [reflexivity | rewrite shape_length; exact Hk | exact Hk].
Qed.

Lemma new_coord_nth : forall k, (k < L)%nat ->
  nth k new_coord 0 =
  Qtrunc (np_clip (nth k moved 0%Q) (inject_Z (nth k radius 0))
                  (inject_Z (nth k (shape image_) 0 - 1 - nth k radius 0))).
Proof.
  intros k Hk. unfold new_coord.
  rewrite (nth_map_combine _ _ _ k 0%Q (0, 0) 0).
  - rewrite (combine_nth radius upper_bound k 0 0)
      by (rewrite upper_bound_length; reflexivity).
    rewrite upper_bound_nth by exact Hk. reflexivity.
  - rewrite moved_length. exact Hk.
  - rewrite length_combine, upper_bound_length. fold L. rewrite Nat.min_id. exact Hk.
Qed.

Lemma new_coord_window_ok : window_ok (shape image_) radius new_coord = true.
Proof.
  apply window_ok_iff. rewrite new_coord_length, shape_length.
  split; [reflexivity|]. split; [reflexivity|].
  intros k Hk. rewrite new_coord_nth by exact Hk.
  pose proof (image_fits_nth k Hk) as Hfit.
  set (lo := nth k radius 0) in *.
  set (hi := nth k (shape image_) 0 - 1 - lo).
  assert (Hlh : (inject_Z lo <= inject_Z hi)%Q)
    by (rewrite <- Zle_Qle; unfold hi; lia).
  set (q := nth k moved 0%Q).
  destruct (np_clip_between q (inject_Z lo) (inject_Z hi)
              (Qminb q (inject_Z hi)) (Qmaxb q (inject_Z lo)) Hlh)
    as [_ [_ [H3 H4]]].
  - unfold Qminb. destruct (Qle_bool q (inject_Z hi)) eqn:E; [lra|].
    apply Qle_bool_total in E. apply Qle_bool_iff in E. exact E.
  - unfold Qmaxb. destruct (Qle_bool q (inject_Z lo)) eqn:E; [|lra].
    apply Qle_bool_iff in E. exact E.
  - unfold Qminb. destruct (Qle_bool q (inject_Z hi)) eqn:E; [|lra].
    apply Qle_bool_iff in E. exact E.
  - unfold Qmaxb. destruct (Qle_bool q (inject_Z lo)) eqn:E; [lra|].
    apply Qle_bool_total in E. apply Qle_bool_iff in E. exact E.
  - pose proof (Qtrunc_between _ lo hi H3 H4) as Hb. unfold hi in *. lia.
Qed.

(** Whatever the centroid offset, when the image is at least as large as the
    mask on every axis the move succeeds, the new window lies inside the
    image, and moves stay allowed or disallowed as they were. *)
Lemma walk_succeeds :
  exists st',
    walk image_ radius st = Ok [] st' /\
    window_ok (shape image_) radius (rect st') = true /\
    coord st' = injZ (rect st') /\
    length (cm_n st') = length radius /\
    length (cm_i st') = length radius /\
    allow_moves st' = allow_moves st.
Proof.
  unfold walk. fold off. fold moved. fold upper_bound. fold new_coord.
  unfold masked_window. rewrite new_coord_window_ok. cbn [bind ret app].
  eexists. split; [reflexivity|]. cbn [rect coord cm_n cm_i allow_moves].
  split; [apply new_coord_window_ok|]. split; [reflexivity|].
  split; [apply safe_center_of_mass_length|]. split; [|reflexivity].
  rewrite qadd_length, qsub_length, safe_center_of_mass_length.
  unfold injZ. rewrite !length_map, new_coord_length. fold L.
  rewrite !Nat.min_id. reflexivity.
Qed.

Hypothesis on_grid : coord st = injZ (rect st).
Hypothesis inside : window_ok (shape image_) radius (rect st) = true.

Lemma moved_nth_close : forall k, (k < L)%nat ->
  (inject_Z (nth k (rect st) 0%Z - 1)%Z <= nth k moved 0%Q)%Q /\
  (nth k moved 0%Q <= inject_Z (nth k (rect st) 0%Z + 1)%Z)%Q.
Proof.
  intros k Hk.
  assert (Hc : nth k (coord st) 0%Q = inject_Z (nth k (rect st) 0)).
  { rewrite on_grid. unfold injZ. apply (map_nth inject_Z). }
  unfold moved.
  rewrite (nth_map_combine _ _ _ k 0%Q 0%Q 0%Q)
    by (rewrite ?coord_length, ?off_length; exact Hk).
  rewrite Hc. unfold Z.sub. rewrite !inject_Z_plus. change (inject_Z (Z.opp 1)) with (- (1))%Q.
  change (inject_Z 1) with 1%Q.
  destruct (Qltb SHIFT_THRESH _), (Qltb _ (- SHIFT_THRESH)); split; lra.
Qed.

(** X5. A whole-pixel move from an anchor inside the image never leaves the
    image and never jumps: whatever the centroid offset, the new window lies
    inside the image and the anchor changes by at most one pixel on every
    axis. *)
Theorem walk_moves_one_pixel :
  forall w st', walk image_ radius st = Ok w st' ->
  window_ok (shape image_) radius (rect st') = true /\
  forall k, (k < length radius)%nat ->
            Z.abs (nth k (rect st') 0 - nth k (rect st) 0) <= 1.
Proof.
  intros w st' Hwalk.
  assert (Hrect : rect st' = new_coord).
  { revert Hwalk. unfold walk. fold off. fold moved. fold upper_bound. fold new_coord.
    unfold masked_window. rewrite new_coord_window_ok. cbn [bind ret app].
    intros H. inversion H. reflexivity. }
  split; [rewrite Hrect; apply new_coord_window_ok|].
  intros k Hk.
  rewrite Hrect, new_coord_nth by exact Hk.
  apply window_ok_iff in inside. destruct inside as [_ [_ Hin]].
  rewrite shape_length in Hin. destruct (Hin k Hk) as [Hlo Hhi].
  destruct (moved_nth_close k Hk) as [Ha Hb].
  set (c := nth k (rect st) 0) in *.
  set (q := nth k moved 0%Q) in *.
  destruct (np_clip_between q (inject_Z (nth k radius 0))
              (inject_Z (nth k (shape image_) 0 - 1 - nth k radius 0))
              (inject_Z (c - 1)) (inject_Z (c + 1))) as [H1 [H2 _]];
    try assumption; try (rewrite <- Zle_Qle; lia).
  pose proof (Qtrunc_between _ _ _ H1 H2). lia.
Qed.

End WalkProperties.

Lemma walk_moves_one_pixel_witness :
  window_ok (shape two_pixels) [2; 2] (rect sample_st1) = true /\
  forall k, (k < length [2; 2])%nat ->
            Z.abs (nth k (rect sample_st1) 0 - nth k (rect sample_st0) 0) <= 1.
Proof.
  apply (walk_moves_one_pixel two_pixels [2; 2] sample_st0
           eq_refl eq_refl ltac:(repeat constructor; cbn; lia) eq_refl eq_refl
           [] sample_st1).
  vm_compute. reflexivity.
Defined.

(* ------------------------------------------------------------------ *)
(** ** The Python engine does not raise on candidates inside the image *)

Lemma Forall2_of_nth (R : Z -> Z -> Prop) : forall a b,
  length a = length b ->
  (forall k, (k < length a)%nat -> R (nth k a 0) (nth k b 0)) ->
  Forall2 R a b.
Proof.
  induction a as [|x a IH]; intros [|y b] Hlen H; try discriminate Hlen.
  - constructor.
  - constructor.
    + exact (H 0%nat ltac:(simpl; lia)).
    + apply IH; [simpl in Hlen; lia|].
      intros k Hk. apply (H (S k)). simpl. lia.
Qed.

Lemma window_ok_image_fits : forall shp radius c,
  window_ok shp radius c = true ->
  Forall2 (fun r n => 2 * r + 1 <= n) radius shp.
Proof.
  intros shp radius c H. apply window_ok_iff in H. destruct H as [Hc [Hr Hall]].
  apply Forall2_of_nth; [exact Hr|].
  intros k Hk. rewrite Hr in Hk. destruct (Hall k Hk). lia.
Qed.

Lemma mapM_total {A B} (f : A -> result B) (P : A -> Prop) (Q : B -> Prop) :
  (forall a, P a -> exists b, f a = Ok [] b /\ Q b) ->
  forall l, Forall P l ->
  exists bs, mapM f l = Ok [] bs /\ length bs = length l /\ Forall Q bs.
Proof.
  intros Hf. induction l as [|a l IH]; intros HP.
  - exists []. repeat split. constructor.
  - inversion HP as [|a' l' Ha Hl]; subst.
    destruct (Hf a Ha) as [b [Hb HQ]]. destruct (IH Hl) as [bs [Hbs [Hlen HQs]]].
    exists (b :: bs). cbn [mapM]. rewrite Hb. cbn [bind]. rewrite Hbs.
    cbn [bind ret app]. repeat split.
    + simpl. lia.
    + constructor; assumption.
Qed.

Section PythonTotal.

Variable ndimage_shift : list Z -> nbhd -> list Q -> nbhd.
Variable sqrtQ : Q -> Q.
Variable cosmask sinmask : Z -> index -> Q.
Variable raw_image image_ : image.
Variable radius : list Z.

Hypothesis same_shape : shape raw_image = shape image_.

Lemma iterate_total : forall n st,
  loop_invariant image_ radius st ->
  exists st', iterate ndimage_shift image_ radius n st = Ok [] st' /\
              loop_invariant image_ radius st'.
Proof.
  induction n as [|k IH]; intros st Hinv.
  - exists st. split; [reflexivity | exact Hinv].
  - destruct Hinv as [Hwin [Hc [Hn Hi]]].
    cbn [iterate]. unfold step.
    destruct (decide_action (off_center radius st) (allow_moves st)).
    + exists st. split; [reflexivity|]. repeat split; assumption.
    + destruct (walk_succeeds image_ radius st Hc Hn
                  (window_ok_image_fits _ _ _ Hwin))
        as [st1 [Hwalk [Hwin1 [Hc1 [Hn1 [Hi1 _]]]]]].
      rewrite Hwalk. apply IH. repeat split; try assumption.
      rewrite Hc1. unfold injZ. rewrite length_map.
      apply window_ok_iff in Hwin1. destruct Hwin1 as [H1 [H2 _]]. congruence.
    + cbn [ret]. apply IH. unfold interpolate, loop_invariant.
      cbn [rect coord cm_n cm_i]. split; [exact Hwin|].
      assert (Hoff : length (off_center radius st) = length radius).
      { unfold off_center. rewrite qsub_length. unfold injZ.
        rewrite length_map, Hn. apply Nat.min_id. }
      repeat split.
      * rewrite qadd_length, Hc, Hoff. apply Nat.min_id.
      * apply safe_center_of_mass_length.
      * rewrite !qadd_length, qsub_length, safe_center_of_mass_length.
        unfold injZ. rewrite length_map, Hc, Hoff, !Nat.min_id. reflexivity.
Qed.

(** One candidate: the engine returns a row, with the position and the mass,
    and three more entries when characterizing. *)
Lemma refine_one_total :
  forall max_iterations characterize c,
    window_ok (shape image_) radius c = true ->
    exists r,
      refine_one ndimage_shift sqrtQ cosmask sinmask
                 raw_image image_ radius max_iterations characterize c = Ok [] r /\
      length r = row_width radius characterize.
Proof.
  intros max_iterations characterize c Hwin.
  pose proof Hwin as Hw. apply window_ok_iff in Hw. destruct Hw as [Hc [Hr _]].
  unfold refine_one, init_state, masked_window. rewrite Hwin. cbn [bind ret app].
  match goal with |- context [iterate _ _ _ _ ?s] => set (st0 := s) end.
  assert (Hinv : loop_invariant image_ radius st0).
  { unfold loop_invariant, st0. cbn [rect coord cm_n cm_i].
    split; [exact Hwin|]. unfold injZ. rewrite length_map.
    repeat split.
    - congruence.
    - apply safe_center_of_mass_length.
    - rewrite qadd_length, qsub_length, safe_center_of_mass_length.
      rewrite !length_map. replace (length c) with (length radius) by congruence.
      rewrite !Nat.min_id. reflexivity. }
  destruct (iterate_total max_iterations st0 Hinv) as [st [Hit [Hwin' [_ [_ Hi]]]]].
  rewrite Hit. cbn [bind ret app].
  unfold characterize_row, row_width.
  destruct characterize; cbn [negb].
  - unfold masked_window. rewrite same_shape, Hwin'. cbn [bind ret app].
    eexists. split; [reflexivity|].
    rewrite length_app, length_map, length_rev, Hi. reflexivity.
  - eexists. split; [reflexivity|].
    rewrite length_app, length_map, length_rev, Hi. reflexivity.
Qed.

(** X6. When every candidate has its window inside the image, the Python
    engine raises nothing, whatever the number of iterations and whether or
    not the loops converge: it returns one row per candidate, each with the
    position and the mass, and three more entries when characterizing. *)
Theorem _refine_total :
  forall coords max_iterations characterize,
    Forall (fun c => window_ok (shape image_) radius c = true) coords ->
    exists results,
      _refine ndimage_shift sqrtQ cosmask sinmask
              raw_image image_ radius coords max_iterations characterize
      = Ok [] results /\
      length results = length coords /\
      Forall (fun r => length r = row_width radius characterize) results.
Proof.
  intros coords max_iterations characterize Hall. unfold _refine.
  apply (mapM_total _ (fun c => window_ok (shape image_) radius c = true)); [|exact Hall].
  intros c Hc. apply refine_one_total. exact Hc.
Qed.

End PythonTotal.

Lemma _refine_total_witness :
  exists results,
    _refine sample_shift sample_sqrt sample_angular sample_angular
            two_pixels two_pixels [2; 2] [[3; 2]; [3; 4]] 10 false = Ok [] results /\
    length results = 2%nat /\
    Forall (fun r => length r = 3%nat) results.
Proof.
  apply (_refine_total sample_shift sample_sqrt sample_angular sample_angular
           two_pixels two_pixels [2; 2] eq_refl [[3; 2]; [3; 4]] 10%nat false).
  repeat constructor.
Defined.

(* ------------------------------------------------------------------ *)
(** ** The move of the numba engine *)

(** X8. On an axis whose extent fits a 16-bit integer and holds the mask,
    the anchor the numba engine moves to lies inside the image, and it
    differs from an anchor that was inside by at most one pixel. *)
Theorem numba_move_axis_inside :
  forall radius extent c oc,
    0 <= extent < 32768 ->
    2 * radius + 1 <= extent ->
    radius <= numba_move_axis radius extent c oc <= extent - radius - 1 /\
    (radius <= c <= extent - radius - 1 ->
     Z.abs (numba_move_axis radius extent c oc - c) <= 1).
Proof.
  intros radius extent c oc Hext Hfit. unfold numba_move_axis.
  assert (Hi : int16 extent = extent).
  { unfold int16. rewrite Z.mod_small by lia. lia. }
  rewrite Hi.
  set (n := if Fl.gtb oc (Fl.Fin SHIFT_THRESH) then c + 1
            else if Fl.ltb oc (Fl.Fin (- SHIFT_THRESH)) then c - 1 else c).
  assert (Hn : c - 1 <= n <= c + 1).
  { unfold n. destruct (Fl.gtb _ _); [lia|]. destruct (Fl.ltb _ _); lia. }
  clearbody n.
  destruct (n <? radius) eqn:E1.
  - apply Z.ltb_lt in E1.
    destruct (radius >? extent - radius - 1) eqn:E2.
    + rewrite Z.gtb_ltb in E2. apply Z.ltb_lt in E2. lia.
    + split; lia.
  - apply Z.ltb_ge in E1.
    destruct (n >? extent - radius - 1) eqn:E2; rewrite Z.gtb_ltb in E2.
    + apply Z.ltb_lt in E2. split; lia.
    + apply Z.ltb_ge in E2. split; lia.
Qed.

Lemma numba_move_axis_inside_witness :
  2 <= numba_move_axis 2 7 4 (Fl.Fin 1) <= 7 - 2 - 1 /\
  (2 <= 4 <= 7 - 2 - 1 -> Z.abs (numba_move_axis 2 7 4 (Fl.Fin 1) - 4) <= 1).
Proof.
  apply (numba_move_axis_inside 2 7 4 (Fl.Fin 1)); lia.
Defined.

(* ------------------------------------------------------------------ *)
(** ** Deduplication removes rows and does nothing else *)

Lemma subseq_refl {A} (l : list A) : subseq l l.
Proof. induction l; constructor; assumption. Qed.

Lemma subseq_trans {A} (l1 l2 l3 : list A) :
  subseq l1 l2 -> subseq l2 l3 -> subseq l1 l3.
Proof.
  intros H12 H23. revert l1 H12.
  induction H23 as [|x l2 l3 H IH|x l2 l3 H IH]; intros l1 H12.
  - exact H12.
  - constructor. apply IH. exact H12.
  - inversion H12; subst.
    + apply subseq_skip. apply IH. assumption.
    + apply subseq_keep. apply IH. assumption.
Qed.

Lemma subseq_In {A} (l1 l2 : list A) (x : A) :
  subseq l1 l2 -> In x l1 -> In x l2.
Proof.
  induction 1 as [|y l1 l2 H IH|y l1 l2 H IH]; intros Hx.
  - exact Hx.
  - right. apply IH. exact Hx.
  - destruct Hx as [->|Hx]; [left; reflexivity | right; apply IH; exact Hx].
Qed.

Lemma subseq_length {A} (l1 l2 : list A) :
  subseq l1 l2 -> (length l1 <= length l2)%nat.
Proof. induction 1; simpl; lia. Qed.

Lemma filter_combine_subseq {A B} (f : A * B -> bool) :
  forall (la : list A) (lb : list B),
    subseq (map snd (filter f (combine la lb))) lb.
Proof.
  induction la as [|a la IH]; intros lb.
  - cbn. induction lb; constructor; assumption.
  - destruct lb as [|b lb]; [constructor|].
    cbn [combine filter]. destruct (f (a, b)); cbn [map snd].
    + apply subseq_keep. apply IH.
    + apply subseq_skip. apply IH.
Qed.

Lemma np_delete_subseq {A} (rows : list A) (idx : list nat) :
  subseq (np_delete rows idx) rows.
Proof. unfold np_delete. apply filter_combine_subseq. Qed.

Lemma filter_fst_combine_subseq {A B} (f : A * B -> bool) :
  forall (la : list A) (lb : list B),
    subseq (map fst (filter f (combine la lb))) la.
Proof.
  induction la as [|a la IH]; intros lb.
  - constructor.
  - destruct lb as [|b lb].
    + cbn. apply subseq_skip. clear. induction la; constructor; assumption.
    + cbn [combine filter]. destruct (f (a, b)); cbn [map fst].
      * apply subseq_keep. apply IH.
      * apply subseq_skip. apply IH.
Qed.

Lemma boolean_mask_subseq {A} (l : list A) (condition : list bool) :
  subseq (boolean_mask l condition) l.
Proof. unfold boolean_mask. apply filter_fst_combine_subseq. Qed.

Lemma dedup_loop_subseq : forall fuel mass_index rsep results final,
  dedup_loop fuel mass_index rsep results = Some final ->
  subseq final results /\
  query_pairs (scaled_positions mass_index rsep final) = [].
Proof.
  induction fuel as [|k IH]; intros mass_index rsep results final H;
    [discriminate H|].
  cbn [dedup_loop] in H.
  destruct (query_pairs (scaled_positions mass_index rsep results)) as [|p ps] eqn:E.
  - inversion H; subst. split; [apply subseq_refl | exact E].
  - apply IH in H. destruct H as [Hsub Hnil]. split; [|exact Hnil].
    eapply subseq_trans; [exact Hsub|]. unfold dedup_pass. apply np_delete_subseq.
Qed.

(** X9. The deduplication loop only removes rows: what it returns is the
    table it was given with some rows left out, the others unchanged and in
    their order; and running it again on its result changes nothing. *)
Theorem dedup_loop_removes_only : forall fuel mass_index rsep results final,
  dedup_loop fuel mass_index rsep results = Some final ->
  subseq final results /\
  forall fuel', dedup_loop (S fuel') mass_index rsep final = Some final.
Proof.
  intros fuel mass_index rsep results final H.
  apply dedup_loop_subseq in H. destruct H as [Hsub Hnil].
  split; [exact Hsub|]. intros fuel'. cbn [dedup_loop]. rewrite Hnil. reflexivity.
Qed.

Lemma dedup_loop_removes_only_witness :
  subseq [nth 1 tie_rows []] tie_rows /\
  forall fuel', dedup_loop (S fuel') 2 tie_rsep [nth 1 tie_rows []]
                = Some [nth 1 tie_rows []].
Proof.
  apply (dedup_loop_removes_only 3 2 tie_rsep tie_rows).
  vm_compute. reflexivity.
Defined.

(* ------------------------------------------------------------------ *)
(** ** [refine]: what it returns and when it raises *)

Section RefineProperties.

Variable ndimage_shift : list Z -> nbhd -> list Q -> nbhd.
Variable sqrtQ : Q -> Q.
Variable cosmask sinmask : Z -> index -> Q.
Variable NUMBA_AVAILABLE : bool.

(** X10. Whatever the separation, the rows [refine] returns are rows the
    engine computed, unchanged and in the engine's order. *)
Theorem refine_returns_engine_rows :
  forall raw_image image_ radius coords separation max_iterations engine
         characterize walkthrough rad w results w' final,
    validate_tuple radius (ndim image_) = Ok [] rad ->
    run_engine ndimage_shift sqrtQ cosmask sinmask NUMBA_AVAILABLE
               raw_image image_ rad coords max_iterations engine
               characterize walkthrough = Ok w results ->
    refine ndimage_shift sqrtQ cosmask sinmask NUMBA_AVAILABLE
           raw_image image_ radius coords separation max_iterations engine
           characterize walkthrough = Ok w' final ->
    subseq final results.
Proof.
  intros raw_image image_ radius coords separation max_iterations engine
         characterize walkthrough rad w results w' final Hrad Hrun.
  unfold refine. rewrite Hrad. cbn [bind app]. rewrite Hrun. cbn [bind].
  destruct (all_greater_0 separation).
  - destruct (reversed_separation separation (ndim image_)) as [w1 rsep|e];
      [|discriminate]. cbn [bind].
    destruct (dedup_loop _ _ _ _) as [final'|] eqn:E; [|discriminate].
    cbn [ret]. intros H. inversion H; subst.
    apply dedup_loop_subseq in E. tauto.
  - cbn [ret]. intros H. inversion H; subst. apply subseq_refl.
Qed.

(** X11. [refine] called with a single positive number for [separation]
    raises [TypeError] once the engine has run: the number passes the guard
    and cannot be reversed. *)
Theorem refine_scalar_separation_raises :
  forall raw_image image_ radius coords s max_iterations engine
         characterize walkthrough rad w results,
    validate_tuple radius (ndim image_) = Ok [] rad ->
    run_engine ndimage_shift sqrtQ cosmask sinmask NUMBA_AVAILABLE
               raw_image image_ rad coords max_iterations engine
               characterize walkthrough = Ok w results ->
    0 < s ->
    refine ndimage_shift sqrtQ cosmask sinmask NUMBA_AVAILABLE
           raw_image image_ radius coords (Scalar s) max_iterations engine
           characterize walkthrough = Raise TypeError.
Proof.
  intros raw_image image_ radius coords s max_iterations engine
         characterize walkthrough rad w results Hrad Hrun Hs.
  unfold refine. rewrite Hrad. cbn [bind app]. rewrite Hrun. cbn [bind].
  cbn [all_greater_0]. replace (0 <? s) with true by (symmetry; apply Z.ltb_lt; exact Hs).
  reflexivity.
Qed.

(** X12. With the numba engine (named, or chosen by ['auto'] when numba is
    available), [refine] raises [NotImplementedError] for every image that
    is not two-dimensional and for every radius that differs between the two
    axes, before any candidate is looked at. *)
Theorem refine_numba_restrictions :
  forall raw_image image_ radius coords separation max_iterations engine
         characterize walkthrough rad,
    validate_tuple radius (ndim image_) = Ok [] rad ->
    engine = Numba \/ (engine = Auto /\ NUMBA_AVAILABLE = true) ->
    ndim image_ <> 2%nat \/ nth 0 rad 0 <> nth 1 rad 0 ->
    refine ndimage_shift sqrtQ cosmask sinmask NUMBA_AVAILABLE
           raw_image image_ radius coords separation max_iterations engine
           characterize walkthrough = Raise NotImplementedError.
Proof.
  intros raw_image image_ radius coords separation max_iterations engine
         characterize walkthrough rad Hrad Heng Hbad.
  unfold refine. rewrite Hrad. cbn [bind app].
  assert (Hrun : run_engine ndimage_shift sqrtQ cosmask sinmask NUMBA_AVAILABLE
                   raw_image image_ rad coords max_iterations engine
                   characterize walkthrough = Raise NotImplementedError).
  { unfold run_engine.
    assert (He : match engine with
                 | Auto => if NUMBA_AVAILABLE then Numba else Python
                 | e => e
                 end = Numba).
    { destruct Heng as [->|[-> ->]]; reflexivity. }
    rewrite He.
    destruct (ndim image_ =? 2)%nat eqn:E2; cbn [negb].
    - apply Nat.eqb_eq in E2. destruct Hbad as [Hbad|Hbad]; [contradiction|].
      apply Z.eqb_neq in Hbad. rewrite Hbad. cbn [negb].
      destruct NUMBA_AVAILABLE; reflexivity.
    - destruct NUMBA_AVAILABLE; reflexivity. }
  rewrite Hrun. reflexivity.
Qed.

End RefineProperties.

Lemma refine_returns_engine_rows_witness :
  subseq [nth 0 twin_rows []] twin_rows.
Proof.
  apply (refine_returns_engine_rows sample_shift sample_sqrt sample_angular
           sample_angular true one_pixel one_pixel (Scalar 2) [[3; 3]; [3; 3]]
           (Tuple [6; 6]) 10%nat Python false false [2; 2] [] twin_rows []
           [nth 0 twin_rows []] eq_refl);
    vm_compute; reflexivity.
Defined.

Lemma refine_scalar_separation_raises_witness :
  refine sample_shift sample_sqrt sample_angular sample_angular true
         one_pixel one_pixel (Scalar 2) [[3; 3]] (Scalar 6) 10 Python
         false false = Raise TypeError.
Proof.
  apply (refine_scalar_separation_raises sample_shift sample_sqrt sample_angular
           sample_angular true one_pixel one_pixel (Scalar 2) [[3; 3]] 6 10%nat
           Python false false [2; 2] []
           (rows_of (run_engine sample_shift sample_sqrt sample_angular
                       sample_angular true one_pixel one_pixel [2; 2] [[3; 3]]
                       10 Python false false)) eq_refl).
  - vm_compute. reflexivity.
  - lia.
Defined.

Lemma refine_numba_restrictions_witness :
  refine sample_shift sample_sqrt sample_angular sample_angular true
         one_pixel one_pixel (Tuple [2; 1]) [[3; 3]] (Scalar 0) 10 Auto
         false false = Raise NotImplementedError.
Proof.
  apply (refine_numba_restrictions sample_shift sample_sqrt sample_angular
           sample_angular true one_pixel one_pixel (Tuple [2; 1]) [[3; 3]]
           (Scalar 0) 10%nat Auto false false [2; 1] eq_refl).
  - right. split; reflexivity.
  - right. cbn. lia.
Defined.

(* ------------------------------------------------------------------ *)
(** ** The mass and size filters *)

Lemma bind_Ok_inv {A B} (m : result A) (k : A -> result B) w b :
  bind m k = Ok w b ->
  exists w1 a w2, m = Ok w1 a /\ k a = Ok w2 b /\ w = w1 ++ w2.
Proof.
  unfold bind. destruct m as [w1 a|e]; [|discriminate].
  destruct (k a) as [w2 b'|e] eqn:E; [|discriminate].
  intros H. inversion H; subst. exists w1, a, w2. auto.
Qed.

Lemma boolean_mask_map_In {A} (f : A -> bool) : forall (l : list A) x,
  In x (boolean_mask l (map f l)) -> f x = true.
Proof.
  unfold boolean_mask. induction l as [|a l IH]; intros x Hx; [contradiction|].
  cbn [map combine filter snd] in Hx. destruct (f a) eqn:E.
  - cbn [map fst] in Hx. destruct Hx as [<-|Hx]; [exact E | apply IH; exact Hx].
  - apply IH. exact Hx.
Qed.

Lemma boolean_mask_map_comm {A B} (g : A -> B) : forall (l : list A) (c : list bool),
  boolean_mask (map g l) c = map g (boolean_mask l c).
Proof.
  unfold boolean_mask. induction l as [|a l IH]; intros c; [reflexivity|].
  destruct c as [|b c]; [reflexivity|].
  cbn [map combine filter snd]. destruct b; cbn [map fst]; rewrite IH; reflexivity.
Qed.

Lemma combine_map_map {A B C} (f : A -> B) (g : A -> C) : forall l,
  combine (map f l) (map g l) = map (fun x => (f x, g x)) l.
Proof. induction l as [|a l IH]; cbn; [|rewrite IH]; reflexivity. Qed.

(** The condition of the post-filter on one row: the mass exceeds
    [minmass] and, when [maxsize] is set, the size is below it. *)
Lemma postfilter_mask_eq (g : Fl.float -> bool) (h : Fl.float -> bool) (n : nat) :
  forall l : list row,
    map (fun '(b, s) => b && h s) (combine (map g (column n l)) (column (n + 1) l))
    = map (fun r => g (nth n r Fl.NaN) && h (nth (n + 1) r Fl.NaN)) l.
Proof.
  induction l as [|r l IH]; [reflexivity|].
  cbn [column map combine]. f_equal. exact IH.
Qed.

Lemma postfilter_condition : forall n minmass maxsize refined_coords w out masses,
  postfilter n minmass maxsize refined_coords = Ok w (out, masses) ->
  w = [] /\
  out = boolean_mask refined_coords
          (map (fun r => Fl.gtb (nth n r Fl.NaN) (Fl.Fin minmass) &&
                         match maxsize with
                         | None => true
                         | Some m => Fl.ltb (nth (n + 1) r Fl.NaN) (Fl.Fin m)
                         end)
               refined_coords) /\
  masses = column n out.
Proof.
  intros n minmass maxsize refined w out masses. unfold postfilter.
  destruct maxsize as [m|].
  - destruct (length (hd [] refined) <=? n + 1)%nat; [discriminate|].
    cbn [bind ret app].
    rewrite (postfilter_mask_eq (fun x => Fl.gtb x (Fl.Fin minmass))
               (fun s => Fl.ltb s (Fl.Fin m)) n refined).
    intros H. injection H as Hw Ho Hm. subst.
    split; [reflexivity|]. split; [reflexivity|].
    unfold column. apply boolean_mask_map_comm.
  - cbn [bind ret app]. unfold column at 1. rewrite map_map.
    intros H. injection H as Hw Ho Hm. subst.
    replace (map (fun r => Fl.gtb (nth n r Fl.NaN) (Fl.Fin minmass) && true) refined)
      with (map (fun r => Fl.gtb (nth n r Fl.NaN) (Fl.Fin minmass)) refined)
      by (apply map_ext; intros r; rewrite andb_true_r; reflexivity).
    split; [reflexivity|]. split; [reflexivity|].
    unfold column. rewrite <- (map_map (fun r => nth n r Fl.NaN)
                                 (fun x => Fl.gtb x (Fl.Fin minmass))).
    apply boolean_mask_map_comm.
Qed.

(** X13. The post-filter only removes rows; every row it keeps has a mass
    above [minmass] and, when [maxsize] is set, a size below it; and the
    masses it hands on (to the top-N selection) are those of the rows it
    keeps, in order. *)
Theorem postfilter_keeps_qualified :
  forall n minmass maxsize refined_coords w out masses,
    postfilter n minmass maxsize refined_coords = Ok w (out, masses) ->
    subseq out refined_coords /\
    masses = column n out /\
    Forall (fun r => Fl.gtb (nth n r Fl.NaN) (Fl.Fin minmass) = true /\
                     forall m, maxsize = Some m ->
                               Fl.ltb (nth (n + 1) r Fl.NaN) (Fl.Fin m) = true)
           out.
Proof.
  intros n minmass maxsize refined w out masses H.
  apply postfilter_condition in H. destruct H as [_ [Hout Hm]].
  split; [rewrite Hout; apply boolean_mask_subseq|]. split; [exact Hm|].
  apply Forall_forall. intros r Hr. rewrite Hout in Hr.
  apply boolean_mask_map_In in Hr. apply andb_true_iff in Hr.
  destruct Hr as [H1 H2]. split; [exact H1|].
  intros m ->. exact H2.
Qed.

Lemma postfilter_keeps_qualified_witness :
  subseq [nth 1 three_rows []; nth 2 three_rows []] three_rows /\
  [Fl.Fin 9; Fl.Fin 5] = column 2 [nth 1 three_rows []; nth 2 three_rows []] /\
  Forall (fun r => Fl.gtb (nth 2 r Fl.NaN) (Fl.Fin 4) = true /\
                   forall m, None = Some m ->
                             Fl.ltb (nth (2 + 1) r Fl.NaN) (Fl.Fin m) = true)
         [nth 1 three_rows []; nth 2 three_rows []].
Proof.
  apply (postfilter_keeps_qualified 2 4 None three_rows []).
  vm_compute. reflexivity.
Defined.

Section PrefilterProperties.

Variable sqrtQ : Q -> Q.

(** X14. The pre-filter only removes candidates: those it returns are
    candidates it was given, in their order. *)
Theorem prefilter_removes_only :
  forall image_ radius minmass maxsize coords w out,
    prefilter sqrtQ image_ radius minmass maxsize coords = Ok w out ->
    subseq out coords.
Proof.
  intros image_ radius minmass maxsize coords w out H. unfold prefilter in H.
  apply bind_Ok_inv in H. destruct H as [w1 [approx_mass [w2 [_ [H _]]]]].
  apply bind_Ok_inv in H. destruct H as [w3 [condition [w4 [_ [H _]]]]].
  cbn [ret] in H. inversion H; subst. apply boolean_mask_subseq.
Qed.

End PrefilterProperties.

Lemma prefilter_removes_only_witness :
  subseq [[3; 3]] [[3; 3]; [1; 1]].
Proof.
  apply (prefilter_removes_only sample_sqrt one_pixel [1; 1] 50 None
           [[3; 3]; [1; 1]] []).
  vm_compute. reflexivity.
Defined.

(* ------------------------------------------------------------------ *)
(** ** The margin of [locate] leaves complete neighbourhoods *)

Lemma local_maxima_clear_of_edges :
  forall percentile_value img nan_at radius percentile margin w coords,
    local_maxima percentile_value img nan_at radius percentile (Some margin)
      = Ok w coords ->
    coords = [] \/
    (length margin = length (shape img) /\
     forall x, In x coords ->
               length x = length (shape img) /\
               near_edge (shape img) margin x = false).
Proof.
  intros percentile_value img nan_at radius percentile margin w coords.
  unfold local_maxima.
  destruct (percentile_threshold_cases percentile_value img nan_at percentile)
    as [->|[threshold ->]]; [discriminate|].
  rewrite bind_ret_l.
  destruct (isnan threshold).
  { cbn. intros H. inversion H. left. reflexivity. }
  destruct (dtype img); [|discriminate].
  destruct (filter _ (indices (shape img))) as [|x0 maxima] eqn:Emax.
  { cbn. intros H. inversion H. left. reflexivity. }
  destruct (length margin =? ndim img)%nat eqn:Elen; cbn [negb]; [|discriminate].
  apply Nat.eqb_eq in Elen.
  destruct (filter _ (x0 :: maxima)) as [|y0 ys] eqn:Ef.
  { cbn. intros H. inversion H. left. reflexivity. }
  cbn. intros H. inversion H. subst coords. right. split; [exact Elen|].
  intros x Hx. rewrite <- Ef in Hx. apply filter_In in Hx. destruct Hx as [Hin Hne].
  rewrite <- Emax in Hin. apply filter_In in Hin. destruct Hin as [Hin _].
  split; [apply indices_length; exact Hin | apply negb_true_iff; exact Hne].
Qed.

Lemma locate_margin_length : forall radius separation smoothing_size,
  length separation = length radius -> length smoothing_size = length radius ->
  length (locate_margin radius separation smoothing_size) = length radius.
Proof.
  intros radius separation smoothing_size Hs Hm. unfold locate_margin.
  rewrite length_map, !length_combine, Hs, Hm, !Nat.min_id. reflexivity.
Qed.

Lemma locate_margin_ge_radius : forall radius separation smoothing_size k,
  length separation = length radius -> length smoothing_size = length radius ->
  (k < length radius)%nat ->
  nth k radius 0 <= nth k (locate_margin radius separation smoothing_size) 0.
Proof.
  intros radius separation smoothing_size k Hs Hm Hk. unfold locate_margin.
  rewrite (nth_map_combine _ _ _ k 0 (0, 0) 0);
    [|exact Hk | rewrite length_combine, Hs, Hm, Nat.min_id; exact Hk].
  destruct (nth k (combine separation smoothing_size) (0, 0)) as [sep sm]. lia.
Qed.

Lemma Forall_combine_l {A B} (P : A -> Prop) : forall (la : list A) (lb : list B),
  Forall P la -> Forall (fun p => P (fst p)) (combine la lb).
Proof.
  induction la as [|a la IH]; intros lb H; [constructor|].
  destruct lb as [|b lb]; [constructor|].
  inversion H; subst. cbn [combine]. constructor; [assumption | apply IH; assumption].
Qed.

Section MarginProperties.

Variable sqrtQ : Q -> Q.

(** X15. Under the margin [locate] computes, every candidate the detector
    returns has its whole window inside the image, and the pre-filter that
    follows raises nothing. *)
Theorem locate_margin_full_windows :
  forall percentile_value img nan_at radius separation smoothing_size percentile
         w coords,
    length separation = length radius ->
    length smoothing_size = length radius ->
    local_maxima percentile_value img nan_at radius percentile
                 (Some (locate_margin radius separation smoothing_size))
    = Ok w coords ->
    Forall (fun c => window_ok (shape img) radius c = true) coords /\
    forall minmass maxsize,
      exists out, prefilter sqrtQ img radius minmass maxsize coords = Ok [] out.
Proof.
  intros percentile_value img nan_at radius separation smoothing_size percentile
         w coords Hs Hm Hloc.
  assert (Hwin : Forall (fun c => window_ok (shape img) radius c = true) coords).
  { apply local_maxima_clear_of_edges in Hloc. destruct Hloc as [->|[Hlen Hall]];
      [constructor|].
    rewrite locate_margin_length in Hlen by assumption.
    apply Forall_forall. intros x Hx. destruct (Hall x Hx) as [Hxl Hne].
    apply window_ok_iff. split; [exact Hxl|]. split; [exact Hlen|].
    intros k Hk.
    pose proof (near_edge_false _ _ _ Hxl
                  (eq_trans (locate_margin_length _ _ _ Hs Hm) Hlen) Hne k Hk) as Hb.
    pose proof (locate_margin_ge_radius radius separation smoothing_size k Hs Hm
                  ltac:(lia)) as Hge.
    lia. }
  split; [exact Hwin|]. intros minmass maxsize. unfold prefilter.
  destruct (mapM_total (estimate_mass img radius)
              (fun c => window_ok (shape img) radius c = true) (fun _ => True))
    with (l := coords) as [approx_mass [Hmass [Hlen _]]]; [|exact Hwin|].
  { intros c Hc. unfold estimate_mass, masked_window. rewrite Hc.
    cbn [bind ret app]. eexists. split; [reflexivity | exact I]. }
  rewrite Hmass. cbn [bind app].
  destruct maxsize as [maxsize|].
  - match goal with
    | |- context [mapM ?f ?cm] =>
        destruct (fun Hf => mapM_total f
                    (fun p => window_ok (shape img) radius (fst p) = true)
                    (fun _ => True) Hf cm) as [approx_size [Hsize _]]
    end.
    + intros [c m] Hc. cbn [fst] in Hc. unfold estimate_size, masked_window.
      rewrite Hc. cbn [bind ret app]. eexists. split; [reflexivity | exact I].
    + apply (Forall_combine_l (fun c => window_ok (shape img) radius c = true)).
      exact Hwin.
    + rewrite Hsize. cbn [bind ret app]. eexists. reflexivity.
  - cbn [bind ret app]. eexists. reflexivity.
Qed.

End MarginProperties.

Lemma locate_margin_full_windows_witness :
  Forall (fun c => window_ok (shape two_pixels) [2; 2] c = true) [[3; 3]; [3; 4]] /\
  forall minmass maxsize,
    exists out, prefilter sample_sqrt two_pixels [2; 2] minmass maxsize
                          [[3; 3]; [3; 4]] = Ok [] out.
Proof.
  apply (locate_margin_full_windows sample_sqrt sample_percentile two_pixels no_nan
           [2; 2] [6; 6] [5; 5] 64 [] [[3; 3]; [3; 4]] eq_refl eq_refl).
  vm_compute. reflexivity.
Defined.

(* ------------------------------------------------------------------ *)
(** ** The table [locate] returns *)

Ltac bind_inv H x E :=
  apply bind_Ok_inv in H;
  let w1 := fresh "w" in let w2 := fresh "w" in let Hw := fresh "Hw" in
  destruct H as [w1 [x [w2 [E [H Hw]]]]].

Section LocateProperties.

Variable ndimage_shift : list Z -> nbhd -> list Q -> nbhd.
Variable sqrtQ : Q -> Q.
Variable cosmask sinmask : Z -> index -> Q.
Variable NUMBA_AVAILABLE : bool.
Variable bandpass : image -> list Z -> list Z -> option Q -> result image.
Variable scale_to_gamut : image -> dtype_kind -> image.
Variable measure_noise : image -> list Z -> option Q -> Q * Q.
Variable static_error : table -> Q -> Z -> Z -> list Fl.float.
Variable percentile_value : list Q -> Q -> Q.

Lemma locate_inv : forall raw_image a w t,
  locate ndimage_shift sqrtQ cosmask sinmask NUMBA_AVAILABLE
         bandpass scale_to_gamut measure_noise static_error
             percentile_value raw_image a = Ok w t ->
  exists diameter noise_size raw' n,
    validate_tuple (Args.diameter a) (length (shape (np_squeeze raw_image)))
    = Ok [] diameter /\
    forallb (fun x => negb (Z.land x 1 =? 0)) diameter = true /\
    frame_no raw' = frame_no raw_image /\
    (exists image_ dt,
       n = ndim (scale_to_gamut image_ dt) /\
       (shape image_ = shape (np_squeeze raw_image) \/
        exists src ns ss th w', bandpass src ns ss th = Ok w' image_ /\
                                shape src = shape (np_squeeze raw_image))) /\
    let ch := if list_eq_dec Z.eq_dec (tl diameter) (removelast diameter)
              then Args.characterize a else false in
    (t = mkTable (all_columns n ch) [] \/
     exists refined exact_mass,
       refined <> [] /\
       exact_mass = column n refined /\
       (Args.filter_after a = true ->
        Forall (fun r => Fl.gtb (nth n r Fl.NaN) (Fl.Fin (Args.minmass a)) = true)
               refined) /\
       t = assemble measure_noise static_error raw' diameter noise_size
                    (Args.threshold a) ch n
                    (select_topn np_argsort (Args.topn a) refined exact_mass)).
Proof.
  intros raw_image a w t H. unfold locate in H.
  bind_inv H diameter Ed.
  assert (Hd : validate_tuple (Args.diameter a)
                 (length (shape (np_squeeze raw_image))) = Ok [] diameter).
  { destruct (Args.diameter a); cbn in Ed |- *.
    - inversion Ed. reflexivity.
    - destruct (_ =? _)%nat; inversion Ed. reflexivity. }
  destruct (negb (forallb _ diameter)) eqn:Eodd; [discriminate H|].
  apply negb_false_iff in Eodd.
  bind_inv H separation Es.
  bind_inv H smoothing_size Esm.
  bind_inv H noise_size En.
  bind_inv H u Eu.
  bind_inv H p Ep. destruct p as [raw' image_].
  assert (Hf : frame_no raw' = frame_no raw_image /\
               (shape image_ = shape (np_squeeze raw_image) \/
                exists src ns ss th w', bandpass src ns ss th = Ok w' image_ /\
                                        shape src = shape (np_squeeze raw_image))).
  { destruct (Args.preprocess a).
    - bind_inv Ep im Eim. cbn [ret] in Ep. inversion Ep; subst.
      split.
      + destruct (Args.invert a); [|reflexivity].
        unfold invert_image. destruct (dtype (np_squeeze raw_image)); reflexivity.
      + right. do 5 eexists. split; [exact Eim|].
        destruct (Args.invert a); [|reflexivity].
        unfold invert_image. destruct (dtype (np_squeeze raw_image)); reflexivity.
    - cbn [ret] in Ep. inversion Ep; subst. split; [reflexivity|].
      left. reflexivity. }
  destruct Hf as [Hf Hsrc].
  match type of H with
  | context [local_maxima _ ?im _ _ _ _] => set (image' := im) in *
  end.
  exists diameter, noise_size, raw', (ndim image').
  split; [exact Hd|]. split; [exact Eodd|]. split; [exact Hf|].
  split; [do 2 eexists; split; [reflexivity | exact Hsrc]|].
  cbv zeta.
  bind_inv H coords Ec.
  destruct coords as [|c0 coords].
  { cbn [ret] in H. inversion H. left. reflexivity. }
  bind_inv H coords' Ec'.
  destruct coords' as [|c1 coords'].
  { cbn in H. inversion H. left. reflexivity. }
  bind_inv H refined_coords Er.
  bind_inv H p Ep'. destruct p as [refined exact_mass].
  destruct refined as [|r0 refined].
  { cbn in H. inversion H. left. reflexivity. }
  cbn [ret] in H. inversion H. subst t. right.
  exists (r0 :: refined), exact_mass.
  split; [discriminate|].
  destruct (Args.filter_after a).
  - apply postfilter_condition in Ep'. destruct Ep' as [_ [Hout Hm]].
    split; [exact Hm|]. split; [|reflexivity].
    intros _. apply Forall_forall. intros r Hr. rewrite Hout in Hr.
    apply boolean_mask_map_In in Hr. apply andb_true_iff in Hr. tauto.
  - cbn [ret] in Ep'. inversion Ep'; subst.
    split; [reflexivity|]. split; [discriminate | reflexivity].
Qed.

(** X16. [locate] raises [ValueError] whenever a component of the diameter
    is even, whatever the image and the other arguments. *)
Theorem locate_even_diameter_raises : forall raw_image a diameter x,
  validate_tuple (Args.diameter a) (length (shape (np_squeeze raw_image)))
  = Ok [] diameter ->
  In x diameter -> x mod 2 = 0 ->
  locate ndimage_shift sqrtQ cosmask sinmask NUMBA_AVAILABLE
         bandpass scale_to_gamut measure_noise static_error
             percentile_value raw_image a
  = Raise ValueError.
Proof.
  intros raw_image a diameter x Hd Hx Heven. unfold locate.
  rewrite Hd. cbn [bind].
  assert (Hall : forallb (fun y => negb (Z.land y 1 =? 0)) diameter = false).
  { destruct (forallb _ diameter) eqn:E; [|reflexivity].
    rewrite forallb_forall in E. specialize (E x Hx).
    apply negb_true_iff in E. apply Z.eqb_neq in E.
    change 1 with (Z.ones 1) in E. rewrite Z.land_ones in E by lia.
    change (2 ^ 1) with 2 in E. contradiction. }
  rewrite Hall. reflexivity.
Qed.

Lemma coord_columns_length : forall n, length (coord_columns n) = n.
Proof.
  intros n. unfold coord_columns. destruct (n <? 4)%nat eqn:E.
  - apply Nat.ltb_lt in E. rewrite length_firstn. cbn [length]. lia.
  - rewrite length_map, length_seq. reflexivity.
Qed.

Lemma assemble_columns : forall raw' diameter noise_size threshold ch n refined,
  columns (assemble measure_noise static_error raw' diameter noise_size
                    threshold ch n refined)
  = all_columns n ch ++ match frame_no raw' with
                        | Some _ => ["frame"%string]
                        | None => []
                        end.
Proof.
  intros raw' diameter noise_size threshold ch n refined. unfold assemble, all_columns.
  destruct ch.
  - destruct (measure_noise raw' diameter threshold) as [black_level noise].
    destruct (frame_no raw'); cbn [columns]; rewrite ?app_nil_r; reflexivity.
  - destruct (frame_no raw'); cbn [columns]; rewrite ?app_nil_r; reflexivity.
Qed.

(** X17. The columns of every table [locate] returns, for collaborators
    that keep the shape of the image: one coordinate column per axis of the
    squeezed image, [mass], then [size, ecc, signal, ep] exactly when
    [characterize] is asked for and the diameter is the same on every axis,
    then possibly [frame].  An image without a frame number gives no [frame]
    column; for an image with one, every table that has a row has the
    column. *)
Theorem locate_schema : forall raw_image a w t diameter,
  (forall img ns ss th w' out,
      bandpass img ns ss th = Ok w' out -> shape out = shape img) ->
  (forall img dt, shape (scale_to_gamut img dt) = shape img) ->
  validate_tuple (Args.diameter a) (length (shape (np_squeeze raw_image)))
  = Ok [] diameter ->
  locate ndimage_shift sqrtQ cosmask sinmask NUMBA_AVAILABLE
         bandpass scale_to_gamut measure_noise static_error
             percentile_value raw_image a = Ok w t ->
  let n := length (shape (np_squeeze raw_image)) in
  let ch := if list_eq_dec Z.eq_dec (tl diameter) (removelast diameter)
            then Args.characterize a else false in
  (columns t = all_columns n ch \/
   columns t = all_columns n ch ++ ["frame"%string]) /\
  (frame_no raw_image = None -> columns t = all_columns n ch) /\
  (frame_no raw_image <> None -> rows t <> [] ->
   columns t = all_columns n ch ++ ["frame"%string]).
Proof.
  intros raw_image a w t diameter Hband Hscale Hd H. apply locate_inv in H.
  destruct H as [diameter' [noise_size [raw' [n' [Hd' [_ [Hf [Hn H]]]]]]]].
  rewrite Hd in Hd'. injection Hd' as <-.
  assert (En : n' = length (shape (np_squeeze raw_image))).
  { destruct Hn as [image_ [dt [-> Hsrc]]]. unfold ndim. rewrite Hscale.
    destruct Hsrc as [->|[src [ns [ss [th [w' [Hb <-]]]]]]]; [reflexivity|].
    rewrite (Hband _ _ _ _ _ _ Hb). reflexivity. }
  subst n'. cbv zeta in H |- *.
  set (n := length (shape (np_squeeze raw_image))) in *.
  set (ch := if list_eq_dec Z.eq_dec (tl diameter) (removelast diameter)
             then Args.characterize a else false) in *.
  destruct H as [->|[refined [exact_mass [_ [_ [_ ->]]]]]].
  - cbn [columns rows]. split; [left; reflexivity|].
    split; [reflexivity|]. intros _ Hrows. contradiction Hrows. reflexivity.
  - rewrite assemble_columns, Hf.
    destruct (frame_no raw_image) as [k|].
    + split; [right; reflexivity|]. split; [discriminate | reflexivity].
    + rewrite app_nil_r. split; [left; reflexivity|].
      split; [reflexivity|]. intros Hk. contradiction Hk. reflexivity.
Qed.

Lemma argmax_from_range : forall l best_i best i,
  let r := argmax_from best_i best i l in
  r = best_i \/ (i <= r < i + length l)%nat.
Proof.
  induction l as [|x l IH]; intros best_i best i; cbn zeta; cbn [argmax_from].
  - left. reflexivity.
  - destruct (isnan best); [left; reflexivity|].
    destruct (isnan x || Fl.ltb best x).
    + destruct (IH i x (S i)) as [->|H]; right; cbn [length]; lia.
    + destruct (IH best_i best (S i)) as [->|H]; [left; reflexivity|].
      right. cbn [length]. lia.
Qed.

Lemma np_argmax_range : forall l, l <> [] -> (np_argmax l < length l)%nat.
Proof.
  intros [|x l] H; [congruence|]. cbn [np_argmax length].
  destruct (argmax_from_range l 0%nat x 1%nat) as [->|Hr]; lia.
Qed.

Lemma select_topn_Forall (P : row -> Prop) : forall topn refined exact_mass,
  length exact_mass = length refined ->
  refined <> [] ->
  Forall P refined ->
  Forall P (select_topn np_argsort topn refined exact_mass).
Proof.
  intros topn refined exact_mass Hlen Hne HP. unfold select_topn.
  destruct topn as [topn|]; [|exact HP].
  destruct (Z.of_nat (length refined) >? topn) eqn:Egt; [|exact HP].
  rewrite Forall_forall in HP.
  assert (Htake : forall idx, (forall i, In i idx -> (i < length refined)%nat) ->
                              Forall P (take_rows refined idx)).
  { intros idx Hidx. apply Forall_forall. intros r Hr. unfold take_rows in Hr.
    apply in_map_iff in Hr. destruct Hr as [i [<- Hi]].
    apply HP. apply nth_In. apply Hidx. exact Hi. }
  destruct (topn =? 1).
  - apply Htake. intros i [<-|[]]. rewrite <- Hlen. apply np_argmax_range.
    intros ->. destruct refined; [congruence | discriminate Hlen].
  - unfold slice_last.
    match goal with |- Forall P (skipn ?m ?l) =>
      assert (Hl : Forall P l); [|rewrite <- (firstn_skipn m l) in Hl;
                                   apply Forall_app in Hl; tauto]
    end.
    apply Htake. intros i Hi.
    apply (Permutation_in _ (np_argsort_Permutation exact_mass)) in Hi.
    apply in_seq in Hi. lia.
Qed.

Lemma all_columns_nth_mass : forall n ch extra,
  nth n (all_columns n ch ++ extra) ""%string = "mass"%string.
Proof.
  intros n ch extra. unfold all_columns, char_columns.
  rewrite <- !app_assoc.
  rewrite app_nth2 by (rewrite coord_columns_length; lia).
  rewrite coord_columns_length, Nat.sub_diag. reflexivity.
Qed.

Lemma nth_update_nth_other {A} (f : A -> A) (d : A) : forall (l : list A) n m,
  n <> m -> nth n (update_nth m f l) d = nth n l d.
Proof.
  induction l as [|x l IH]; intros n m Hnm; [destruct m; reflexivity|].
  destruct m as [|m]; destruct n as [|n]; cbn [update_nth nth]; try reflexivity.
  - congruence.
  - apply IH. lia.
Qed.

Lemma mass_above_app : forall n (m : Q) (r e : row),
  Fl.gtb (nth n r Fl.NaN) (Fl.Fin m) = true ->
  Fl.gtb (nth n (r ++ e) Fl.NaN) (Fl.Fin m) = true.
Proof.
  intros n m r e H. destruct (Nat.lt_ge_cases n (length r)) as [Hlt|Hge].
  - rewrite app_nth1 by exact Hlt. exact H.
  - rewrite nth_overflow in H by exact Hge. discriminate H.
Qed.

Lemma assemble_rows_mass : forall raw' diameter noise_size threshold ch n (m : Q) sel,
  Forall (fun r => Fl.gtb (nth n r Fl.NaN) (Fl.Fin m) = true) sel ->
  Forall (fun r => Fl.gtb (nth n r Fl.NaN) (Fl.Fin m) = true)
         (rows (assemble measure_noise static_error raw' diameter noise_size
                         threshold ch n sel)).
Proof.
  intros raw' diameter noise_size threshold ch n m sel Hsel.
  set (P := fun r : row => Fl.gtb (nth n r Fl.NaN) (Fl.Fin m) = true) in *.
  assert (Hframe : forall (l : list row) k, Forall P l ->
                     Forall P (map (fun r => r ++ [Fl.of_Z k]) l)).
  { intros l k Hl. apply Forall_forall. intros r Hr.
    apply in_map_iff in Hr. destruct Hr as [r0 [<- Hr0]].
    rewrite Forall_forall in Hl. apply mass_above_app. apply Hl. exact Hr0. }
  unfold assemble. destruct ch.
  - destruct (measure_noise raw' diameter threshold) as [black_level noise].
    cbn [rows columns].
    set (rows1 := map (update_nth (n + 3) (fun s => Fl.sub s (Fl.Fin black_level))) sel).
    assert (H1 : Forall P rows1).
    { apply Forall_forall. intros r Hr. apply in_map_iff in Hr.
      destruct Hr as [r0 [<- Hr0]]. rewrite Forall_forall in Hsel.
      unfold P. rewrite nth_update_nth_other by lia. apply Hsel. exact Hr0. }
    match goal with
    | |- context [map ?g (combine rows1 ?ks)] =>
        assert (H2 : Forall P (map g (combine rows1 ks)))
    end.
    { apply Forall_forall. intros r Hr. apply in_map_iff in Hr.
      destruct Hr as [[r0 k] [<- Hr0]]. apply in_combine_l in Hr0.
      rewrite Forall_forall in H1. apply mass_above_app. apply H1. exact Hr0. }
    destruct (frame_no raw'); cbn [rows]; [apply Hframe|]; exact H2.
  - destruct (frame_no raw'); cbn [rows]; [apply Hframe|]; exact Hsel.
Qed.

(** X18. When the post-filter is on, every feature of the table [locate]
    returns has a mass above [minmass]; the mass is in the column labelled
    [mass]. *)
Theorem locate_rows_exceed_minmass : forall raw_image a w t,
  locate ndimage_shift sqrtQ cosmask sinmask NUMBA_AVAILABLE
         bandpass scale_to_gamut measure_noise static_error
             percentile_value raw_image a = Ok w t ->
  Args.filter_after a = true ->
  exists n,
    nth n (columns t) ""%string = "mass"%string /\
    Forall (fun r => Fl.gtb (nth n r Fl.NaN) (Fl.Fin (Args.minmass a)) = true)
           (rows t).
Proof.
  intros raw_image a w t H Hfa. apply locate_inv in H.
  destruct H as [diameter [noise_size [raw' [n [_ [_ [Hf [_ H]]]]]]]].
  cbv zeta in H. exists n.
  destruct H as [->|[refined [exact_mass [Hne [Hm [Hall ->]]]]]].
  - cbn [columns rows]. split; [|constructor].
    rewrite <- (app_nil_r (all_columns n _)). apply all_columns_nth_mass.
  - split; [rewrite assemble_columns; apply all_columns_nth_mass|].
    apply assemble_rows_mass. apply select_topn_Forall.
    + rewrite Hm. unfold column. apply length_map.
    + exact Hne.
    + apply Hall. exact Hfa.
Qed.

End LocateProperties.

Lemma locate_even_diameter_raises_witness :
  locate sample_shift sample_sqrt sample_angular sample_angular false
         sample_bandpass sample_scale sample_noise sample_static_error
         sample_percentile two_pixels (Args.defaults (Tuple [5; 4])) = Raise ValueError.
Proof.
  apply (locate_even_diameter_raises sample_shift sample_sqrt sample_angular
           sample_angular false sample_bandpass sample_scale sample_noise
           sample_static_error sample_percentile two_pixels (Args.defaults (Tuple [5; 4]))
           [5; 4] 4 eq_refl).
  - right. left. reflexivity.
  - reflexivity.
Defined.

Lemma sample_table_computed :
  locate sample_shift sample_sqrt sample_angular sample_angular false
         sample_bandpass sample_scale sample_noise sample_static_error
         sample_percentile two_pixels args_no_preprocess = Ok [] sample_table.
Proof. vm_compute. reflexivity. Qed.

Lemma sample_bandpass_shape : forall img ns ss th w' out,
  sample_bandpass img ns ss th = Ok w' out -> shape out = shape img.
Proof. intros img ns ss th w' out H. inversion H. reflexivity. Qed.

Lemma locate_schema_witness :
  exists t,
    locate sample_shift sample_sqrt sample_angular sample_angular false
           sample_bandpass sample_scale sample_noise sample_static_error
           sample_percentile (two_pixels_frame 7) args_no_preprocess = Ok [] t /\
    rows t <> [] /\
    columns t = ["x"; "y"; "mass"; "size"; "ecc"; "signal"; "ep"; "frame"]%string.
Proof.
  eexists. split; [vm_compute; reflexivity|]. split; [discriminate|].
  refine (proj2 (proj2 (locate_schema sample_shift sample_sqrt sample_angular
           sample_angular false sample_bandpass sample_scale sample_noise
           sample_static_error sample_percentile (two_pixels_frame 7)
           args_no_preprocess [] _ [5; 5] sample_bandpass_shape
           (fun _ _ => eq_refl) eq_refl _)) _ _).
  - vm_compute. reflexivity.
  - discriminate.
  - discriminate.
Defined.

Lemma locate_rows_exceed_minmass_witness :
  exists n,
    nth n (columns sample_table) ""%string = "mass"%string /\
    Forall (fun r => Fl.gtb (nth n r Fl.NaN)
                            (Fl.Fin (Args.minmass args_no_preprocess)) = true)
           (rows sample_table).
Proof.
  exact (locate_rows_exceed_minmass sample_shift sample_sqrt sample_angular
           sample_angular false sample_bandpass sample_scale sample_noise
           sample_static_error sample_percentile two_pixels args_no_preprocess [] sample_table
           sample_table_computed eq_refl).
Defined.

(** The columns of the sample table. *)
Example sample_table_columns :
  rows sample_table <> [] /\
  columns sample_table = ["x"; "y"; "mass"; "size"; "ecc"; "signal"; "ep"]%string.
Proof. vm_compute. split; [discriminate | reflexivity]. Qed.

(* ------------------------------------------------------------------ *)
(** ** Deduplication keeps the brightest feature *)

Lemma ltb_not_nan_r : forall a b, Fl.ltb a b = true -> isnan b = false.
Proof. intros [a|s|] [b|t|] H; try reflexivity; discriminate H. Qed.

Lemma ltb_not_eqb : forall a b, Fl.ltb a b = true -> Fl.eqb b a = false.
Proof.
  intros a b. destruct a as [a|s|], b as [b|t|]; cbn; intros H;
    try discriminate H; try reflexivity.
  - apply negb_true_iff in H. destruct (Qeq_bool b a) eqn:E; [|reflexivity].
    apply Qeq_bool_iff in E. assert (Hle : (b <= a)%Q) by (rewrite E; apply Qle_refl).
    apply Qle_bool_iff in Hle. congruence.
  - destruct s, t; try discriminate H; reflexivity.
Qed.

Lemma eqb_sym : forall a b, Fl.eqb a b = Fl.eqb b a.
Proof.
  intros [a|s|] [b|t|]; cbn; try reflexivity.
  - destruct (Qeq_bool a b) eqn:E1, (Qeq_bool b a) eqn:E2; try reflexivity.
    + apply Qeq_bool_iff in E1. symmetry in E1. apply Qeq_bool_iff in E1. congruence.
    + apply Qeq_bool_iff in E2. symmetry in E2. apply Qeq_bool_iff in E2. congruence.
  - destruct s, t; reflexivity.
Qed.

(** In a pair, a strictly brighter member is not the one dropped. *)
Lemma dimmer_of_not_brighter : forall positions mass i j,
  (Fl.ltb (nth j mass Fl.NaN) (nth i mass Fl.NaN) = true ->
   dimmer_of positions mass (i, j) = j) /\
  (Fl.ltb (nth i mass Fl.NaN) (nth j mass Fl.NaN) = true ->
   dimmer_of positions mass (i, j) = i).
Proof.
  intros positions mass i j. unfold dimmer_of. cbn [fst snd].
  set (mi := nth i mass Fl.NaN). set (mj := nth j mass Fl.NaN). split; intros H.
  - rewrite (ltb_not_eqb _ _ H). unfold argmin2.
    rewrite (ltb_not_nan_r _ _ H), (ltb_not_nan_l _ _ H), H. reflexivity.
  - rewrite eqb_sym, (ltb_not_eqb _ _ H). unfold argmin2.
    rewrite (ltb_not_nan_l _ _ H), (ltb_not_nan_r _ _ H), (ltb_asym _ _ H).
    reflexivity.
Qed.

Lemma np_delete_split {A} (idx : list nat) (r : A) : forall (l1 l2 : list A),
  ~ In (length l1) idx ->
  exists l1' l2',
    np_delete (l1 ++ r :: l2) idx = l1' ++ r :: l2' /\
    subseq l1' l1 /\ subseq l2' l2.
Proof.
  intros l1 l2 Hnot. unfold np_delete.
  set (f := fun p : nat * A => let '(i, _) := p in negb (existsb (Nat.eqb i) idx)).
  assert (Hgen : forall s (la lb : list A),
             filter f (combine (seq s (length (la ++ lb))) (la ++ lb))
             = filter f (combine (seq s (length la)) la)
               ++ filter f (combine (seq (s + length la) (length lb)) lb)).
  { intros s la. revert s. induction la as [|a la IH]; intros s lb.
    - cbn [app length seq combine filter]. rewrite Nat.add_0_r. reflexivity.
    - cbn [app length seq combine filter]. rewrite IH.
      replace (S s + length la)%nat with (s + S (length la))%nat by lia.
      destruct (f (s, a)); reflexivity. }
  rewrite (Hgen 0%nat l1 (r :: l2)). cbn [Nat.add].
  cbn [length seq combine filter].
  assert (Hkeep : f (length l1, r) = true).
  { unfold f. apply negb_true_iff.
    destruct (existsb (Nat.eqb (length l1)) idx) eqn:E; [|reflexivity].
    apply existsb_exists in E. destruct E as [x [Hx Hxe]].
    apply Nat.eqb_eq in Hxe. subst x. contradiction. }
  rewrite Hkeep. rewrite map_app. cbn [map snd].
  eexists. eexists. split; [reflexivity|].
  split; apply filter_combine_subseq.
Qed.

Lemma subseq_Forall {A} (P : A -> Prop) (l1 l2 : list A) :
  subseq l1 l2 -> Forall P l2 -> Forall P l1.
Proof.
  intros Hs HF. apply Forall_forall. intros x Hx.
  rewrite Forall_forall in HF. apply HF. eapply subseq_In; eauto.
Qed.

Lemma mass_column_nth : forall mass_index (results : list row) k,
  (k < length results)%nat ->
  nth k (mass_column mass_index results) Fl.NaN
  = nth mass_index (nth k results []) Fl.NaN.
Proof.
  intros mass_index results k Hk. unfold mass_column.
  rewrite (nth_indep _ Fl.NaN ((fun r => nth mass_index r Fl.NaN) []))
    by (rewrite length_map; exact Hk).
  apply (map_nth (fun r => nth mass_index r Fl.NaN)).
Qed.

Lemma strictly_brightest_not_dropped :
  forall mass_index rsep (r : row) l1 l2,
    Forall (fun r' => Fl.ltb (nth mass_index r' Fl.NaN) (nth mass_index r Fl.NaN) = true)
           (l1 ++ l2) ->
    let results := l1 ++ r :: l2 in
    let positions := scaled_positions mass_index rsep results in
    ~ In (length l1)
         (to_drop positions (mass_column mass_index results) (query_pairs positions)).
Proof.
  intros mass_index rsep r l1 l2 Hall results positions Hin.
  subst positions. subst results. set (results := l1 ++ r :: l2) in *.
  set (positions := scaled_positions mass_index rsep results) in *.
  unfold to_drop in Hin. apply in_map_iff in Hin.
  destruct Hin as [[i j] [Hd Hp]].
  apply query_pairs_bounds in Hp.
  unfold positions, scaled_positions in Hp. rewrite length_map in Hp.
  assert (Hm : nth (length l1) results [] = r) by (unfold results; apply nth_middle).
  assert (Hother : forall k, (k < length results)%nat -> k <> length l1 ->
            Fl.ltb (nth k (mass_column mass_index results) Fl.NaN)
                   (nth (length l1) (mass_column mass_index results) Fl.NaN) = true).
  { intros k Hk Hne.
    assert (Hl : (length l1 < length results)%nat)
      by (unfold results; rewrite length_app; cbn; lia).
    rewrite !mass_column_nth by assumption.
    match goal with
    | |- context [nth mass_index ?x Fl.NaN = _] => idtac
    | |- Fl.ltb _ (nth mass_index ?x Fl.NaN) = true =>
        replace x with r by (symmetry; exact Hm)
    end.
    rewrite Forall_forall in Hall. apply Hall.
    unfold results in *. destruct (Nat.lt_ge_cases k (length l1)) as [Hlt|Hge].
    - rewrite app_nth1 by exact Hlt. apply in_or_app. left. apply nth_In. exact Hlt.
    - rewrite app_nth2 by exact Hge.
      destruct (k - length l1)%nat as [|k'] eqn:Ek; [lia|].
      cbn [nth]. apply in_or_app. right. apply nth_In.
      rewrite length_app in Hk. cbn [length] in Hk. lia. }
  destruct (dimmer_of_not_brighter positions (mass_column mass_index results) i j)
    as [Hj Hi].
  destruct (Nat.eq_dec i (length l1)) as [Ei|Ei].
  - subst i. rewrite Hj in Hd by (apply Hother; lia). lia.
  - destruct (Nat.eq_dec j (length l1)) as [Ej|Ej].
    + subst j. rewrite Hi in Hd by (apply Hother; lia). lia.
    + destruct (dimmer_of_member positions (mass_column mass_index results) (i, j))
        as [H|H]; rewrite H in Hd; cbn in Hd; lia.
Qed.

(** X19. Deduplication never drops a feature that is strictly brighter
    than every other: such a row is still in the table the loop ends with,
    and still the brightest there. *)
Theorem dedup_keeps_strictly_brightest :
  forall fuel mass_index rsep results final r,
    strictly_brightest mass_index r results ->
    dedup_loop fuel mass_index rsep results = Some final ->
    strictly_brightest mass_index r final.
Proof.
  induction fuel as [|k IH]; intros mass_index rsep results final r Hbr H;
    [discriminate H|].
  cbn [dedup_loop] in H.
  destruct (query_pairs (scaled_positions mass_index rsep results)) as [|p ps] eqn:E.
  - inversion H; subst. exact Hbr.
  - apply (IH _ _ _ _ r) in H; [exact H|].
    destruct Hbr as [l1 [l2 [-> Hall]]].
    assert (Hnot : ~ In (length l1)
                     (to_drop (scaled_positions mass_index rsep (l1 ++ r :: l2))
                              (mass_column mass_index (l1 ++ r :: l2)) (p :: ps))).
    { rewrite <- E.
      exact (strictly_brightest_not_dropped mass_index rsep r l1 l2 Hall). }
    unfold dedup_pass.
    destruct (np_delete_split _ r l1 l2 Hnot) as [l1' [l2' [Heq [Hs1 Hs2]]]].
    exists l1', l2'. split; [exact Heq|].
    apply Forall_app in Hall. destruct Hall as [H1 H2].
    apply Forall_app. split; eapply subseq_Forall; eauto.
Qed.

Lemma dedup_keeps_strictly_brightest_witness :
  strictly_brightest 2 (nth 1 three_rows []) [nth 1 three_rows []].
Proof.
  apply (dedup_keeps_strictly_brightest 4 2 [6; 6] three_rows
           [nth 1 three_rows []] (nth 1 three_rows [])).
  - exists [nth 0 three_rows []], [nth 2 three_rows []].
    split; [reflexivity|]. repeat constructor.
  - vm_compute. reflexivity.
Defined.

(* ------------------------------------------------------------------ *)
(** ** [topn = 0] *)

Lemma take_rows_seq : forall rows : list row,
  take_rows rows (seq 0 (length rows)) = rows.
Proof.
  intros rows. unfold take_rows.
  apply (nth_ext _ _ [] []).
  - rewrite length_map, length_seq. reflexivity.
  - intros n Hn. rewrite length_map, length_seq in Hn.
    rewrite (nth_indep _ [] ((fun i => nth i rows []) 0%nat))
      by (rewrite length_map, length_seq; exact Hn).
    rewrite (map_nth (fun i => nth i rows [])), seq_nth by exact Hn.
    reflexivity.
Qed.

(** X20. With [topn = 0] nothing is selected away: every feature that
    survived filtering is kept, in ascending order of mass (the slice
    [[-0:]] is the whole array). *)
Theorem select_topn_zero_keeps_all : forall refined_coords exact_mass,
  refined_coords <> [] ->
  length exact_mass = length refined_coords ->
  Permutation (select_topn np_argsort (Some 0) refined_coords exact_mass)
              refined_coords /\
  select_topn np_argsort (Some 0) refined_coords exact_mass
  = take_rows refined_coords (np_argsort exact_mass).
Proof.
  intros refined exact_mass Hne Hlen. unfold select_topn.
  assert (Hgt : (Z.of_nat (length refined) >? 0) = true).
  { rewrite Z.gtb_ltb. apply Z.ltb_lt. destruct refined; [congruence|]. cbn. lia. }
  rewrite Hgt. cbn [Z.eqb]. unfold slice_last. cbn [Z.eqb Z.to_nat skipn].
  split; [|reflexivity].
  rewrite <- (take_rows_seq refined) at 2. unfold take_rows.
  apply Permutation_map. rewrite <- Hlen. apply np_argsort_Permutation.
Qed.

Lemma select_topn_zero_keeps_all_witness :
  Permutation (select_topn np_argsort (Some 0) three_rows (column 2 three_rows))
              three_rows /\
  select_topn np_argsort (Some 0) three_rows (column 2 three_rows)
  = take_rows three_rows (np_argsort (column 2 three_rows)).
Proof.
  apply (select_topn_zero_keeps_all three_rows (column 2 three_rows)).
  - discriminate.
  - reflexivity.
Defined.

(* ------------------------------------------------------------------ *)
(** ** The numba engine does not raise on candidates inside the image *)

Lemma getitem_inside : forall img n0 n1 a b,
  shape img = [n0; n1] -> 0 <= a < n0 -> 0 <= b < n1 ->
  getitem img [a; b] = Ok [] (pix img [a; b]).
Proof.
  intros img n0 n1 a b Hs Ha Hb. unfold getitem. rewrite Hs.
  cbn [combine map].
  replace (a <? 0) with false by (symmetry; apply Z.ltb_ge; lia).
  replace (b <? 0) with false by (symmetry; apply Z.ltb_ge; lia).
  unfold in_bounds. cbn [length combine forallb Nat.eqb].
  replace (0 <=? a) with true by (symmetry; apply Z.leb_le; lia).
  replace (a <? n0) with true by (symmetry; apply Z.ltb_lt; lia).
  replace (0 <=? b) with true by (symmetry; apply Z.leb_le; lia).
  replace (b <? n1) with true by (symmetry; apply Z.ltb_lt; lia).
  reflexivity.
Qed.

Lemma masked_offsets_bounds : forall radius ij,
  In ij (masked_offsets radius) ->
  0 <= nth 0 ij 0 <= 2 * radius /\ 0 <= nth 1 ij 0 <= 2 * radius.
Proof.
  intros radius ij H. unfold masked_offsets in H. apply filter_In in H.
  destruct H as [H _]. apply indices_in_bounds in H.
  pose proof (in_bounds_nth _ _ H 0%nat ltac:(cbn; lia)) as H0.
  pose proof (in_bounds_nth _ _ H 1%nat ltac:(cbn; lia)) as H1.
  cbn [nth] in H0, H1. lia.
Qed.

Lemma fold_left_result_inv {A B} (P : A -> Prop) (step : result A -> B -> result A) :
  forall (l : list B) (a0 : A),
    (forall x a, In x l -> P a -> exists a', step (Ok [] a) x = Ok [] a' /\ P a') ->
    P a0 ->
    exists a', fold_left step l (Ok [] a0) = Ok [] a' /\ P a'.
Proof.
  induction l as [|x l IH]; intros a0 H H0; cbn [fold_left].
  - exists a0. split; [reflexivity | exact H0].
  - destruct (H x a0 (or_introl eq_refl) H0) as [a1 [Ha1 HP]]. rewrite Ha1.
    apply IH; [|exact HP]. intros y a Hy. apply H. right. exact Hy.
Qed.

(** A loop whose invariant [P] becomes [Q] at the element [x]. *)
Lemma fold_left_result_via {A B} (P Q : A -> Prop)
    (step : result A -> B -> result A) (l : list B) (x : B) (a0 : A) :
  In x l ->
  (forall y a, In y l -> P a -> exists a', step (Ok [] a) y = Ok [] a' /\ P a') ->
  (forall a, P a -> exists a', step (Ok [] a) x = Ok [] a' /\ Q a') ->
  (forall y a, In y l -> Q a -> exists a', step (Ok [] a) y = Ok [] a' /\ Q a') ->
  P a0 ->
  exists a', fold_left step l (Ok [] a0) = Ok [] a' /\ Q a'.
Proof.
  intros Hx HP Hstep HQ H0.
  destruct (in_split x l Hx) as [l1 [l2 ->]].
  rewrite fold_left_app. cbn [fold_left].
  destruct (fold_left_result_inv P step l1 a0) as [a1 [E1 P1]]; [|exact H0|].
  { intros y a Hy. apply HP. apply in_or_app. left. exact Hy. }
  rewrite E1. destruct (Hstep a1 P1) as [a2 [E2 Q2]]. rewrite E2.
  apply fold_left_result_inv; [|exact Q2].
  intros y a Hy. apply HQ. apply in_or_app. right. right. exact Hy.
Qed.

Lemma range_In : forall n a, 0 <= a < n -> In a (range n).
Proof.
  intros n a H. unfold range. apply in_map_iff. exists (Z.to_nat a).
  split; [lia | apply in_seq; lia].
Qed.

Lemma indices_2d_In : forall n0 n1 a b,
  0 <= a < n0 -> 0 <= b < n1 -> In [a; b] (indices [n0; n1]).
Proof.
  intros n0 n1 a b Ha Hb. cbn [indices].
  apply in_flat_map. exists a. split; [apply range_In; exact Ha|].
  apply in_map. apply in_flat_map. exists b. split; [apply range_In; exact Hb|].
  left. reflexivity.
Qed.

(** The centre of the square belongs to the mask. *)
Lemma centre_in_mask : forall radius,
  0 <= radius -> In [radius; radius] (masked_offsets radius).
Proof.
  intros radius Hr. unfold masked_offsets. apply filter_In.
  split; [apply indices_2d_In; lia|].
  unfold binary_mask. cbn [combine map]. rewrite Z.sub_diag.
  destruct (Qle_bool _ 1) eqn:E; [reflexivity|].
  exfalso. apply not_true_iff_false in E. apply E. apply Qle_bool_iff.
  unfold sumQ, Qdiv. cbn [fold_left].
  setoid_replace (0 + inject_Z 0 * / inject_Z radius * (inject_Z 0 * / inject_Z radius)
                  + inject_Z 0 * / inject_Z radius * (inject_Z 0 * / inject_Z radius))%Q
    with 0%Q by (change (inject_Z 0) with 0%Q; ring).
  discriminate.
Qed.

Lemma Qis_zero_pos : forall b, (0 < b)%Q -> Fl.Qis_zero b = false.
Proof.
  intros b H. unfold Fl.Qis_zero. unfold Qlt in H. cbn in H.
  apply Z.eqb_neq. lia.
Qed.

Lemma div_finite : forall a b,
  (0 < b)%Q -> Fl.div (Fl.Fin a) (Fl.Fin b) = Fl.Fin (a / b).
Proof. intros a b H. unfold Fl.div. rewrite (Qis_zero_pos b H). reflexivity. Qed.

Section NumbaTotal.

Variable sqrtQ : Q -> Q.
Variable cosmask sinmask : Z -> index -> Q.
Variable raw_image image_ : image.
Variable radius n0 n1 : Z.

Hypothesis image_shape : shape image_ = [n0; n1].
Hypothesis raw_shape : shape raw_image = [n0; n1].
Hypothesis extents_int16 : 0 <= n0 < 32768 /\ 0 <= n1 < 32768.
Hypothesis radius_positive : 0 < radius.

Lemma numba_move_axis_range : forall n c oc,
  0 <= n < 32768 -> 2 * radius + 1 <= n ->
  radius <= numba_move_axis radius n c oc <= n - radius - 1.
Proof.
  intros n c oc Hn Hfit. unfold numba_move_axis.
  replace (int16 n) with n by (unfold int16; rewrite Z.mod_small by lia; lia).
  match goal with
  | |- context [if ?m <? radius then radius else ?m] =>
      generalize m; intros x
  end.
  destruct (x <? radius) eqn:E1.
  - destruct (radius >? n - radius - 1) eqn:E2; rewrite Z.gtb_ltb in E2;
      [apply Z.ltb_lt in E2 | apply Z.ltb_ge in E2]; lia.
  - apply Z.ltb_ge in E1.
    destruct (x >? n - radius - 1) eqn:E2; rewrite Z.gtb_ltb in E2;
      [apply Z.ltb_lt in E2 | apply Z.ltb_ge in E2]; lia.
Qed.

(** Every pixel of the processed image is positive: every square inside the
    image then has a positive mass, and no division of the loop has a zero
    divisor. *)
Hypothesis pixels_positive :
  forall a b, 0 <= a < n0 -> 0 <= b < n1 -> (0 < pix image_ [a; b])%Q.

Lemma moments_positive : forall c,
  anchor_inside radius n0 n1 c ->
  exists s0 s1 m,
    moments image_ radius (fst c - radius) (snd c - radius) = Ok [] (s0, s1, m) /\
    (0 < m)%Q.
Proof.
  intros c [Hc0 Hc1]. unfold moments, ret.
  match goal with
  | |- context [fold_left ?step ?l (Ok [] ?a0)] =>
      destruct (fold_left_result_via
                  (fun '(_, _, m) => (0 <= m)%Q) (fun '(_, _, m) => (0 < m)%Q)
                  step l [radius; radius] a0)
        as [[[s0 s1] m] [Hf Hm]]
  end.
  - apply centre_in_mask. lia.
  - intros ij [[c0 c1] m] Hij Hm. apply masked_offsets_bounds in Hij.
    cbn [bind]. rewrite (getitem_inside image_ n0 n1) by (assumption || lia).
    cbn [bind ret app]. eexists. split; [reflexivity|].
    pose proof (pixels_positive (fst c - radius + nth 0 ij 0)
                                (snd c - radius + nth 1 ij 0)
                                ltac:(lia) ltac:(lia)). cbv beta iota. lra.
  - intros [[c0 c1] m] Hm. cbn [bind nth].
    rewrite (getitem_inside image_ n0 n1) by (assumption || lia).
    cbn [bind ret app]. eexists. split; [reflexivity|].
    pose proof (pixels_positive (fst c - radius + radius) (snd c - radius + radius)
                                ltac:(lia) ltac:(lia)). cbv beta iota. lra.
  - intros ij [[c0 c1] m] Hij Hm. apply masked_offsets_bounds in Hij.
    cbn [bind]. rewrite (getitem_inside image_ n0 n1) by (assumption || lia).
    cbn [bind ret app]. eexists. split; [reflexivity|].
    pose proof (pixels_positive (fst c - radius + nth 0 ij 0)
                                (snd c - radius + nth 1 ij 0)
                                ltac:(lia) ltac:(lia)). cbv beta iota. lra.
  - apply Qle_refl.
  - exists s0, s1, m. split; assumption.
Qed.

Lemma numba_center_regular : forall c,
  anchor_inside radius n0 n1 c ->
  exists st, numba_center image_ radius c = Ok [] st /\ regular_state radius n0 n1 st.
Proof.
  intros c Hc. unfold numba_center.
  destruct (moments_positive c Hc) as [s0 [s1 [m [Hm Hpos]]]]. rewrite Hm.
  cbn [bind ret app]. eexists. split; [reflexivity|].
  unfold regular_state. cbn [ncoord square ncm_i fst snd].
  rewrite !(div_finite _ m Hpos).
  split; [exact Hc|]. split; [reflexivity|]. split; reflexivity.
Qed.

Lemma numba_iterate_regular : forall n st,
  regular_state radius n0 n1 st ->
  exists st', numba_iterate image_ radius n st = Ok [] st' /\ regular_state radius n0 n1 st'.
Proof.
  induction n as [|k IH]; intros st Hst.
  - exists st. split; [reflexivity | exact Hst].
  - cbn [numba_iterate].
    destruct (negb _).
    + exists st. split; [reflexivity | exact Hst].
    + destruct (_ || _).
      * rewrite image_shape. cbn [nth].
        match goal with
        | |- context [numba_center image_ radius ?c] => set (c' := c)
        end.
        assert (Hc' : anchor_inside radius n0 n1 c').
        { destruct Hst as [[H0 H1] _]. destruct extents_int16 as [E0 E1].
          unfold anchor_inside, c'. cbn [fst snd]. split.
          - apply numba_move_axis_range; lia.
          - apply numba_move_axis_range; lia. }
        destruct (numba_center_regular c' Hc') as [st1 [Hst1 Hreg1]].
        rewrite Hst1. cbn [bind].
        destruct (IH st1 Hreg1) as [st' [Hit Hinv]].
        rewrite Hit. exists st'. split; [reflexivity | exact Hinv].
      * exists st. split; [reflexivity | exact Hst].
Qed.

Lemma numba_characterize_regular : forall characterize c,
  anchor_inside radius n0 n1 c ->
  exists chars,
    numba_characterize sqrtQ cosmask sinmask raw_image image_ radius characterize
                       (fst c - radius, snd c - radius) = Ok [] chars /\
    length chars = (if characterize then 4%nat else 1%nat) /\
    (exists m, nth 0 chars Fl.NaN = Fl.Fin m /\ (0 < m)%Q) /\
    (characterize = true -> is_finite (nth 2 chars Fl.NaN) = true).
Proof.
  intros characterize c [Hc0 Hc1]. unfold numba_characterize. cbn [fst snd].
  set (center_px := pix image_ [fst c - radius + radius; snd c - radius + radius]).
  assert (Hcen : (0 < center_px)%Q) by (apply pixels_positive; lia).
  change (ret (0%Q, 0%Q, 0%Q, 0%Q, 0%Q))
    with (@Ok (Q * Q * Q * Q * Q) [] (0%Q, 0%Q, 0%Q, 0%Q, 0%Q)).
  match goal with
  | |- context [fold_left ?step ?l (Ok [] ?a0)] =>
      destruct (fold_left_result_via
                  (fun '(mass_, _, _, _, _) => (0 <= mass_)%Q)
                  (fun '(mass_, _, _, _, _) => (center_px <= mass_)%Q)
                  step l [radius; radius] a0)
        as [[[[[mass_ Rg_] ecc1] ecc2] signal_] [Hf Hm]]
  end.
  - apply centre_in_mask. lia.
  - intros ij [[[[mass_ Rg_] ecc1] ecc2] signal_] Hij Hm.
    apply masked_offsets_bounds in Hij. cbn [bind].
    rewrite (getitem_inside image_ n0 n1) by (assumption || lia).
    pose proof (pixels_positive (fst c - radius + nth 0 ij 0)
                                (snd c - radius + nth 1 ij 0)
                                ltac:(lia) ltac:(lia)).
    destruct characterize; cbn [negb bind ret app].
    + rewrite (getitem_inside raw_image n0 n1) by (assumption || lia).
      cbn [bind ret app]. eexists. split; [reflexivity | cbv beta iota; lra].
    + eexists. split; [reflexivity | cbv beta iota; lra].
  - intros [[[[mass_ Rg_] ecc1] ecc2] signal_] Hm. cbn [bind nth].
    rewrite (getitem_inside image_ n0 n1) by (assumption || lia).
    fold center_px.
    destruct characterize; cbn [negb bind ret app].
    + rewrite (getitem_inside raw_image n0 n1) by (assumption || lia).
      cbn [bind ret app]. eexists. split; [reflexivity | cbv beta iota; lra].
    + eexists. split; [reflexivity | cbv beta iota; lra].
  - intros ij [[[[mass_ Rg_] ecc1] ecc2] signal_] Hij Hm.
    apply masked_offsets_bounds in Hij. cbn [bind].
    rewrite (getitem_inside image_ n0 n1) by (assumption || lia).
    pose proof (pixels_positive (fst c - radius + nth 0 ij 0)
                                (snd c - radius + nth 1 ij 0)
                                ltac:(lia) ltac:(lia)).
    destruct characterize; cbn [negb bind ret app].
    + rewrite (getitem_inside raw_image n0 n1) by (assumption || lia).
      cbn [bind ret app]. eexists. split; [reflexivity | cbv beta iota; lra].
    + eexists. split; [reflexivity | cbv beta iota; lra].
  - apply Qle_refl.
  - rewrite Hf. cbn [bind].
    destruct characterize; cbn [negb].
    + rewrite (getitem_inside image_ n0 n1) by (assumption || lia).
      fold center_px. cbn [bind ret app]. eexists. split; [reflexivity|].
      split; [reflexivity|]. cbn [nth]. split.
      * exists mass_. split; [reflexivity | cbv beta iota; lra].
      * intros _. rewrite div_finite; [reflexivity|]. unfold ECC_EPS. lra.
    + cbn [ret app]. eexists. split; [reflexivity|]. split; [reflexivity|].
      cbn [nth]. split; [|discriminate].
      exists mass_. split; [reflexivity | cbv beta iota; lra].
Qed.

(** X21. For a positive radius and a candidate whose square lies inside a
    two-dimensional image with extents below 32768 and positive pixels, the
    numba engine returns a row and raises nothing, whatever the number of
    iterations: a finite position, a positive mass, and three more entries
    when characterizing, the eccentricity being finite.  Every mass the loop divides by is
    positive, so the result does not depend on how a division by zero is
    answered ([nan] by NumPy's scalars, [ZeroDivisionError] by the compiled
    loop). *)
Theorem numba_refine_one_total :
  forall max_iterations characterize c,
    anchor_inside radius n0 n1 c ->
    exists r,
      numba_refine_one sqrtQ cosmask sinmask raw_image image_ radius
                       max_iterations characterize c = Ok [] r /\
      length r = (if characterize then 6%nat else 3%nat) /\
      is_finite (nth 0 r Fl.NaN) = true /\
      is_finite (nth 1 r Fl.NaN) = true /\
      (exists m, nth 2 r Fl.NaN = Fl.Fin m /\ (0 < m)%Q) /\
      (characterize = true -> is_finite (nth 4 r Fl.NaN) = true).
Proof.
  intros max_iterations characterize c Hc. unfold numba_refine_one.
  destruct (numba_center_regular c Hc) as [st0 [Hst0 Hreg0]].
  rewrite Hst0. cbn [bind].
  destruct (numba_iterate_regular max_iterations st0 Hreg0)
    as [st [Hit [Hin [Hsq [Hf0 Hf1]]]]].
  rewrite Hit. cbn [bind]. rewrite Hsq.
  destruct (numba_characterize_regular characterize (ncoord st) Hin)
    as [chars [Hch [Hlen [Hmass Hecc]]]].
  rewrite Hch. cbn [bind ret app]. eexists. split; [reflexivity|].
  cbn [length nth]. rewrite Hlen.
  split; [destruct characterize; reflexivity|].
  split; [exact Hf1|]. split; [exact Hf0|]. split; [exact Hmass | exact Hecc].
Qed.

End NumbaTotal.

Lemma two_pixels_positive :
  forall a b, 0 <= a < 7 -> 0 <= b < 7 -> (0 < pix two_pixels [a; b])%Q.
Proof.
  intros a b Ha Hb.
  assert (Ea : a = 0 \/ a = 1 \/ a = 2 \/ a = 3 \/ a = 4 \/ a = 5 \/ a = 6) by lia.
  assert (Eb : b = 0 \/ b = 1 \/ b = 2 \/ b = 3 \/ b = 4 \/ b = 5 \/ b = 6) by lia.
  repeat (destruct Ea as [->|Ea]); try subst a;
    repeat (destruct Eb as [->|Eb]); try subst b; reflexivity.
Defined.

Lemma numba_refine_one_total_witness :
  exists r,
    numba_refine_one sample_sqrt sample_angular sample_angular
                     two_pixels two_pixels 2 10 true (3, 2) = Ok [] r /\
    length r = 6%nat /\
    is_finite (nth 0 r Fl.NaN) = true /\
    is_finite (nth 1 r Fl.NaN) = true /\
    (exists m, nth 2 r Fl.NaN = Fl.Fin m /\ (0 < m)%Q) /\
    (true = true -> is_finite (nth 4 r Fl.NaN) = true).
Proof.
  apply (numba_refine_one_total sample_sqrt sample_angular sample_angular
           two_pixels two_pixels 2 7 7 eq_refl eq_refl ltac:(lia) ltac:(lia)
           two_pixels_positive 10%nat true (3, 2)).
  unfold anchor_inside. cbn. lia.
Defined.

(** X22 is [python_zero_mass], above: on a zero-mass neighbourhood the
    Python engine reports the integer anchor and a zero mass. *)
Lemma python_zero_mass_witness :
  exists r,
    refine_one sample_shift sample_sqrt sample_angular sample_angular
               black_uint8 black_uint8 [2; 2] 10 true [3; 3] = Ok [] r /\
    Forall2 Fl.same (firstn (length [3; 3]) r) (map Fl.of_Z (rev [3; 3])) /\
    Fl.same (nth (length [3; 3]) r Fl.NaN) (Fl.Fin 0).
Proof.
  eapply (python_zero_mass sample_shift sample_sqrt sample_angular sample_angular
            black_uint8 black_uint8 [2; 2] 10%nat true [3; 3] []).
  - reflexivity.
  - vm_compute. reflexivity.
  - reflexivity.
Defined.
